(** * cuirq: the native side of the QML bridge

    A shallow embedding of the C++ sources under [src/cpp]:
    - [jvmlistmodel.{h,cpp}]     the dynamic list model ([JvmListModel]),
    - [signalforwarder.{h,cpp}]  the signal-handler registry ([SignalForwarder]),
    - [qmlwatcher.{h,cpp}]       the hot-reload watcher ([QmlWatcher]),
    - [qmlbridge.cpp]            the JNI entry points ([Java_qml_Bridge_*]).

    Member variables become record fields with their C++ names, member
    functions become functions on the record.  What the code prints with
    [qDebug]/[qWarning]/[std::cout]/[std::cerr] is returned as a list of
    [LogLine]s; a [qDebug] line that goes on with a value the model does
    not carry (a pointer, the length of the JSON text) is cut before that
    value.  The Qt and JNI services the code calls (JSON documents,
    [QVariant], the global-reference table, the event loop's timers, the
    QML engine) are modelled just far enough to run the code.  A call
    that JNI leaves undefined (through a deleted global reference or a
    null method id) has no result: the function that makes it answers
    [None]. *)

From stdpp Require Import gmap strings list fin_maps sorting pretty.

Set Warnings "-register-all".
Local Open Scope Z_scope.

(** ** Console output *)

Inductive Severity := Debug | Warning | Out | Err.

Record LogLine := Log { severity : Severity; text : string }.

Global Instance Severity_eq_dec : EqDecision Severity.
Proof. solve_decision. Defined.
Global Instance LogLine_eq_dec : EqDecision LogLine.
Proof. solve_decision. Defined.

(** ** C++ [int] *)

Definition INT_MAX : Z := 2 ^ 31 - 1.

(** The value an [int] holds after a computation whose mathematical result is
    [z] (two's complement, 32 bits).  C++ leaves signed overflow undefined;
    every result below about [m_nextRoleId++] assumes the counter stays
    under [INT_MAX], where [wrap_int] is the identity. *)
Definition wrap_int (z : Z) : Z := (z + 2 ^ 31) `mod` 2 ^ 32 - 2 ^ 31.

(** ** Qt values: [QJsonValue], [QJsonDocument], [QVariant], [QMap] *)

Module Qt.

(** [Qt::UserRole] *)
Definition UserRole : Z := 256.

(** A JSON number is an IEEE-754 double; it is carried around as its bit
    pattern and never inspected. *)
Inductive QJsonValue :=
| JNull
| JBool (b : bool)
| JDouble (bits : Z)
| JString (s : string)
| JArray (items : list QJsonValue)
| JObject (members : gmap string QJsonValue).

(** What [QJsonDocument::fromJson] returns: a null document when the text
    does not parse, otherwise an array or an object. *)
Inductive QJsonDocument :=
| DocNull
| DocArray (a : list QJsonValue)
| DocObject (o : gmap string QJsonValue).

Definition isArray (doc : QJsonDocument) : bool :=
  match doc with DocArray _ => true | _ => false end.

Definition isObject (v : QJsonValue) : bool :=
  match v with JObject _ => true | _ => false end.

(** [QVariant]: [Invalid] is the default-constructed [QVariant()]. *)
Inductive QVariant :=
| Invalid
| VNull
| VBool (b : bool)
| VDouble (bits : Z)
| VString (s : string)
| VList (l : list QVariant)
| VMap (m : gmap string QVariant).

(** [QJsonValue::toVariant] *)
Fixpoint toVariant (v : QJsonValue) : QVariant :=
  match v with
  | JNull => VNull
  | JBool b => VBool b
  | JDouble d => VDouble d
  | JString s => VString s
  | JArray l => VList (toVariant <$> l)
  | JObject m => VMap (toVariant <$> m)
  end.

(** *** [QString] and the order of [QMap<QString, T>]

    A [QString] is a sequence of UTF-16 code units and a [QByteArray] a
    sequence of bytes.  Both are modelled by the UTF-8 text of the string:
    a [string] whose characters are the bytes of that text.  [QMap] orders
    its keys with [QString::operator<], which compares the code units, so
    the order of two keys is computed from their code units and not from
    their bytes: the two orders differ where a character outside the
    Basic Multilingual Plane (two surrogate units, 0xD800 and up) meets
    one from 0xE000 to 0xFFFF. *)

(** The bytes of a text, and the text of some bytes. *)
Definition bytes (s : string) : list N :=
  Ascii.N_of_ascii <$> String.list_ascii_of_string s.
Definition of_bytes (bs : list N) : string :=
  String.string_of_list_ascii (Ascii.ascii_of_N <$> bs).

(** The code points a UTF-8 byte sequence encodes: one, two, three or
    four bytes each, by the first byte.  A byte that starts no sequence,
    or a sequence cut short, reads as U+FFFD, as in [QString::fromUtf8]. *)
Fixpoint code_points (bs : list N) : list N :=
  match bs with
  | [] => []
  | b0 :: r0 =>
      if (b0 <? 128)%N then b0 :: code_points r0
      else
        match r0 with
        | b1 :: r1 =>
            if ((192 <=? b0) && (b0 <? 224))%N then
              ((b0 `mod` 32) * 64 + b1 `mod` 64)%N :: code_points r1
            else
              match r1 with
              | b2 :: r2 =>
                  if ((224 <=? b0) && (b0 <? 240))%N then
                    ((b0 `mod` 16) * 4096 + (b1 `mod` 64) * 64 + b2 `mod` 64)%N
                      :: code_points r2
                  else
                    match r2 with
                    | b3 :: r3 =>
                        if (240 <=? b0)%N then
                          ((b0 `mod` 8) * 262144 + (b1 `mod` 64) * 4096
                           + (b2 `mod` 64) * 64 + b3 `mod` 64)%N
                            :: code_points r3
                        else 65533%N :: code_points r0
                    | [] => 65533%N :: code_points r0
                    end
              | [] => 65533%N :: code_points r0
              end
        | [] => [65533%N]
        end
  end.

(** The UTF-16 code units of a code point: itself below 0x10000, a high
    and a low surrogate from there on. *)
Definition utf16 (c : N) : list N :=
  if (c <? 65536)%N then [c]
  else [(55296 + (c - 65536) `div` 1024)%N; (56320 + (c - 65536) `mod` 1024)%N].

(** The code units of the [QString] that holds the text [s]. *)
Definition code_units (s : string) : list N := code_points (bytes s) ≫= utf16.

(** Whether [a] is not after [b], for two sequences of code units
    compared unit by unit as [QString::operator<] does; of two sequences
    that agree as far as the shorter goes, the shorter comes first. *)
Fixpoint units_leb (a b : list N) : bool :=
  match a, b with
  | [], _ => true
  | _ :: _, [] => false
  | u :: a', v :: b' =>
      if (u <? v)%N then true
      else if (v <? u)%N then false
      else units_leb a' b'
  end.

(** The order of the keys of a [QMap<QString, T>]. *)
Definition key_le (a b : string) : Prop := units_leb (code_units a) (code_units b).

Global Instance key_le_dec : RelDecision key_le.
Proof. intros a b. unfold key_le. apply _. Defined.

(** The keys [begin() .. end()] visits: a [QMap] holds one value per key
    and is walked in ascending key order.  ([QJsonObject] is modelled the
    same way; the code only copies its members into a [QMap], so the order
    in which it is walked does not show in any result.) *)
Definition keys {V} (m : gmap string V) : list string :=
  merge_sort key_le (elements (dom m)).

(** The (key, value) pairs [begin() .. end()] visits. *)
Definition iter {V} (m : gmap string V) : list (string * V) :=
  omap (λ k, (λ v, (k, v)) <$> m !! k) (keys m).

(** [QString::toUtf8], [QString::fromUtf8]: both types are modelled as the
    UTF-8 text, so the conversions do nothing. *)
Definition toUtf8 (s : string) : string := s.
Definition fromUtf8 (s : string) : string := s.

(** [QByteArray::isEmpty] *)
Definition isEmpty (s : string) : bool := bool_decide (s = "").

(** [QModelIndex]: row, column and whether it belongs to a model. *)
Record QModelIndex := ModelIndex { row : Z; column : Z; has_model : bool }.

(** [QModelIndex::isValid] *)
Definition isValid (i : QModelIndex) : bool :=
  bool_decide (0 ≤ row i) && bool_decide (0 ≤ column i) && has_model i.

End Qt.

(** ** [JvmListModel] (jvmlistmodel.h, jvmlistmodel.cpp) *)

Module ListModel.
Import Qt.

Record JvmListModel := Model {
  m_items : list (gmap string QVariant);
  m_roleNames : gmap Z string;
  m_roleIds : gmap string Z;
  m_nextRoleId : Z
}.

(** The constructor: [m_nextRoleId(Qt::UserRole + 1)]. *)
Definition create : JvmListModel :=
  {| m_items := []; m_roleNames := ∅; m_roleIds := ∅;
     m_nextRoleId := UserRole + 1 |}.

(** [rowCount(parent)] *)
Definition rowCount (m : JvmListModel) (parent : QModelIndex) : Z :=
  if isValid parent then 0 else Z.of_nat (length (m_items m)).

(** [count()].  Container sizes are taken to fit an [int]. *)
Definition count (m : JvmListModel) : Z := Z.of_nat (length (m_items m)).

(** [roleNames()] *)
Definition roleNames (m : JvmListModel) : gmap Z string := m_roleNames m.

(** [data(index, role)].  [m_items.at(row)] is undefined outside the
    vector; the model answers [None] there. *)
Definition data (m : JvmListModel) (index : QModelIndex) (role : Z)
  : option QVariant :=
  if negb (isValid index) || bool_decide (count m ≤ row index) then
    Some Invalid
  else
    item ← m_items m !! Z.to_nat (row index);
    let roleName := default "" (m_roleNames m !! role) in
    if isEmpty roleName then Some Invalid
    else Some (default Invalid (item !! fromUtf8 roleName)).

(** One turn of the loop in [updateRoleNames]. *)
Definition updateRoleNames_key (st : JvmListModel * list LogLine)
    (key : string) : JvmListModel * list LogLine :=
  let roleName := toUtf8 key in
  match m_roleIds st.1 !! roleName with
  | Some _ => st
  | None =>
      let roleId := m_nextRoleId st.1 in
      ({| m_items := m_items st.1;
          m_roleNames := <[roleId := roleName]> (m_roleNames st.1);
          m_roleIds := <[roleName := roleId]> (m_roleIds st.1);
          m_nextRoleId := wrap_int (roleId + 1) |},
       st.2 ++ [Log Debug ("[CPP] Registered role: " +:+ roleName)])
  end.

(** [updateRoleNames(item)] *)
Definition updateRoleNames (item : gmap string QVariant)
    (st : JvmListModel * list LogLine) : JvmListModel * list LogLine :=
  foldl updateRoleNames_key st (keys item).

(** [getRoleId(roleName)] *)
Definition getRoleId (roleName : string) (m : JvmListModel)
  : Z * JvmListModel * list LogLine :=
  match m_roleIds m !! roleName with
  | Some roleId => (roleId, m, [])
  | None =>
      let roleId := m_nextRoleId m in
      (roleId,
       {| m_items := m_items m;
          m_roleNames := <[roleId := roleName]> (m_roleNames m);
          m_roleIds := <[roleName := roleId]> (m_roleIds m);
          m_nextRoleId := wrap_int (roleId + 1) |},
       [Log Debug ("[CPP] Auto-registered role: " +:+ roleName)])
  end.

(** The inner loop of [setJsonData]:
    [item.insert(it.key(), it.value().toVariant())]. *)
Definition toItem (obj : gmap string QJsonValue) : gmap string QVariant :=
  foldl (λ item kv, <[kv.1 := toVariant kv.2]> item) ∅ (iter obj).

(** One turn of the outer loop of [setJsonData]; the state is
    [newItems], the model and the output so far. *)
Definition setJsonData_value
    (st : list (gmap string QVariant) * (JvmListModel * list LogLine))
    (value : QJsonValue)
  : list (gmap string QVariant) * (JvmListModel * list LogLine) :=
  match value with
  | JObject obj =>
      let item := toItem obj in
      (st.1 ++ [item], updateRoleNames item st.2)
  | _ =>
      (st.1, (st.2.1,
              st.2.2 ++ [Log Warning "[CPP] WARNING: Skipping non-object item"]))
  end.

(** [setJsonData(jsonData)], from the document
    [QJsonDocument::fromJson(jsonData.toUtf8())] on. *)
Definition setJsonData (doc : QJsonDocument) (m : JvmListModel)
  : JvmListModel * list LogLine :=
  let out := [Log Debug "[CPP] JvmListModel::setJsonData called";
              Log Debug "[CPP] JSON data length:"] in
  match doc with
  | DocArray jsonArray =>
      let st := foldl setJsonData_value
                  ([], (m, out ++ [Log Debug "[CPP] Parsed"])) jsonArray in
      ({| m_items := st.1;
          m_roleNames := m_roleNames st.2.1;
          m_roleIds := m_roleIds st.2.1;
          m_nextRoleId := m_nextRoleId st.2.1 |},
       st.2.2 ++ [Log Debug "[CPP] Model updated with";
                  Log Debug "[CPP] Roles:"])
  | _ => (m, out ++ [Log Warning "[CPP] ERROR: JSON data is not an array"])
  end.

(** [clear()] *)
Definition clear (m : JvmListModel) : JvmListModel * list LogLine :=
  ({| m_items := [];
      m_roleNames := m_roleNames m;
      m_roleIds := m_roleIds m;
      m_nextRoleId := m_nextRoleId m |},
   [Log Debug "[CPP] JvmListModel::clear called"]).

(** *** How the view reads a field by name

    QML addresses a role by its name: the view looks the name up in
    [roleNames()] and calls [data] on [index(row, 0)]. *)

(** [QAbstractListModel::index(row, 0)]: [hasIndex] or an invalid index. *)
Definition index (m : JvmListModel) (r : Z) : QModelIndex :=
  if bool_decide (0 ≤ r) && bool_decide (r < count m)
  then ModelIndex r 0 true
  else ModelIndex (-1) (-1) false.

(** The role whose name in [roleNames()] is [name], if there is one. *)
Definition roleForName (m : JvmListModel) (name : string) : option Z :=
  fst <$> (snd <$> list_find (λ p, p.2 = name) (map_to_list (roleNames m))).

(** [get(rowIndex, fieldName)]: the invalid [QVariant] for a name without
    a role, otherwise what [data] answers for the row and the role.
    [None] is [data]'s [None]. *)
Definition get (m : JvmListModel) (r : Z) (name : string)
  : option QVariant :=
  match roleForName m name with
  | None => Some Invalid
  | Some role => data m (index m r) role
  end.

(** *** Sequences of calls on one model *)

Inductive call := SetData (doc : QJsonDocument) | Clear.

Definition step (m : JvmListModel) (c : call) : JvmListModel :=
  match c with
  | SetData doc => (setJsonData doc m).1
  | Clear => (clear m).1
  end.

Definition run (cs : list call) (m : JvmListModel) : JvmListModel :=
  foldl step m cs.

(** *** The words of the specification *)

(** The field names of a record, as the code meets them. *)
Definition record_fields (v : QJsonValue) : list string :=
  match v with JObject obj => keys obj | _ => [] end.

(** The field names of a call's payload, record after record. *)
Definition call_fields (c : call) : list string :=
  match c with
  | SetData (DocArray a) => concat (record_fields <$> a)
  | _ => []
  end.

(** [a] comes before [b] in the order of code units: where the two first
    differ [a] has the smaller unit, or [a] ends there and [b] goes on. *)
Inductive comes_before : list N → list N → Prop :=
| before_longer (v : N) (b : list N) : comes_before [] (v :: b)
| before_smaller (u v : N) (a b : list N) :
    (u < v)%N → comes_before (u :: a) (v :: b)
| before_later (u : N) (a b : list N) :
    comes_before a b → comes_before (u :: a) (u :: b).

(** The names of [l] stand in ascending order of their code units. *)
Definition ascending (l : list string) : Prop :=
  ∀ i j a b, l !! i = Some a → l !! j = Some b → (i < j)%nat →
    code_units a = code_units b ∨ comes_before (code_units a) (code_units b).

(** [l] lists the field names of the record [v], each once, in ascending
    order of their code units; a value that is no object has none. *)
Definition fields_in_order (v : QJsonValue) (l : list string) : Prop :=
  NoDup l ∧
  (∀ k, k ∈ l ↔ ∃ obj, v = JObject obj ∧ is_Some (obj !! k)) ∧
  ascending l.

(** A payload of records as its text writes it: the records in order, the
    members of each record in the order of the text. *)
Definition Written := list (list (string * QJsonValue)).

(** The [QJsonObject] that [QJsonDocument::fromJson] reads from the
    members of one record: it holds one value per name (for a name written
    twice, the later one) and keeps nothing of the order of the text. *)
Definition parsed (members : list (string * QJsonValue)) : QJsonValue :=
  JObject (foldl (λ obj kv, <[kv.1 := kv.2]> obj) ∅ members).

(** The document [QJsonDocument::fromJson] reads from such a text. *)
Definition fromJson (payload : Written) : QJsonDocument :=
  DocArray (parsed <$> payload).

(** The field names of a payload in the order its text writes them. *)
Definition written_fields (payload : Written) : list string :=
  concat ((λ members, members.*1) <$> payload).

(** [first_seen acc l]: [acc] followed by the names of [l] that are new,
    each once, in the order of their first occurrence. *)
Definition first_seen (acc l : list string) : list string :=
  foldl (λ acc k, if decide (k ∈ acc) then acc else acc ++ [k]) acc l.

(** The FieldId of the [i]-th name. *)
Definition FieldId (i : nat) : Z := UserRole + 1 + Z.of_nat i.

(** The FieldId table of [m] is the one that numbers [names] in order:
    the counter stands after the last name, [m_roleIds] sends the [i]-th
    name to the [i]-th id and nothing else anywhere, and [m_roleNames] is
    [m_roleIds] read backwards. *)
Definition table_is (names : list string) (m : JvmListModel) : Prop :=
  m_nextRoleId m = FieldId (length names) ∧
  (∀ name id, m_roleIds m !! name = Some id ↔
              ∃ i, names !! i = Some name ∧ id = FieldId i) ∧
  (∀ id name, m_roleNames m !! id = Some name ↔
              m_roleIds m !! name = Some id).

(** The number of object-shaped records of a payload. *)
Definition object_records (a : list QJsonValue) : nat :=
  length (filter (λ v, isObject v = true) a).

(** The rows of a payload: its object-shaped records, in order. *)
Definition rows_of (a : list QJsonValue) : list (gmap string QVariant) :=
  omap (λ v, match v with
             | JObject obj => Some (toVariant <$> obj)
             | _ => None
             end) a.

(** The number of records a console reports as skipped. *)
Definition skipped (out : list LogLine) : nat :=
  length (filter (λ ln, ln = Log Warning "[CPP] WARNING: Skipping non-object item")
                 out).

End ListModel.

(** ** The managed runtime as native code sees it (jni.h) *)

Module Jni.

(** A managed-runtime object, by identity. *)
Definition JavaObject := nat.

(** A thrown exception, by class name. *)
Definition Throwable := string.

Inductive jint := JNI_OK | JNI_EDETACHED | JNI_EVERSION | JNI_ERR.

Global Instance jint_eq_dec : EqDecision jint.
Proof. solve_decision. Defined.

(** The method id of [void handle(String[])]. *)
Inductive jmethodID := handle_method.

(** The virtual machine, seen from the thread that runs the code:
    - [globals]: the live global references and the objects they pin;
    - [next_global]: the next reference to hand out.  References are
      numbered in the order they are made, so that a number names one
      [NewGlobalRef] call for good; a real virtual machine may hand out
      the address of a deleted reference again, and that is why using a
      deleted reference in any way is undefined here;
    - [env]: what [GetEnv] answers on this thread;
    - [attachable]: whether [AttachCurrentThread] would succeed;
    - [pending]: the exception pending on this thread;
    - [invoked]: the [handle(String[])] calls made so far. *)
Record JavaVM := VM {
  globals : gmap nat JavaObject;
  next_global : nat;
  env : jint;
  attachable : bool;
  pending : option Throwable;
  invoked : list (JavaObject * list string)
}.

(** [NewGlobalRef(obj)]; [ok = false] is the virtual machine running out
    of memory, which makes it return [nullptr]. *)
Definition NewGlobalRef (ok : bool) (obj : JavaObject) (vm : JavaVM)
  : option nat * JavaVM :=
  if ok then
    (Some (next_global vm),
     {| globals := <[next_global vm := obj]> (globals vm);
        next_global := S (next_global vm);
        env := env vm; attachable := attachable vm;
        pending := pending vm; invoked := invoked vm |})
  else (None, vm).

(** The virtual machine with the reference [ref] gone from its table. *)
Definition released (ref : nat) (vm : JavaVM) : JavaVM :=
  {| globals := delete ref (globals vm);
     next_global := next_global vm;
     env := env vm; attachable := attachable vm;
     pending := pending vm; invoked := invoked vm |}.

(** [DeleteGlobalRef(ref)].  The reference must be live: what deleting a
    reference does that has been deleted before is left undefined by JNI,
    and the model answers [None] there. *)
Definition DeleteGlobalRef (ref : nat) (vm : JavaVM) : option JavaVM :=
  if bool_decide (is_Some (globals vm !! ref)) then Some (released ref vm)
  else None.

(** [AttachCurrentThread] succeeded: the thread now has an environment. *)
Definition attached (vm : JavaVM) : JavaVM :=
  {| globals := globals vm; next_global := next_global vm;
     env := JNI_OK; attachable := attachable vm;
     pending := pending vm; invoked := invoked vm |}.

(** [CallVoidMethod(ref, handle, args)] on the object [obj] that [ref]
    pins: the call is recorded and what the handler throws, if anything,
    becomes the pending exception. *)
Definition CallVoidMethod (obj : JavaObject) (args : list string)
    (thrown : option Throwable) (vm : JavaVM) : JavaVM :=
  {| globals := globals vm; next_global := next_global vm;
     env := env vm; attachable := attachable vm;
     pending := thrown; invoked := invoked vm ++ [(obj, args)] |}.

(** [ExceptionCheck()] *)
Definition ExceptionCheck (vm : JavaVM) : bool := bool_decide (is_Some (pending vm)).

(** [ExceptionClear()] *)
Definition ExceptionClear (vm : JavaVM) : JavaVM :=
  {| globals := globals vm; next_global := next_global vm;
     env := env vm; attachable := attachable vm;
     pending := None; invoked := invoked vm |}.

(** A virtual machine that has handed out no global reference yet. *)
Definition boot (e : jint) (can_attach : bool) : JavaVM :=
  {| globals := ∅; next_global := 0%nat; env := e; attachable := can_attach;
     pending := None; invoked := [] |}.

End Jni.

(** ** [SignalForwarder] (signalforwarder.h, signalforwarder.cpp) *)

Module Forwarder.
Import Qt Jni.

Record SignalForwarder := Fwd {
  m_handlers : gmap string nat;
  m_handlerClass : option nat;
  m_handleMethod : option jmethodID
}.

(** The forwarder, the virtual machine it talks to, and a ghost field:
    [made_for] remembers, for every global reference [registerHandler]
    created, the signal name and the handler object of that call. *)
Record State := St {
  fwd : SignalForwarder;
  vm : JavaVM;
  made_for : gmap nat (string * JavaObject)
}.

(** [QString::toStdString] *)
Definition toStdString (s : string) : string := s.

(** The constructor.  [cls] is what [FindClass] finds ([None]: it returns
    [nullptr]); [method_found] says whether [GetMethodID] finds [handle].
    The global reference for the class is taken to be available, and
    [ExceptionDescribe] clears the exception it prints. *)
Definition new (jvm : JavaVM) (cls : option JavaObject) (method_found : bool)
  : State * list LogLine :=
  let created := Log Out "[CPP] SignalForwarder created" in
  let empty := {| m_handlers := ∅; m_handlerClass := None;
                  m_handleMethod := None |} in
  if negb (bool_decide (env jvm = JNI_OK)) then
    (St empty jvm ∅,
     [created;
      Log Err "[CPP] ERROR: Failed to get JNIEnv in SignalForwarder constructor"])
  else
    match cls with
    | None =>
        (St empty (ExceptionClear jvm) ∅,
         [created;
          Log Err "[CPP] ERROR: Could not find qml.Bridge$SignalHandler class"])
    | Some c =>
        let r := NewGlobalRef true c jvm in
        if method_found then
          (St {| m_handlers := ∅; m_handlerClass := r.1;
                 m_handleMethod := Some handle_method |} r.2 ∅,
           [created; Log Out "[CPP] SignalForwarder initialized successfully"])
        else
          (St {| m_handlers := ∅; m_handlerClass := r.1;
                 m_handleMethod := None |} (ExceptionClear r.2) ∅,
           [created;
            Log Err "[CPP] ERROR: Could not find handle method on SignalHandler"])
    end.

(** [registerHandler(signalName, env, handler)].  [handler = None] is
    [nullptr].  Besides the result, the function gives the states the call
    passes through, one after each JNI call or container update, the last
    of which is the state it returns in.  [None]: the call hands
    [DeleteGlobalRef] a reference that is not live. *)
Definition registerHandler (signalName : string)
    (handler : option JavaObject) (alloc_ok : bool) (s : State)
  : option (bool * list State * list LogLine) :=
  match handler with
  | None =>
      Some (false, [], [Log Err "[CPP] ERROR: Cannot register null handler"])
  | Some obj =>
      let sigName := toStdString signalName in
      let it := m_handlers (fwd s) !! sigName in
      s1 ← match it with
           | Some old =>
               vm1 ← DeleteGlobalRef old (vm s);
               Some (St (fwd s) vm1 (made_for s))
           | None => Some s
           end;
      let out := [Log Out ("[CPP] Registering signal handler: " +:+ sigName)] ++
                 match it with
                 | Some _ =>
                     [Log Out ("[CPP] Replacing existing handler for: " +:+ sigName)]
                 | None => []
                 end in
      let r := NewGlobalRef alloc_ok obj (vm s1) in
      match r.1 with
      | None =>
          Some (false, [s1],
                out ++ [Log Err "[CPP] ERROR: Failed to create GlobalRef for handler"])
      | Some globalHandler =>
          let s2 := St (fwd s1) r.2
                       (<[globalHandler := (sigName, obj)]> (made_for s1)) in
          let s3 := St {| m_handlers := <[sigName := globalHandler]> (m_handlers (fwd s2));
                          m_handlerClass := m_handlerClass (fwd s2);
                          m_handleMethod := m_handleMethod (fwd s2) |}
                       (vm s2) (made_for s2) in
          Some (true, [s1; s2; s3],
                out ++ [Log Out ("[CPP] Handler registered successfully: " +:+ sigName)])
      end
  end.

(** [unregisterHandler(signalName, env)], with the states it passes
    through.  [None]: the entry holds a reference that is not live. *)
Definition unregisterHandler (signalName : string) (s : State)
  : option (list State * list LogLine) :=
  let sigName := toStdString signalName in
  match m_handlers (fwd s) !! sigName with
  | None =>
      Some ([], [Log Out ("[CPP] No handler registered for: " +:+ sigName)])
  | Some ref =>
      vm1 ← DeleteGlobalRef ref (vm s);
      let s1 := St (fwd s) vm1 (made_for s) in
      let s2 := St {| m_handlers := delete sigName (m_handlers (fwd s1));
                      m_handlerClass := m_handlerClass (fwd s1);
                      m_handleMethod := m_handleMethod (fwd s1) |}
                   (vm s1) (made_for s1) in
      Some ([s1; s2],
            [Log Out ("[CPP] Unregistering signal handler: " +:+ sigName);
             Log Out ("[CPP] Handler unregistered: " +:+ sigName)])
  end.

Section Runtime.
(** What the managed runtime does when [handle] is called on an object:
    [None] if it returns, [Some e] if it throws [e]. *)
Variable handler_throws : JavaObject → list string → option Throwable.
(** [QVariant::toString] on a number. *)
Variable number_toString : Z → string.

(** [QVariant::toString] *)
Definition toString (v : QVariant) : string :=
  match v with
  | VString s => s
  | VBool true => "true"
  | VBool false => "false"
  | VDouble d => number_toString d
  | _ => ""
  end.

(** [variantsToStrings(variants)] *)
Definition variantsToStrings (variants : list QVariant) : list string :=
  foldl (λ result variant, result ++ [toString variant]) [] variants.

(** The part of [callJavaHandler] that runs once the thread has an
    environment: build the [String[]] (the local references it takes are
    assumed to be available), call the handler, check for an exception.
    [None]: the call is made through a reference that is not live or with
    a null method id, which JNI leaves undefined. *)
Definition callJavaHandler_call (sigName : string) (ref : nat)
    (args : list string) (s : State) (out : list LogLine)
  : option (State * list LogLine) :=
  obj ← globals (vm s) !! ref;
  _ ← m_handleMethod (fwd s);
  let vm1 := CallVoidMethod obj args (handler_throws obj args) (vm s) in
  let out1 := out ++ [Log Out ("[CPP] Calling Java handler for: " +:+ sigName)] in
  if ExceptionCheck vm1 then
    Some (St (fwd s) (ExceptionClear vm1) (made_for s),
          out1 ++ [Log Err "[CPP] ERROR: Exception occurred in Java handler!"])
  else
    Some (St (fwd s) vm1 (made_for s),
          out1 ++ [Log Out "[CPP] Java handler completed successfully"]).

(** [callJavaHandler(signalName, args)] *)
Definition callJavaHandler (signalName : string) (args : list string)
    (s : State) : option (State * list LogLine) :=
  let sigName := toStdString signalName in
  match m_handlers (fwd s) !! sigName with
  | None =>
      Some (s, [Log Out ("[CPP] No handler registered for signal: " +:+ sigName)])
  | Some ref =>
      match env (vm s) with
      | JNI_EDETACHED =>
          let out := [Log Out "[CPP] Attaching thread to JVM..."] in
          if attachable (vm s) then
            callJavaHandler_call sigName ref args
              (St (fwd s) (attached (vm s)) (made_for s)) out
          else
            Some (s, out ++ [Log Err "[CPP] ERROR: Failed to attach thread to JVM"])
      | JNI_OK => callJavaHandler_call sigName ref args s []
      | _ => Some (s, [Log Err "[CPP] ERROR: Failed to get JNIEnv"])
      end
  end.

(** [emitSignal(signalName, args)] *)
Definition emitSignal (signalName : string) (args : list QVariant)
    (s : State) : option (State * list LogLine) :=
  let stringArgs := variantsToStrings args in
  r ← callJavaHandler signalName stringArgs s;
  Some (r.1,
        Log Out ("[CPP] Signal emitted: " +:+ toStdString signalName +:+
                 " with " +:+ pretty (length args) +:+ " arguments") :: r.2).
End Runtime.

(** *** Sequences of calls on one forwarder *)

Inductive call :=
| Register (signalName : string) (handler : option JavaObject) (alloc_ok : bool)
| Unregister (signalName : string).

(** The states a call passes through; [None] when the call is undefined. *)
Definition instants_of (c : call) (s : State) : option (list State) :=
  match c with
  | Register n h ok => (λ r, r.1.2) <$> registerHandler n h ok s
  | Unregister n => fst <$> unregisterHandler n s
  end.

(** The state a call returns in. *)
Definition step (s : State) (c : call) : option State :=
  (λ l, default s (last l)) <$> instants_of c s.

(** The state a sequence of calls returns in; [None] when one of them is
    undefined. *)
Fixpoint run (cs : list call) (s : State) : option State :=
  match cs with
  | [] => Some s
  | c :: cs' => s' ← step s c; run cs' s'
  end.

(** Every state a run passes through after its first. *)
Fixpoint instants (cs : list call) (s : State) : option (list State) :=
  match cs with
  | [] => Some []
  | c :: cs' =>
      l ← instants_of c s;
      s' ← step s c;
      l' ← instants cs' s';
      Some (l ++ l')
  end.

(** *** The words of the specification *)

(** [g] is a live pinned handle for [name]: a reference [registerHandler]
    made for [name] that the virtual machine still holds. *)
Definition live_handle (s : State) (name : string) (g : nat) : Prop :=
  is_Some (globals (vm s) !! g) ∧ ∃ obj, made_for s !! g = Some (name, obj).

(** Whether a call is a register call for [name] that succeeds, and with
    which handler. *)
Definition registers (name : string) (c : call) : option JavaObject :=
  match c with
  | Register n (Some h) true => if decide (n = name) then Some h else None
  | _ => None
  end.

(** What the most recent successful register call for [name] supplied,
    after one more call: a successful register call for [name] supplies
    its handler, an unregister call for [name] leaves nothing, any other
    call changes nothing. *)
Definition registered_after (name : string) (cur : option JavaObject)
    (c : call) : option JavaObject :=
  match c with
  | Unregister n => if decide (n = name) then None else cur
  | _ => match registers name c with Some h => Some h | None => cur end
  end.

(** The handler of the most recent successful register call for [name]
    that no unregister call for [name] has followed. *)
Definition last_registered (name : string) (cs : list call)
  : option JavaObject :=
  foldl (registered_after name) None cs.

(** The states of [registerHandler] and [unregisterHandler] by name: the
    reference [ref] deleted; the old reference for [name], if any,
    deleted; a new reference made for [name] from [obj]; the reference
    [g] stored under [name]; the entry for [name] erased. *)
Definition unpinned (ref : nat) (s : State) : State :=
  St (fwd s) (released ref (vm s)) (made_for s).

Definition old_unpinned (name : string) (s : State) : State :=
  match m_handlers (fwd s) !! name with
  | Some old => unpinned old s
  | None => s
  end.

Definition pinned (name : string) (obj : JavaObject) (s1 : State) : State :=
  St (fwd s1) (NewGlobalRef true obj (vm s1)).2
     (<[next_global (vm s1) := (name, obj)]> (made_for s1)).

Definition stored (name : string) (g : nat) (s2 : State) : State :=
  St {| m_handlers := <[name := g]> (m_handlers (fwd s2));
        m_handlerClass := m_handlerClass (fwd s2);
        m_handleMethod := m_handleMethod (fwd s2) |} (vm s2) (made_for s2).

Definition erased (name : string) (s1 : State) : State :=
  St {| m_handlers := delete name (m_handlers (fwd s1));
        m_handlerClass := m_handlerClass (fwd s1);
        m_handleMethod := m_handleMethod (fwd s1) |} (vm s1) (made_for s1).

(** At most one live pinned handle for every name. *)
Definition at_most_one_live (s : State) : Prop :=
  ∀ name g1 g2, live_handle s name g1 → live_handle s name g2 → g1 = g2.

(** What holds between calls: references are handed out in increasing
    order, the table holds for each name a reference made for that name,
    and a live reference made for a name is the one the table holds for
    it and pins the handler it was made from. *)
Definition consistent (s : State) : Prop :=
  (∀ g, is_Some (globals (vm s) !! g) → (g < next_global (vm s))%nat) ∧
  (∀ g, is_Some (made_for s !! g) → (g < next_global (vm s))%nat) ∧
  (∀ name g, m_handlers (fwd s) !! name = Some g →
             ∃ obj, made_for s !! g = Some (name, obj)) ∧
  (∀ g name obj, made_for s !! g = Some (name, obj) →
                 is_Some (globals (vm s) !! g) →
                 m_handlers (fwd s) !! name = Some g ∧
                 globals (vm s) !! g = Some obj).

(** The table pins for [name] what [cur] says: it has no entry, or its
    entry is a live reference, made for [name], that pins the handler
    [h]. *)
Definition pins (name : string) (s : State) (cur : option JavaObject) : Prop :=
  match cur with
  | None => m_handlers (fwd s) !! name = None
  | Some h => ∃ g, m_handlers (fwd s) !! name = Some g ∧
                   globals (vm s) !! g = Some h ∧
                   made_for s !! g = Some (name, h)
  end.

(** Every reference the table holds is live. *)
Definition all_pinned (s : State) : Prop :=
  ∀ name g, m_handlers (fwd s) !! name = Some g →
            is_Some (globals (vm s) !! g).

(** A call in which the virtual machine does not run out of memory. *)
Definition allocates (c : call) : bool :=
  match c with
  | Register _ (Some _) false => false
  | _ => true
  end.

(** A forwarder that has not registered anything yet, on a virtual machine
    whose live references are all below [next_global]. *)
Definition fresh (s : State) : Prop :=
  m_handlers (fwd s) = ∅ ∧ made_for s = ∅ ∧
  map_Forall (λ g _, (g < next_global (vm s))%nat) (globals (vm s)).

End Forwarder.

(** ** [QQmlApplicationEngine], as far as the bridge uses it *)

Module Engine.

(** [rootObjects]: the root objects, by identity, in creation order.
    [deferred]: the objects [deleteLater] has been called on; they stay in
    [rootObjects] until the event loop gets to delete them.
    [componentCache]: the URLs whose compiled form is cached.
    [contextProperties]: the root context's properties, each the address
    of the object it exposes. *)
Record QQmlApplicationEngine := Eng {
  rootObjects : list nat;
  deferred : list nat;
  componentCache : list string;
  contextProperties : gmap string nat;
  next_object : nat
}.

Definition create : QQmlApplicationEngine :=
  {| rootObjects := []; deferred := []; componentCache := [];
     contextProperties := ∅; next_object := 0%nat |}.

(** [obj->deleteLater()] *)
Definition deleteLater (obj : nat) (e : QQmlApplicationEngine)
  : QQmlApplicationEngine :=
  {| rootObjects := rootObjects e; deferred := deferred e ++ [obj];
     componentCache := componentCache e;
     contextProperties := contextProperties e;
     next_object := next_object e |}.

(** [clearComponentCache()] *)
Definition clearComponentCache (e : QQmlApplicationEngine)
  : QQmlApplicationEngine :=
  {| rootObjects := rootObjects e; deferred := deferred e;
     componentCache := [];
     contextProperties := contextProperties e;
     next_object := next_object e |}.

(** [load(url)]: when the document loads ([ok]) its root object is added
    to [rootObjects]; when it does not, nothing is added. *)
Definition load (ok : bool) (url : string) (e : QQmlApplicationEngine)
  : QQmlApplicationEngine :=
  if ok then
    {| rootObjects := rootObjects e ++ [next_object e];
       deferred := deferred e;
       componentCache := componentCache e ++ [url];
       contextProperties := contextProperties e;
       next_object := S (next_object e) |}
  else e.

(** [rootContext()->setContextProperty(name, obj)] *)
Definition setContextProperty (name : string) (obj : nat)
    (e : QQmlApplicationEngine) : QQmlApplicationEngine :=
  {| rootObjects := rootObjects e; deferred := deferred e;
     componentCache := componentCache e;
     contextProperties := <[name := obj]> (contextProperties e);
     next_object := next_object e |}.

(** Back in the event loop: the deferred deletions are carried out. *)
Definition processDeferredDeletes (e : QQmlApplicationEngine)
  : QQmlApplicationEngine :=
  {| rootObjects := filter (λ o, o ∉ deferred e) (rootObjects e);
     deferred := [];
     componentCache := componentCache e;
     contextProperties := contextProperties e;
     next_object := next_object e |}.

End Engine.

(** ** [QmlWatcher] (qmlwatcher.h, qmlwatcher.cpp) *)

Module Watcher.
Import Qt Engine.

(** [m_watcher] is the list of paths of the [QFileSystemWatcher]. *)
Record QmlWatcher := Watch {
  m_engine : option QQmlApplicationEngine;
  m_watcher : list string;
  m_autoReload : bool;
  m_currentQmlPath : string;
  m_savedProperties : gmap string QVariant
}.

(** The constructor: [m_autoReload(true)]. *)
Definition new (engine : option QQmlApplicationEngine) : QmlWatcher :=
  {| m_engine := engine; m_watcher := []; m_autoReload := true;
     m_currentQmlPath := ""; m_savedProperties := ∅ |}.

(** [isAutoReloadEnabled()] *)
Definition isAutoReloadEnabled (w : QmlWatcher) : bool := m_autoReload w.

(** [setAutoReload(enabled)] *)
Definition setAutoReload (enabled : bool) (w : QmlWatcher)
  : QmlWatcher * list LogLine :=
  ({| m_engine := m_engine w; m_watcher := m_watcher w;
      m_autoReload := enabled;
      m_currentQmlPath := m_currentQmlPath w;
      m_savedProperties := m_savedProperties w |},
   [Log Debug ("[CPP] QmlWatcher: Auto-reload " +:+
               (if enabled then "enabled" else "disabled"))]).

(** The timers [QTimer::singleShot] has started and that have not fired:
    due time in milliseconds and the path the lambda captured, oldest
    first. *)
Record Loop := EventLoop {
  watcher : QmlWatcher;
  timers : list (Z * string);
  console : list LogLine
}.

Section Files.
(** The file system: whether a path names a file at a given time, and
    whether the QML document there loads. *)
Variable fileExists : Z → string → bool.
Variable qmlLoads : Z → string → bool.

(** [QFileSystemWatcher::addPath]: refuses a path that is watched
    already or that does not exist. *)
Definition addPath (now : Z) (path : string) (files : list string)
  : bool * list string :=
  if bool_decide (path ∈ files) || negb (fileExists now path)
  then (false, files)
  else (true, files ++ [path]).

(** [QFileSystemWatcher::removePath] *)
Definition removePath (path : string) (files : list string) : list string :=
  filter (λ p, p ≠ path) files.

(** [watchFile(filePath)] *)
Definition watchFile (now : Z) (filePath : string) (w : QmlWatcher)
  : QmlWatcher * list LogLine :=
  let out := [Log Debug ("[CPP] QmlWatcher: Starting to watch " +:+ filePath)] in
  if bool_decide (filePath ∈ m_watcher w) then
    (w, out ++ [Log Debug ("[CPP] QmlWatcher: Already watching " +:+ filePath)])
  else
    let r := addPath now filePath (m_watcher w) in
    if negb r.1 then
      (w, out ++ [Log Warning ("[CPP] QmlWatcher: Failed to watch " +:+ filePath)])
    else
      ({| m_engine := m_engine w; m_watcher := r.2;
          m_autoReload := m_autoReload w;
          m_currentQmlPath := filePath;
          m_savedProperties := m_savedProperties w |},
       out ++ [Log Debug ("[CPP] QmlWatcher: Now watching " +:+ filePath)]).

(** [unwatchFile(filePath)] *)
Definition unwatchFile (filePath : string) (w : QmlWatcher)
  : QmlWatcher * list LogLine :=
  ({| m_engine := m_engine w; m_watcher := removePath filePath (m_watcher w);
      m_autoReload := m_autoReload w;
      m_currentQmlPath := m_currentQmlPath w;
      m_savedProperties := m_savedProperties w |},
   [Log Debug ("[CPP] QmlWatcher: Stopping watch on " +:+ filePath)]).

(** [onFileChanged(path)], delivered at time [now]. *)
Definition onFileChanged (now : Z) (path : string) (l : Loop) : Loop :=
  let w := watcher l in
  let out := console l ++ [Log Debug ("[CPP] QmlWatcher: File changed: " +:+ path)] in
  if negb (m_autoReload w) then
    {| watcher := w; timers := timers l;
       console := out ++
         [Log Debug "[CPP] QmlWatcher: Auto-reload disabled, ignoring change"] |}
  else
    let rearm := negb (bool_decide (path ∈ m_watcher w)) in
    let files := if rearm then (addPath now path (m_watcher w)).2
                 else m_watcher w in
    {| watcher := {| m_engine := m_engine w; m_watcher := files;
                     m_autoReload := m_autoReload w;
                     m_currentQmlPath := m_currentQmlPath w;
                     m_savedProperties := m_savedProperties w |};
       timers := timers l ++ [(now + 100, path)];
       console := out ++
         if rearm
         then [Log Debug ("[CPP] QmlWatcher: Re-adding watch for " +:+ path)]
         else [] |}.

(** [saveContextProperties()] and [restoreContextProperties()] only
    print. *)
Definition saveContextProperties : list LogLine :=
  [Log Debug "[CPP] QmlWatcher: Context properties preserved (Qt handles this)"].
Definition restoreContextProperties : list LogLine :=
  [Log Debug "[CPP] QmlWatcher: Context properties restored automatically"].

Definition banner (title : string) : list LogLine :=
  [Log Debug "[CPP] QmlWatcher: ========================================";
   Log Debug title;
   Log Debug "[CPP] QmlWatcher: ========================================"].

(** [reloadQml(path)], run at time [now]. *)
Definition reloadQml (now : Z) (path : string) (w : QmlWatcher)
  : QmlWatcher * list LogLine :=
  match m_engine w with
  | None => (w, [Log Warning "[CPP] QmlWatcher: No engine available for reload"])
  | Some e =>
      let out1 := banner "[CPP] QmlWatcher: RELOADING QML" ++
                  [Log Debug "[CPP] QmlWatcher: [1/5] Saving context properties..."] ++
                  saveContextProperties ++
                  [Log Debug "[CPP] QmlWatcher: [2/5] Closing old windows..."] in
      let oldRoots := rootObjects e in
      let e2 := foldl (λ e obj, deleteLater obj e) e oldRoots in
      let out2 := (λ _, Log Debug "[CPP] QmlWatcher: Deleting old root object:")
                    <$> oldRoots in
      let e3 := clearComponentCache e2 in
      let e4 := load (qmlLoads now path) path e3 in
      let out4 := [Log Debug "[CPP] QmlWatcher: [3/5] Clearing component cache...";
                   Log Debug ("[CPP] QmlWatcher: [4/5] Reloading QML from: " +:+ path)] in
      let w' := {| m_engine := Some e4; m_watcher := m_watcher w;
                   m_autoReload := m_autoReload w;
                   m_currentQmlPath := m_currentQmlPath w;
                   m_savedProperties := m_savedProperties w |} in
      if bool_decide (rootObjects e4 = []) then
        (w', out1 ++ out2 ++ out4 ++
             [Log Warning "[CPP] QmlWatcher: Failed to reload QML!";
              Log Warning "[CPP] QmlWatcher: Check QML file for syntax errors"])
      else
        (w', out1 ++ out2 ++ out4 ++
             [Log Debug "[CPP] QmlWatcher: [5/5] Context properties restored"] ++
             restoreContextProperties ++
             banner "[CPP] QmlWatcher: RELOAD COMPLETE")
  end.

(** A timer fires at time [now]: its lambda calls [reloadQml(path)];
    once the lambda has returned the event loop carries out the deferred
    deletions. *)
Definition fire (now : Z) (l : Loop) (t : Z * string) : Loop :=
  let r := reloadQml now t.2 (watcher l) in
  {| watcher := {| m_engine := processDeferredDeletes <$> m_engine r.1;
                   m_watcher := m_watcher r.1;
                   m_autoReload := m_autoReload r.1;
                   m_currentQmlPath := m_currentQmlPath r.1;
                   m_savedProperties := m_savedProperties r.1 |};
     timers := timers l;
     console := console l ++ r.2 |}.

(** The event loop at time [now]: every timer that is due fires, oldest
    first; the others stay. *)
Definition processEvents (now : Z) (l : Loop) : Loop :=
  foldl (fire now)
    {| watcher := watcher l;
       timers := filter (λ t, ¬ t.1 ≤ now) (timers l);
       console := console l |}
    (filter (λ t, t.1 ≤ now) (timers l)).

(** Change notifications for [path] delivered at the given times. *)
Definition notifications (path : string) (times : list Z) (l : Loop) : Loop :=
  foldl (λ l t, onFileChanged t path l) l times.
End Files.

(** *** The words of the specification *)

(** The number of reloads a console shows: [reloadQml] prints this line
    once per reload, and nothing else prints it. *)
Definition reloads (out : list LogLine) : nat :=
  length (filter (λ ln, text ln = "[CPP] QmlWatcher: RELOADING QML") out).

(** The console shows a failed reload. *)
Definition logs_failure (out : list LogLine) : Prop :=
  Log Warning "[CPP] QmlWatcher: Failed to reload QML!" ∈ out.

(** The console shows a completed reload. *)
Definition logs_complete (out : list LogLine) : Prop :=
  Log Debug "[CPP] QmlWatcher: RELOAD COMPLETE" ∈ out.

End Watcher.

(** ** The JNI entry points for list models (qmlbridge.cpp) *)

Module Bridge.
Import Qt Engine ListModel.

(** The globals of qmlbridge.cpp that the model entry points use.
    [g_models] maps a name to the address of its model; [heap] holds the
    models [new JvmListModel] has allocated. *)
Record Globals := Glob {
  g_engine : option QQmlApplicationEngine;
  g_models : gmap string nat;
  heap : gmap nat JvmListModel;
  next_address : nat
}.

(** [jstringToStdString]: a null [jstring] gives the empty string. *)
Definition jstringToStdString (jstr : option string) : string :=
  match jstr with None => "" | Some s => s end.

(** [Java_qml_Bridge_createModel] *)
Definition createModel (modelName : option string) (g : Globals)
  : Globals * list LogLine :=
  let name := jstringToStdString modelName in
  let out := [Log Out ("[CPP] Creating list model: " +:+ name)] in
  match g_engine g with
  | None => (g, out ++ [Log Err "[CPP] ERROR: Qt not initialized!"])
  | Some e =>
      if bool_decide (is_Some (g_models g !! name)) then
        (g, out ++ [Log Out ("[CPP] Model already exists: " +:+ name)])
      else
        let model := next_address g in
        ({| g_engine := Some (setContextProperty name model e);
            g_models := <[name := model]> (g_models g);
            heap := <[model := ListModel.create]> (heap g);
            next_address := S model |},
         out ++ [Log Debug "[CPP] JvmListModel created";
                 Log Out ("[CPP] Model created and registered: " +:+ name)])
  end.

(** [g_models.value(name, nullptr)] and the object behind it. *)
Definition find_model (name : string) (g : Globals)
  : option (nat * JvmListModel) :=
  model ← g_models g !! name;
  m ← heap g !! model;
  Some (model, m).

(** [Java_qml_Bridge_setModelData], from the parsed document on. *)
Definition setModelData (modelName : option string) (doc : QJsonDocument)
    (g : Globals) : Globals * list LogLine :=
  let name := jstringToStdString modelName in
  let out := [Log Out ("[CPP] Setting model data: " +:+ name)] in
  match find_model name g with
  | None => (g, out ++ [Log Err ("[CPP] ERROR: Model not found: " +:+ name)])
  | Some (model, m) =>
      let r := setJsonData doc m in
      ({| g_engine := g_engine g; g_models := g_models g;
          heap := <[model := r.1]> (heap g);
          next_address := next_address g |},
       out ++ r.2)
  end.

(** [Java_qml_Bridge_clearModel] *)
Definition clearModel (modelName : option string) (g : Globals)
  : Globals * list LogLine :=
  let name := jstringToStdString modelName in
  let out := [Log Out ("[CPP] Clearing model: " +:+ name)] in
  match find_model name g with
  | None => (g, out ++ [Log Err ("[CPP] ERROR: Model not found: " +:+ name)])
  | Some (model, m) =>
      let r := clear m in
      ({| g_engine := g_engine g; g_models := g_models g;
          heap := <[model := r.1]> (heap g);
          next_address := next_address g |},
       out ++ r.2)
  end.

(** [Java_qml_Bridge_getModelCount] *)
Definition getModelCount (modelName : option string) (g : Globals)
  : Z * list LogLine :=
  let name := jstringToStdString modelName in
  match find_model name g with
  | None => (0, [Log Err ("[CPP] ERROR: Model not found: " +:+ name)])
  | Some (_, m) => (count m, [])
  end.

End Bridge.

(** ** Concrete runs, used as examples below *)

Module Scenarios.
Import Qt.

(** [[{"name":"x"},{"name":"y","age":3}]] *)
Definition people : QJsonDocument :=
  DocArray [JObject {["name" := JString "x"]};
            JObject (<["name" := JString "y"]> {["age" := JDouble 3]})].

(** [[{"city":"z"}, null, {"name":"w"}]] *)
Definition cities : QJsonDocument :=
  DocArray [JObject {["city" := JString "z"]}; JNull;
            JObject {["name" := JString "w"]}].

(** The text [[{"name":"y","age":3}]], which writes "name" before "age". *)
Definition one_person : ListModel.Written :=
  [[("name", JString "y"); ("age", JDouble 3)]].

(** Two one-character names: U+FB01 (bytes EF AC 81, one code unit FB01)
    and U+1F600 (bytes F0 9F 98 80, code units D83D DE00). *)
Definition ligature : string := of_bytes [239; 172; 129]%N.
Definition emoji : string := of_bytes [240; 159; 152; 128]%N.

(** [[{"":1}]]: one record whose only field has the empty name. *)
Definition unnamed : QJsonDocument := DocArray [JObject {["" := JDouble 1]}].

(** Two payloads with a [clear()] between them, then text that is not a
    JSON array. *)
Definition session : list ListModel.call :=
  [ListModel.SetData people; ListModel.Clear; ListModel.SetData cities;
   ListModel.SetData DocNull].

(** A forwarder whose constructor found the handler class (object 7) and
    its method, on a thread that has an environment. *)
Definition forwarder : Forwarder.State :=
  (Forwarder.new (Jni.boot Jni.JNI_OK true) (Some 7%nat) true).1.

(** Handlers are registered, replaced (once with the virtual machine out
    of memory) and unregistered. *)
Definition registrations : list Forwarder.call :=
  [Forwarder.Register "clicked" (Some 1%nat) true;
   Forwarder.Register "clicked" (Some 2%nat) true;
   Forwarder.Register "moved" (Some 3%nat) true;
   Forwarder.Register "clicked" (Some 4%nat) false;
   Forwarder.Unregister "moved"].

(** The state a run of calls returns in (the runs used below are all
    defined). *)
Definition after (cs : list Forwarder.call) (s : Forwarder.State)
  : Forwarder.State := default s (Forwarder.run cs s).

(** A handler that always throws, and one that never does. *)
Definition throwing (_ : Jni.JavaObject) (_ : list string)
  : option Jni.Throwable := Some "java.lang.IllegalStateException".
Definition quiet (_ : Jni.JavaObject) (_ : list string)
  : option Jni.Throwable := None.

Definition number_text (_ : Z) : string := "0".

(** A file system where every path exists; QML documents that load, and
    QML documents that do not. *)
Definition present (_ : Z) (_ : string) : bool := true.
Definition loads (_ : Z) (_ : string) : bool := true.
Definition broken (_ : Z) (_ : string) : bool := false.

(** An event loop with a watcher on an engine that has loaded Main.qml. *)
Definition running : Watcher.Loop :=
  Watcher.EventLoop
    (Watcher.watchFile present 0 "Main.qml"
       (Watcher.new (Some (Engine.load true "Main.qml" Engine.create)))).1
    [] [].

(** A watcher on an engine that has no root object. *)
Definition idle : Watcher.QmlWatcher := Watcher.new (Some Engine.create).

(** The bridge after [initialize], and after one [createModel("people")]. *)
Definition initialized : Bridge.Globals :=
  {| Bridge.g_engine := Some Engine.create; Bridge.g_models := ∅;
     Bridge.heap := ∅; Bridge.next_address := 0%nat |}.

Definition with_people : Bridge.Globals :=
  (Bridge.createModel (Some "people") initialized).1.

End Scenarios.

(** ** [SignalForwarder::~SignalForwarder] and more words about the forwarder *)

Module ForwarderEnd.
Import Qt Jni Forwarder.

(** The destructor, walking [m_handlers] in the order [visit] (a
    [std::unordered_map] is walked in the order of its hash table).
    Without an environment for the thread nothing is released.  Otherwise
    every reference in [m_handlers] is deleted, the map is emptied, and
    the class reference is deleted.  [None]: one of the references handed
    to [DeleteGlobalRef] is not live. *)
Definition destroy_visiting (visit : list (string * nat)) (s : State)
  : option (State * list LogLine) :=
  let called := Log Out "[CPP] SignalForwarder destructor called" in
  if negb (bool_decide (env (vm s) = JNI_OK)) then
    Some (s, [called;
              Log Err "[CPP] WARNING: Could not get JNIEnv in destructor for cleanup"])
  else
    vm1 ← foldl (λ jvm pair, jvm ≫= DeleteGlobalRef pair.2) (Some (vm s)) visit;
    vm2 ← match m_handlerClass (fwd s) with
          | Some c => DeleteGlobalRef c vm1
          | None => Some vm1
          end;
    Some (St {| m_handlers := ∅;
                m_handlerClass := m_handlerClass (fwd s);
                m_handleMethod := m_handleMethod (fwd s) |} vm2 (made_for s),
          [called; Log Out "[CPP] SignalForwarder cleanup complete"]).

(** The destructor.  The order of the walk does not show in the result,
    so the entries are taken in the order [map_to_list] gives them. *)
Definition destroy (s : State) : option (State * list LogLine) :=
  destroy_visiting (map_to_list (m_handlers (fwd s))) s.

(** The class reference, if the forwarder has one, is live and is none of
    the references made for a handler. *)
Definition class_pinned (s : State) : Prop :=
  ∀ c, m_handlerClass (fwd s) = Some c →
       is_Some (globals (vm s) !! c) ∧ made_for s !! c = None.

(** The thread can get an environment: it has one, or it can attach. *)
Definition can_call (jvm : JavaVM) : Prop :=
  env jvm = JNI_OK ∨ (env jvm = JNI_EDETACHED ∧ attachable jvm = true).

End ForwarderEnd.

(** ** Sequences of calls on the model registry (qmlbridge.cpp) *)

Module Registry.
Import Qt Engine ListModel Bridge.

Inductive call :=
| CreateModel (modelName : option string)
| SetModelData (modelName : option string) (doc : QJsonDocument)
| ClearModel (modelName : option string).

(** The model name a call is about. *)
Definition target (c : call) : string :=
  match c with
  | CreateModel n | SetModelData n _ | ClearModel n => jstringToStdString n
  end.

Definition step (g : Globals) (c : call) : Globals :=
  match c with
  | CreateModel n => (createModel n g).1
  | SetModelData n doc => (setModelData n doc g).1
  | ClearModel n => (clearModel n g).1
  end.

Definition run (cs : list call) (g : Globals) : Globals := foldl step g cs.

(** The globals once [initialize] has made the engine [e]: no model yet. *)
Definition initialized (e : QQmlApplicationEngine) : Globals :=
  {| g_engine := Some e; g_models := ∅; heap := ∅; next_address := 0%nat |}.

(** What holds of the registry between calls: every registered address is
    allocated and below [next_address], and no two names share one. *)
Definition well_formed (g : Globals) : Prop :=
  (∀ name a, g_models g !! name = Some a →
             (a < next_address g)%nat ∧ is_Some (heap g !! a)) ∧
  (∀ n1 n2 a, g_models g !! n1 = Some a → g_models g !! n2 = Some a → n1 = n2).

End Registry.

(** ** More words about the watcher *)

Module WatcherMore.
Import Engine Watcher.

(** [setAutoReload(enabled)] called between two turns of the event loop. *)
Definition withAutoReload (enabled : bool) (l : Loop) : Loop :=
  {| watcher := (setAutoReload enabled (watcher l)).1;
     timers := timers l;
     console := console l ++ (setAutoReload enabled (watcher l)).2 |}.

(** Every object the engine knows is older than the next one it makes. *)
Definition ids_in_use (e : QQmlApplicationEngine) : Prop :=
  Forall (λ o, (o < next_object e)%nat) (rootObjects e) ∧
  Forall (λ o, (o < next_object e)%nat) (deferred e).

End WatcherMore.

(** ** More concrete runs *)

Module MoreScenarios.
Import Qt Scenarios.

(** The records of [[{"name":"x"},{"name":"y","age":3}]]. *)
Definition people_records : list QJsonValue :=
  [JObject {["name" := JString "x"]};
   JObject (<["name" := JString "y"]> {["age" := JDouble 3]})].

(** [[null, "x", 3]]: an array without an object in it. *)
Definition no_records : list QJsonValue := [JNull; JString "x"; JDouble 3].

(** A forwarder made on a thread that has no environment. *)
Definition detached_forwarder : Forwarder.State :=
  (Forwarder.new (Jni.boot Jni.JNI_EDETACHED false) (Some 7%nat) true).1.

(** An engine with two root objects, one of them already scheduled for
    deletion. *)
Definition two_roots : Engine.QQmlApplicationEngine :=
  Engine.deleteLater 0%nat
    (Engine.load true "Other.qml" (Engine.load true "Main.qml" Engine.create)).

(** An event loop whose watcher is on that engine. *)
Definition reloading : Watcher.Loop :=
  Watcher.EventLoop (Watcher.new (Some two_roots)) [] [].

Definition two_models : list Registry.call :=
  [Registry.CreateModel (Some "people");
   Registry.CreateModel (Some "cities");
   Registry.SetModelData (Some "people") people].

End MoreScenarios.

(** * Properties *)

Section KeyOrder.
Import Qt.

Lemma units_leb_total a : ∀ b, units_leb a b = true ∨ units_leb b a = true.
Proof.
  induction a as [|u a IH]; intros [|v b]; cbn; auto.
  destruct (N.ltb_spec u v), (N.ltb_spec v u); auto; lia.
Qed.

Lemma units_leb_trans a : ∀ b c,
  units_leb a b = true → units_leb b c = true → units_leb a c = true.
Proof.
  induction a as [|u a IH]; intros [|v b] [|w c]; cbn; try done.
  destruct (N.ltb_spec u v), (N.ltb_spec v u), (N.ltb_spec v w),
    (N.ltb_spec w v), (N.ltb_spec u w), (N.ltb_spec w u);
    try done; try lia; apply IH.
Qed.

Lemma units_leb_comes_before a : ∀ b,
  units_leb a b = true ↔ a = b ∨ ListModel.comes_before a b.
Proof.
  induction a as [|u a IH]; intros [|v b]; cbn.
  - split; auto.
  - split; [intros _; right; constructor|done].
  - split; [done|]. intros [?|H]; [done|inversion H].
  - destruct (N.ltb_spec u v) as [Huv|Huv].
    + split; [intros _; right; by constructor|done].
    + destruct (N.ltb_spec v u) as [Hvu|Hvu].
      * split; [done|]. intros [[= ? ?]|H]; [lia|].
        inversion H; subst; lia.
      * assert (u = v) as -> by lia. rewrite IH. split.
        -- intros [->|H]; [by left|right; by constructor].
        -- intros [[= ->]|H]; [by left|].
           inversion H; subst; [lia|by right].
Qed.

Lemma key_le_trans : Transitive key_le.
Proof.
  intros a b c. unfold key_le. rewrite !Is_true_true. apply units_leb_trans.
Qed.
End KeyOrder.

Section Iteration.
Import Qt.
Context {V : Type}.
Implicit Types m : gmap string V.

Lemma keys_Permutation m : keys m ≡ₚ elements (dom m).
Proof. apply merge_sort_Permutation. Qed.

Lemma elem_of_keys m k : k ∈ keys m ↔ is_Some (m !! k).
Proof. rewrite keys_Permutation, elem_of_elements. apply elem_of_dom. Qed.

Lemma NoDup_keys m : NoDup (keys m).
Proof. rewrite keys_Permutation. apply NoDup_elements. Qed.

Lemma keys_Sorted m : Sorted key_le (keys m).
Proof.
  apply Sorted_merge_sort. intros a b. unfold key_le.
  destruct (units_leb_total (code_units a) (code_units b)) as [H|H];
    rewrite H; auto.
Qed.

Lemma keys_ascending m : ListModel.ascending (keys m).
Proof.
  pose proof (@Sorted_StronglySorted _ key_le key_le_trans (keys m) (keys_Sorted m))
    as Hs.
  unfold ListModel.ascending.
  induction Hs as [|k l _ IH Hk]; intros i j a b Hi Hj Hlt.
  - by rewrite lookup_nil in Hi.
  - destruct j as [|j]; [lia|]. cbn in Hj. destruct i as [|i].
    + cbn in Hi. simplify_eq. rewrite Forall_forall in Hk.
      apply units_leb_comes_before, Is_true_true, Hk.
      by eapply list_elem_of_lookup_2.
    + cbn in Hi. apply (IH i j); [done..|lia].
Qed.

Lemma iter_fst m : (iter m).*1 = keys m.
Proof.
  unfold iter.
  assert (H : ∀ k, k ∈ keys m → is_Some (m !! k)) by (intros k; apply elem_of_keys).
  induction (keys m) as [|k l IH]; [done|].
  destruct (H k) as [v Hv]; [left|].
  cbn. rewrite Hv. cbn. f_equal. apply IH. intros k' ?. apply H. by right.
Qed.

Lemma elem_of_iter m k v : (k, v) ∈ iter m ↔ m !! k = Some v.
Proof.
  unfold iter. rewrite list_elem_of_omap. split.
  - intros (k' & _ & Hk). destruct (m !! k') as [v'|] eqn:E; [|done].
    cbn in Hk. by simplify_eq.
  - intros Hk. exists k. split; [apply elem_of_keys; eauto|]. by rewrite Hk.
Qed.

Lemma list_to_map_iter m : list_to_map (iter m) = m.
Proof.
  apply map_eq. intros k. apply option_eq. intros v.
  rewrite <- elem_of_list_to_map; [apply elem_of_iter|].
  rewrite iter_fst. apply NoDup_keys.
Qed.
End Iteration.

Lemma keys_fmap {A B} (f : A → B) (m : gmap string A) : Qt.keys (f <$> m) = Qt.keys m.
Proof. unfold Qt.keys. by rewrite dom_fmap_L. Qed.

Lemma foldl_insert_list_to_map {A B} (f : A → B) (l : list (string * A)) :
  NoDup l.*1 →
  foldl (λ item kv, <[kv.1 := f kv.2]> item) (∅ : gmap string B) l
  = f <$> (list_to_map l : gmap string A).
Proof.
  induction l as [|[k v] l IH] using rev_ind; intros Hnd.
  - cbn. by rewrite fmap_empty.
  - rewrite fmap_app in Hnd. apply NoDup_app in Hnd as (Hl & Hk & _).
    rewrite foldl_snoc. cbn. rewrite IH by done.
    rewrite list_to_map_snoc; [by rewrite fmap_insert|].
    intros Hin. apply (Hk k Hin). cbn. left.
Qed.

Lemma toItem_fmap obj : ListModel.toItem obj = Qt.toVariant <$> obj.
Proof.
  unfold ListModel.toItem. rewrite foldl_insert_list_to_map.
  - by rewrite list_to_map_iter.
  - rewrite iter_fst. apply NoDup_keys.
Qed.

Section FieldIdTable.
Import Qt ListModel.

Lemma wrap_int_id z : - 2 ^ 31 ≤ z ≤ INT_MAX → wrap_int z = z.
Proof.
  unfold wrap_int, INT_MAX. intros H.
  rewrite Z.mod_small by lia. lia.
Qed.

(** first_seen *)
Lemma first_seen_app acc l1 l2 :
  first_seen acc (l1 ++ l2) = first_seen (first_seen acc l1) l2.
Proof. apply foldl_app. Qed.

Lemma first_seen_cons acc k l :
  first_seen acc (k :: l) =
  first_seen (if decide (k ∈ acc) then acc else acc ++ [k]) l.
Proof. done. Qed.

Lemma first_seen_prefix acc l : acc `prefix_of` first_seen acc l.
Proof.
  revert acc. induction l as [|k l IH]; intros acc; [done|].
  rewrite first_seen_cons. case_decide; [apply IH|].
  etrans; [|apply IH]. by apply prefix_app_r.
Qed.

Lemma first_seen_length acc l : (length acc ≤ length (first_seen acc l))%nat.
Proof. apply prefix_length, first_seen_prefix. Qed.

Lemma first_seen_NoDup acc l : NoDup acc → NoDup (first_seen acc l).
Proof.
  revert acc. induction l as [|k l IH]; intros acc Hnd; [done|].
  rewrite first_seen_cons. apply IH. case_decide; [done|].
  apply NoDup_app. split_and!; [done| |apply NoDup_singleton].
  intros x Hx ->%list_elem_of_singleton. done.
Qed.

Lemma elem_of_first_seen acc l k : k ∈ first_seen acc l ↔ k ∈ acc ∨ k ∈ l.
Proof.
  revert acc. induction l as [|x l IH]; intros acc.
  - cbn. rewrite elem_of_nil. tauto.
  - rewrite first_seen_cons, IH, elem_of_cons. case_decide.
    + split; [tauto|]. intros [?|[->|?]]; tauto.
    + rewrite elem_of_app, list_elem_of_singleton. tauto.
Qed.

Lemma FieldId_inj i j : FieldId i = FieldId j → i = j.
Proof. unfold FieldId. lia. Qed.

Lemma table_is_known names m k :
  table_is names m → (is_Some (m_roleIds m !! k) ↔ k ∈ names).
Proof.
  intros (_ & Hids & _). rewrite list_elem_of_lookup. split.
  - intros [id Hid]. apply Hids in Hid as (i & ? & _). eauto.
  - intros [i Hi]. exists (FieldId i). apply Hids. eauto.
Qed.

Lemma updateRoleNames_key_table names st k :
  table_is names st.1 →
  FieldId (length (first_seen names [k])) ≤ INT_MAX →
  table_is (first_seen names [k]) (updateRoleNames_key st k).1.
Proof.
  intros Ht Hb. pose proof (table_is_known _ _ k Ht) as Hk.
  unfold updateRoleNames_key, toUtf8. cbn in *.
  destruct (m_roleIds st.1 !! k) as [id|] eqn:E.
  - rewrite decide_True by (apply Hk; eauto). done.
  - assert (k ∉ names) as Hnk by (rewrite <- Hk; by intros [? ?]).
    rewrite decide_False in * by done.
    destruct Ht as (Hnext & Hids & Hnames). rewrite length_app in *. cbn in *.
    split_and!; cbn.
    + rewrite Hnext, length_app. cbn [length].
      rewrite wrap_int_id; unfold FieldId, UserRole, INT_MAX in *; lia.
    + intros name id. rewrite Hnext. destruct (decide (k = name)) as [<-|Hne].
      * rewrite lookup_insert_eq. split.
        -- intros [= <-]. exists (length names). split; [|done].
           rewrite lookup_app_r by lia. by rewrite Nat.sub_diag.
        -- intros (i & Hi & ->). f_equal. f_equal.
           apply lookup_app_Some in Hi as [Hi|[? Hi]].
           ++ exfalso. apply Hnk. eapply list_elem_of_lookup_2, Hi.
           ++ apply list_lookup_singleton_Some in Hi as [? _]. lia.
      * rewrite lookup_insert_ne by done. rewrite Hids. split.
        -- intros (i & Hi & ->). exists i. split; [|done].
           by apply lookup_app_l_Some.
        -- intros (i & Hi & ->). exists i. split; [|done].
           apply lookup_app_Some in Hi as [Hi|[? Hi]]; [done|].
           apply list_lookup_singleton_Some in Hi as [? ?]. congruence.
    + intros id name. rewrite Hnext.
      destruct (decide (FieldId (length names) = id)) as [<-|Hne].
      * rewrite lookup_insert_eq. destruct (decide (k = name)) as [<-|Hne'].
        -- by rewrite lookup_insert_eq.
        -- rewrite lookup_insert_ne by done. split; [congruence|].
           intros (i & Hi & Heq)%Hids. apply FieldId_inj in Heq as <-.
           apply lookup_lt_Some in Hi. lia.
      * rewrite lookup_insert_ne by done. rewrite Hnames.
        destruct (decide (k = name)) as [<-|Hne'].
        -- rewrite lookup_insert_eq, E. split; congruence.
        -- by rewrite lookup_insert_ne.
Qed.

Lemma foldl_updateRoleNames_key_table l : ∀ names st,
  table_is names st.1 →
  FieldId (length (first_seen names l)) ≤ INT_MAX →
  table_is (first_seen names l) (foldl updateRoleNames_key st l).1.
Proof.
  induction l as [|k l IH]; intros names st Ht Hb; [done|].
  cbn [foldl]. change (first_seen names (k :: l))
    with (first_seen (first_seen names [k]) l) in *.
  apply IH; [|done]. apply updateRoleNames_key_table; [done|].
  pose proof (first_seen_length (first_seen names [k]) l).
  unfold FieldId in *. lia.
Qed.

Lemma foldl_updateRoleNames_key_items l : ∀ st,
  m_items (foldl updateRoleNames_key st l).1 = m_items st.1.
Proof.
  induction l as [|k l IH]; intros st; [done|]. cbn [foldl]. rewrite IH.
  unfold updateRoleNames_key. by destruct (m_roleIds st.1 !! toUtf8 k).
Qed.

Lemma setJsonData_value_table names st v :
  table_is names st.2.1 →
  FieldId (length (first_seen names (record_fields v))) ≤ INT_MAX →
  table_is (first_seen names (record_fields v)) (setJsonData_value st v).2.1.
Proof.
  intros Ht Hb. destruct v; try done. cbn in *.
  unfold updateRoleNames. rewrite toItem_fmap, keys_fmap.
  by apply foldl_updateRoleNames_key_table.
Qed.

Lemma foldl_setJsonData_value_table a : ∀ names st,
  table_is names st.2.1 →
  FieldId (length (first_seen names (concat (record_fields <$> a)))) ≤ INT_MAX →
  table_is (first_seen names (concat (record_fields <$> a)))
           (foldl setJsonData_value st a).2.1.
Proof.
  induction a as [|v a IH]; intros names st Ht Hb; [done|].
  cbn [foldl fmap list_fmap concat] in *. rewrite first_seen_app in *.
  apply IH; [|done]. apply setJsonData_value_table; [done|].
  pose proof (first_seen_length (first_seen names (record_fields v))
                (concat (record_fields <$> a))).
  unfold FieldId in *. lia.
Qed.

Lemma table_is_items names m items :
  table_is names m →
  table_is names {| m_items := items; m_roleNames := m_roleNames m;
                    m_roleIds := m_roleIds m; m_nextRoleId := m_nextRoleId m |}.
Proof. done. Qed.

Lemma step_table names m c :
  table_is names m →
  FieldId (length (first_seen names (call_fields c))) ≤ INT_MAX →
  table_is (first_seen names (call_fields c)) (step m c).
Proof.
  intros Ht Hb. destruct c as [[| a |]|]; try done. cbn in *.
  apply table_is_items. by apply foldl_setJsonData_value_table.
Qed.

Lemma run_table cs : ∀ names m,
  table_is names m →
  FieldId (length (first_seen names (concat (call_fields <$> cs)))) ≤ INT_MAX →
  table_is (first_seen names (concat (call_fields <$> cs))) (run cs m).
Proof.
  induction cs as [|c cs IH]; intros names m Ht Hb; [done|].
  cbn [fmap list_fmap concat] in *. rewrite first_seen_app in *.
  unfold run in *. cbn [foldl]. apply IH; [|done]. apply step_table; [done|].
  pose proof (first_seen_length (first_seen names (call_fields c))
                (concat (call_fields <$> cs))).
  unfold FieldId in *. lia.
Qed.

Lemma create_table : table_is [] create.
Proof.
  split_and!; [done| |]; intros ??; cbn; rewrite !lookup_empty.
  - split; [done|]. by intros (i & ? & _).
  - done.
Qed.

Lemma table_is_prefix names1 names2 m1 m2 :
  table_is names1 m1 → table_is names2 m2 → names1 `prefix_of` names2 →
  m_roleIds m1 ⊆ m_roleIds m2 ∧ m_roleNames m1 ⊆ m_roleNames m2 ∧
  m_nextRoleId m1 ≤ m_nextRoleId m2.
Proof.
  intros (Hn1 & Hi1 & Hr1) (Hn2 & Hi2 & Hr2) Hpre.
  assert (m_roleIds m1 ⊆ m_roleIds m2) as Hsub.
  { apply map_subseteq_spec. intros name id (i & Hi & ->)%Hi1.
    apply Hi2. exists i. split; [|done]. by eapply prefix_lookup_Some. }
  split_and!; [done| |].
  - apply map_subseteq_spec. intros id name Hid%Hr1. apply Hr2.
    by eapply lookup_weaken.
  - rewrite Hn1, Hn2. apply prefix_length in Hpre. unfold FieldId. lia.
Qed.
End FieldIdTable.

Section RowsAndReads.
Import Qt ListModel.

(** setJsonData: rows *)
Lemma foldl_setJsonData_value_rows a : ∀ st,
  (foldl setJsonData_value st a).1 = st.1 ++ rows_of a.
Proof.
  induction a as [|v a IH]; intros st; cbn [foldl].
  - by rewrite app_nil_r.
  - rewrite IH. destruct v; cbn; try done.
    rewrite toItem_fmap. by rewrite <- app_assoc.
Qed.

Lemma length_rows_of a : length (rows_of a) = object_records a.
Proof.
  unfold rows_of, object_records.
  induction a as [|v a IH]; [done|].
  rewrite filter_cons. destruct v; cbn; rewrite ?decide_False by done; try done.
  rewrite decide_True by done. cbn. by rewrite IH.
Qed.

Lemma skipped_app o1 o2 : skipped (o1 ++ o2) = (skipped o1 + skipped o2)%nat.
Proof. unfold skipped. by rewrite filter_app, length_app. Qed.

Lemma foldl_updateRoleNames_key_skipped l : ∀ st,
  skipped (foldl updateRoleNames_key st l).2 = skipped st.2.
Proof.
  induction l as [|k l IH]; intros st; [done|]. cbn [foldl]. rewrite IH.
  unfold updateRoleNames_key. destruct (m_roleIds st.1 !! toUtf8 k); [done|].
  cbn [snd]. rewrite skipped_app. unfold skipped at 2. rewrite filter_cons.
  rewrite decide_False by done. cbn. lia.
Qed.

Lemma foldl_setJsonData_value_skipped a : ∀ st,
  (skipped (foldl setJsonData_value st a).2.2 + object_records a
   = skipped st.2.2 + length a)%nat.
Proof.
  induction a as [|v a IH]; intros st; cbn [foldl length].
  - unfold object_records. cbn. lia.
  - specialize (IH (setJsonData_value st v)).
    assert (object_records (v :: a) =
            ((if isObject v then 1 else 0) + object_records a)%nat) as ->.
    { unfold object_records. rewrite filter_cons. destruct v; cbn;
        rewrite ?decide_False by done; try done. }
    assert (skipped (setJsonData_value st v).2.2 =
            (skipped st.2.2 + if isObject v then 0 else 1)%nat) as Hs.
    { destruct v; cbn [setJsonData_value snd isObject]; rewrite ?skipped_app;
        try (unfold skipped at 2; rewrite filter_cons, decide_True by done;
             reflexivity).
      unfold updateRoleNames. rewrite foldl_updateRoleNames_key_skipped. lia. }
    destruct (isObject v); lia.
Qed.

Lemma data_total m idx role : is_Some (data m idx role).
Proof.
  unfold data.
  destruct (negb (isValid idx) || bool_decide (count m ≤ row idx)) eqn:E; [eauto|].
  apply orb_false_iff in E as [Hv Hr].
  apply negb_false_iff in Hv. apply bool_decide_eq_false in Hr.
  unfold isValid in Hv. apply andb_true_iff in Hv as [Hv _].
  apply andb_true_iff in Hv as [Hv _]. apply bool_decide_eq_true in Hv.
  unfold count in Hr.
  destruct (lookup_lt_is_Some_2 (m_items m) (Z.to_nat (row idx))) as [item ->]; [lia|].
  cbn. destruct (isEmpty _); eauto.
Qed.

Lemma roleForName_table names m name :
  table_is names m → roleForName m name = m_roleIds m !! name.
Proof.
  intros (_ & _ & Hnames). unfold roleForName, roleNames.
  destruct (list_find _ _) as [[i [id name']]|] eqn:E; cbn.
  - apply list_find_Some in E as (Hin & Hp & _). cbn in Hp. subst name'.
    apply list_elem_of_lookup_2, elem_of_map_to_list in Hin.
    symmetry. by apply Hnames.
  - destruct (m_roleIds m !! name) as [id|] eqn:E'; [|done].
    apply Hnames, elem_of_map_to_list in E'.
    eapply list_find_None, Forall_forall in E; [|done]. done.
Qed.

Lemma index_in_range m r :
  0 ≤ r < count m → index m r = ModelIndex r 0 true.
Proof.
  intros H. unfold index.
  by rewrite !bool_decide_eq_true_2 by lia.
Qed.

Lemma index_out_of_range m r :
  ¬ (0 ≤ r < count m) → index m r = ModelIndex (-1) (-1) false.
Proof.
  intros H. unfold index.
  destruct (decide (0 ≤ r)).
  - rewrite (bool_decide_eq_false_2 (r < count m)) by lia.
    by rewrite andb_false_r.
  - by rewrite (bool_decide_eq_false_2 (0 ≤ r)) by lia.
Qed.

Lemma data_invalid_index m role :
  data m (ModelIndex (-1) (-1) false) role = Some Invalid.
Proof. done. Qed.

Lemma data_valid_row m r role item :
  0 ≤ r → m_items m !! Z.to_nat r = Some item →
  data m (ModelIndex r 0 true) role =
  match m_roleNames m !! role with
  | Some roleName =>
      if isEmpty roleName then Some Invalid
      else Some (default Invalid (item !! roleName))
  | None => Some Invalid
  end.
Proof.
  intros H0 Hitem. apply lookup_lt_Some in Hitem as Hlt.
  unfold data, isValid, count. cbn [row column has_model].
  rewrite (bool_decide_eq_true_2 (0 ≤ r)) by done.
  rewrite (bool_decide_eq_false_2 (_ ≤ r)) by lia.
  cbn. rewrite Hitem. cbn. by destruct (m_roleNames m !! role).
Qed.
End RowsAndReads.

Section ListModelSpec.
Import Qt ListModel.

Lemma run_app cs1 cs2 m : run (cs1 ++ cs2) m = run cs2 (run cs1 m).
Proof. apply foldl_app. Qed.

Lemma reachable_table cs :
  FieldId (length (first_seen [] (concat (call_fields <$> cs)))) ≤ INT_MAX →
  table_is (first_seen [] (concat (call_fields <$> cs))) (run cs create).
Proof. intros Hb. apply run_table; [apply create_table|done]. Qed.

Lemma record_fields_in_order v : fields_in_order v (record_fields v).
Proof.
  assert (fields_in_order_nil : ∀ v, (∀ obj, v ≠ JObject obj) → fields_in_order v []).
  { intros v' Hv. split_and!.
    - apply NoDup_nil_2.
    - intros k. split; [by intros ?%elem_of_nil|].
      intros (obj & -> & _). by destruct (Hv obj).
    - intros i j a b Hi. by rewrite lookup_nil in Hi. }
  destruct v as [| | | | |obj]; cbn; try by apply fields_in_order_nil.
  split_and!; [apply NoDup_keys| |apply keys_ascending].
  intros k. rewrite elem_of_keys. split; [eauto|].
  by intros (obj' & [= <-] & ?).
Qed.

Lemma record_fields_parsed members k :
  k ∈ record_fields (parsed members) ↔ k ∈ members.*1.
Proof.
  unfold parsed. cbn [record_fields]. rewrite elem_of_keys.
  assert (∀ acc : gmap string QJsonValue,
            is_Some (foldl (λ obj kv, <[kv.1 := kv.2]> obj) acc members !! k) ↔
            is_Some (acc !! k) ∨ k ∈ members.*1) as H.
  { induction members as [|[n v] ms IH]; intros acc; cbn [foldl fmap list_fmap].
    - rewrite elem_of_nil. tauto.
    - rewrite IH. cbn [fst snd]. rewrite elem_of_cons.
      destruct (decide (k = n)) as [->|Hne].
      + rewrite lookup_insert_eq. split; [tauto|]. intros _. left. eauto.
      + rewrite lookup_insert_ne by done. tauto. }
  rewrite H, lookup_empty. split; [|tauto].
  intros [[? ?]|?]; done.
Qed.

(** C2, amended.  For every sequence of [setData] and [clear] calls on a
    new model (with fewer distinct field names than the [int] counter can
    number): the FieldId table numbers the field names of the
    object-shaped records in first-seen order, where the records are taken
    in payload order and the names of one record in ascending order of
    their UTF-16 code units, each once, whatever order the payload text
    wrote them in (the names of a record read from a text are the names
    the text writes); one id per name and one name per id; every name that
    occurs has an id; what an earlier state of the run maps a name or an id
    to, the final state maps it to as well, and the counter never goes
    back; and [clear] leaves [m_roleIds], [m_roleNames] and [m_nextRoleId]
    as they are. *)
Theorem field_ids_first_seen_and_stable (cs : list call) :
  FieldId (length (first_seen [] (concat (call_fields <$> cs)))) ≤ INT_MAX →
  table_is (first_seen [] (concat (call_fields <$> cs))) (run cs create) ∧
  (∀ v, fields_in_order v (record_fields v)) ∧
  (∀ members k, k ∈ record_fields (parsed members) ↔ k ∈ members.*1) ∧
  NoDup (first_seen [] (concat (call_fields <$> cs))) ∧
  (∀ name, name ∈ concat (call_fields <$> cs) →
     ∃ id, m_roleIds (run cs create) !! name = Some id ∧
           m_roleNames (run cs create) !! id = Some name) ∧
  (∀ n1 n2 id, m_roleIds (run cs create) !! n1 = Some id →
               m_roleIds (run cs create) !! n2 = Some id → n1 = n2) ∧
  (∀ cs1 cs2, cs = cs1 ++ cs2 →
     m_roleIds (run cs1 create) ⊆ m_roleIds (run cs create) ∧
     m_roleNames (run cs1 create) ⊆ m_roleNames (run cs create) ∧
     m_nextRoleId (run cs1 create) ≤ m_nextRoleId (run cs create)) ∧
  (∀ m, m_roleIds (clear m).1 = m_roleIds m ∧
        m_roleNames (clear m).1 = m_roleNames m ∧
        m_nextRoleId (clear m).1 = m_nextRoleId m).
Proof.
  intros Hb. pose proof (reachable_table cs Hb) as Ht.
  split_and!; [done|apply record_fields_in_order|apply record_fields_parsed
              |by apply first_seen_NoDup, NoDup_nil| | | |done].
  - intros name Hin.
    assert (is_Some (m_roleIds (run cs create) !! name)) as [id Hid].
    { eapply table_is_known; [done|]. apply elem_of_first_seen. by right. }
    exists id. split; [done|]. by apply Ht.
  - intros n1 n2 id H1 H2. destruct Ht as (_ & _ & Hnames).
    apply Hnames in H1, H2. congruence.
  - intros cs1 cs2 ->.
    rewrite fmap_app, concat_app, first_seen_app in Hb, Ht.
    eapply table_is_prefix; [|done|apply first_seen_prefix].
    apply reachable_table.
    pose proof (first_seen_length
      (first_seen [] (concat (call_fields <$> cs1)))
      (concat (call_fields <$> cs2))).
    unfold FieldId in *. lia.
Qed.

(** C4.  When the document is not an array, [setJsonData] returns the
    model it was given (the same rows, the same row count, the same FieldId
    table and counter) and prints the error. *)
Theorem setJsonData_rejects_non_array (doc : QJsonDocument) (m : JvmListModel) :
  isArray doc = false →
  (setJsonData doc m).1 = m ∧
  m_items (setJsonData doc m).1 = m_items m ∧
  count (setJsonData doc m).1 = count m ∧
  m_roleIds (setJsonData doc m).1 = m_roleIds m ∧
  m_roleNames (setJsonData doc m).1 = m_roleNames m ∧
  m_nextRoleId (setJsonData doc m).1 = m_nextRoleId m ∧
  Log Warning "[CPP] ERROR: JSON data is not an array" ∈ (setJsonData doc m).2.
Proof.
  intros Hdoc. destruct doc; try discriminate; cbn;
    split_and!; try done; rewrite !elem_of_cons; tauto.
Qed.

(** C7.  After [setJsonData] on an array, [count()] is the number of
    object-shaped records of the array; the rows are those records in
    order, so a record that is not an object does not stop the ones after
    it; and one warning is printed for every record that is skipped. *)
Theorem count_is_number_of_object_records (a : list QJsonValue) (m : JvmListModel) :
  count (setJsonData (DocArray a) m).1 = Z.of_nat (object_records a) ∧
  m_items (setJsonData (DocArray a) m).1 = rows_of a ∧
  (skipped (setJsonData (DocArray a) m).2 + object_records a)%nat = length a.
Proof.
  unfold count. cbn [setJsonData fst snd m_items].
  rewrite foldl_setJsonData_value_rows. cbn [fst app].
  split_and!; [by rewrite length_rows_of|done|].
  rewrite skipped_app.
  pose proof (foldl_setJsonData_value_skipped a
    ([], (m, [Log Debug "[CPP] JvmListModel::setJsonData called";
              Log Debug "[CPP] JSON data length:";
              Log Debug "[CPP] Parsed"]))) as H.
  cbn [fst snd] in H.
  replace (skipped [Log Debug "[CPP] Model updated with"; Log Debug "[CPP] Roles:"])
    with 0%nat by done.
  replace (skipped [Log Debug "[CPP] JvmListModel::setJsonData called";
              Log Debug "[CPP] JSON data length:";
              Log Debug "[CPP] Parsed"]) with 0%nat in H by done.
  lia.
Qed.

(** C9, amended.  On every model a sequence of [setData] and [clear] calls
    leads to, reading a field by row and name always gives a result (the
    vector is never read outside its bounds); the result is the invalid
    [QVariant] when the row is out of range, when the name has no FieldId,
    and when the name is empty; and for a row in range and a non-empty
    name that has a FieldId it is the value the row stores under the name,
    or the invalid [QVariant] when the row has none. *)
Theorem get_is_total_and_reads_named_fields (cs : list call) (r : Z) (name : string) :
  FieldId (length (first_seen [] (concat (call_fields <$> cs)))) ≤ INT_MAX →
  is_Some (get (run cs create) r name) ∧
  (¬ (0 ≤ r < count (run cs create)) →
     get (run cs create) r name = Some Invalid) ∧
  (m_roleIds (run cs create) !! name = None →
     get (run cs create) r name = Some Invalid) ∧
  (name = "" → get (run cs create) r name = Some Invalid) ∧
  (∀ item, 0 ≤ r → m_items (run cs create) !! Z.to_nat r = Some item →
     is_Some (m_roleIds (run cs create) !! name) → name ≠ "" →
     get (run cs create) r name = Some (default Invalid (item !! name))).
Proof.
  intros Hb. pose proof (reachable_table cs Hb) as Ht.
  set (m := run cs create) in *.
  pose proof (roleForName_table _ m name Ht) as Hrole.
  destruct Ht as (_ & _ & Hnames).
  split_and!.
  - unfold get. destruct (roleForName m name); [apply data_total|eauto].
  - intros Hr. unfold get. destruct (roleForName m name); [|done].
    by rewrite index_out_of_range.
  - intros Hn. unfold get. by rewrite Hrole, Hn.
  - intros ->. unfold get. rewrite Hrole.
    destruct (m_roleIds m !! "") as [id|] eqn:E; [|done].
    destruct (decide (0 ≤ r < count m)) as [Hr|Hr].
    + rewrite index_in_range by done.
      destruct (lookup_lt_is_Some_2 (m_items m) (Z.to_nat r)) as [item Hitem];
        [unfold count in Hr; lia|].
      rewrite (data_valid_row _ _ _ item) by (done || lia).
      apply Hnames in E. by rewrite E.
    + by rewrite index_out_of_range.
  - intros item H0 Hitem [id Hid] Hne. unfold get. rewrite Hrole, Hid.
    rewrite index_in_range.
    + rewrite (data_valid_row _ _ _ item) by done.
      apply Hnames in Hid. rewrite Hid. unfold isEmpty, fromUtf8.
      by rewrite bool_decide_eq_false_2.
    + apply lookup_lt_Some in Hitem. unfold count. lia.
Qed.
End ListModelSpec.

Section RegistryInvariant.
Import Qt Jni Forwarder.

Lemma DeleteGlobalRef_live ref jvm :
  is_Some (globals jvm !! ref) → DeleteGlobalRef ref jvm = Some (released ref jvm).
Proof. intros H. unfold DeleteGlobalRef. by rewrite bool_decide_eq_true_2. Qed.

Lemma DeleteGlobalRef_dead ref jvm :
  globals jvm !! ref = None → DeleteGlobalRef ref jvm = None.
Proof.
  intros H. unfold DeleteGlobalRef. rewrite bool_decide_eq_false_2; [done|].
  rewrite H. by intros [? ?].
Qed.

Lemma DeleteGlobalRef_Some ref jvm jvm' :
  DeleteGlobalRef ref jvm = Some jvm' →
  is_Some (globals jvm !! ref) ∧ jvm' = released ref jvm.
Proof. unfold DeleteGlobalRef. case_bool_decide; [|done]. by intros [= <-]. Qed.

Lemma fresh_consistent s : fresh s → consistent s.
Proof.
  intros (Hh & Hm & Hg). split_and!.
  - intros g [x Hx]. exact (Hg g x Hx).
  - intros g [x Hx]. rewrite Hm, lookup_empty in Hx. done.
  - intros name g Hx. rewrite Hh, lookup_empty in Hx. done.
  - intros g name obj Hx. rewrite Hm, lookup_empty in Hx. done.
Qed.

Lemma fresh_all_pinned s : fresh s → all_pinned s.
Proof. intros (Hh & _) name g H. by rewrite Hh, lookup_empty in H. Qed.

Lemma consistent_at_most_one s : consistent s → at_most_one_live s.
Proof.
  intros (_ & _ & _ & H4) name g1 g2 [L1 [o1 M1]] [L2 [o2 M2]].
  destruct (H4 _ _ _ M1 L1) as [E1 _], (H4 _ _ _ M2 L2) as [E2 _]. congruence.
Qed.

(** Two names never share a reference. *)
Lemma consistent_entries_differ s n1 n2 g :
  consistent s → m_handlers (fwd s) !! n1 = Some g →
  m_handlers (fwd s) !! n2 = Some g → n1 = n2.
Proof.
  intros (_ & _ & H3 & _) H1 H2.
  destruct (H3 _ _ H1) as [o1 M1], (H3 _ _ H2) as [o2 M2]. congruence.
Qed.

Lemma at_most_one_live_same s s' :
  at_most_one_live s → made_for s' = made_for s → vm s' = vm s →
  at_most_one_live s'.
Proof.
  intros H Hm Hv name g1 g2 [L1 [o1 M1]] [L2 [o2 M2]].
  rewrite Hm in M1, M2. rewrite Hv in L1, L2. apply (H name); split; eauto.
Qed.

Lemma unpinned_consistent ref s : consistent s → consistent (unpinned ref s).
Proof.
  intros (H1 & H2 & H3 & H4). split_and!; cbn.
  - intros g [x Hx]. apply lookup_delete_Some in Hx as [_ Hx]. eauto.
  - done.
  - done.
  - intros g name obj Hm [x Hx]. apply lookup_delete_Some in Hx as [Hne Hx].
    destruct (H4 _ _ _ Hm) as [? ?]; [eauto|]. split; [done|].
    by rewrite lookup_delete_ne.
Qed.

Lemma unpinned_no_live_handle s name ref g :
  consistent s → m_handlers (fwd s) !! name = Some ref →
  ¬ live_handle (unpinned ref s) name g.
Proof.
  intros (_ & _ & _ & H4) Href [[x Hx] [obj Hm]]. cbn in *.
  apply lookup_delete_Some in Hx as [Hne Hx].
  destruct (H4 _ _ _ Hm) as [? _]; [eauto|]. congruence.
Qed.

Lemma no_entry_no_live_handle s name g :
  consistent s → m_handlers (fwd s) !! name = None → ¬ live_handle s name g.
Proof.
  intros (_ & _ & _ & H4) Href [L [obj Hm]].
  destruct (H4 _ _ _ Hm L) as [? _]. congruence.
Qed.

Lemma old_unpinned_consistent name s : consistent s → consistent (old_unpinned name s).
Proof.
  unfold old_unpinned. destruct (m_handlers (fwd s) !! name); [|done].
  apply unpinned_consistent.
Qed.

Lemma old_unpinned_no_live_handle s name g :
  consistent s → ¬ live_handle (old_unpinned name s) name g.
Proof.
  intros Hc. unfold old_unpinned.
  destruct (m_handlers (fwd s) !! name) eqn:E.
  - by eapply unpinned_no_live_handle.
  - by eapply no_entry_no_live_handle.
Qed.

Lemma old_unpinned_fwd name s : fwd (old_unpinned name s) = fwd s.
Proof. unfold old_unpinned. by destruct (m_handlers (fwd s) !! name). Qed.

Lemma old_unpinned_made_for name s : made_for (old_unpinned name s) = made_for s.
Proof. unfold old_unpinned. by destruct (m_handlers (fwd s) !! name). Qed.

Lemma old_unpinned_next name s :
  next_global (vm (old_unpinned name s)) = next_global (vm s).
Proof. unfold old_unpinned. by destruct (m_handlers (fwd s) !! name). Qed.

(** [registerHandler] with a handler: what it gives when the entry it
    replaces, if there is one, is live, and that it is undefined when
    that entry is not. *)
Lemma registerHandler_live name obj ok s :
  (∀ old, m_handlers (fwd s) !! name = Some old →
          is_Some (globals (vm s) !! old)) →
  ∃ out,
    registerHandler name (Some obj) ok s =
      Some (ok,
            if ok then
              [old_unpinned name s; pinned name obj (old_unpinned name s);
               stored name (next_global (vm s))
                 (pinned name obj (old_unpinned name s))]
            else [old_unpinned name s],
            out).
Proof.
  intros Hlive.
  unfold registerHandler, old_unpinned, pinned, stored, unpinned, toStdString.
  destruct (m_handlers (fwd s) !! name) as [old|] eqn:E.
  - rewrite DeleteGlobalRef_live by eauto. destruct ok; cbn; eauto.
  - destruct ok; cbn; eauto.
Qed.

Lemma registerHandler_dead name obj ok s old :
  m_handlers (fwd s) !! name = Some old → globals (vm s) !! old = None →
  registerHandler name (Some obj) ok s = None.
Proof.
  intros E Hd. unfold registerHandler, toStdString.
  by rewrite E, DeleteGlobalRef_dead.
Qed.

Lemma registerHandler_Some name obj ok s r :
  registerHandler name (Some obj) ok s = Some r →
  ∀ old, m_handlers (fwd s) !! name = Some old →
         is_Some (globals (vm s) !! old).
Proof.
  intros Hr old E.
  destruct (globals (vm s) !! old) eqn:Hg; [eauto|].
  by rewrite (registerHandler_dead _ _ _ _ _ E Hg) in Hr.
Qed.

Lemma instants_of_register name obj ok s :
  (∀ old, m_handlers (fwd s) !! name = Some old →
          is_Some (globals (vm s) !! old)) →
  instants_of (Register name (Some obj) ok) s =
    Some (if ok then
            [old_unpinned name s; pinned name obj (old_unpinned name s);
             stored name (next_global (vm s))
               (pinned name obj (old_unpinned name s))]
          else [old_unpinned name s]).
Proof.
  intros Hlive. cbn [instants_of].
  destruct (registerHandler_live name obj ok s Hlive) as [out ->]. done.
Qed.

Lemma instants_of_register_Some name obj ok s l :
  instants_of (Register name (Some obj) ok) s = Some l →
  ∀ old, m_handlers (fwd s) !! name = Some old →
         is_Some (globals (vm s) !! old).
Proof.
  cbn [instants_of]. intros H.
  destruct (registerHandler name (Some obj) ok s) as [r|] eqn:E; [|done].
  by eapply registerHandler_Some.
Qed.

Lemma unregisterHandler_live name s :
  (∀ ref, m_handlers (fwd s) !! name = Some ref →
          is_Some (globals (vm s) !! ref)) →
  ∃ out,
    unregisterHandler name s =
      Some (match m_handlers (fwd s) !! name with
            | Some ref => [unpinned ref s; erased name (unpinned ref s)]
            | None => []
            end, out).
Proof.
  intros Hlive. unfold unregisterHandler, toStdString, unpinned, erased.
  destruct (m_handlers (fwd s) !! name) as [ref|] eqn:E; [|eauto].
  rewrite DeleteGlobalRef_live by eauto. cbn. eauto.
Qed.

Lemma unregisterHandler_dead name s ref :
  m_handlers (fwd s) !! name = Some ref → globals (vm s) !! ref = None →
  unregisterHandler name s = None.
Proof.
  intros E Hd. unfold unregisterHandler, toStdString.
  by rewrite E, DeleteGlobalRef_dead.
Qed.

Lemma instants_of_unregister name s :
  (∀ ref, m_handlers (fwd s) !! name = Some ref →
          is_Some (globals (vm s) !! ref)) →
  instants_of (Unregister name) s =
    Some (match m_handlers (fwd s) !! name with
          | Some ref => [unpinned ref s; erased name (unpinned ref s)]
          | None => []
          end).
Proof.
  intros Hlive. cbn [instants_of].
  destruct (unregisterHandler_live name s Hlive) as [out ->]. done.
Qed.

Lemma instants_of_unregister_Some name s l :
  instants_of (Unregister name) s = Some l →
  ∀ ref, m_handlers (fwd s) !! name = Some ref →
         is_Some (globals (vm s) !! ref).
Proof.
  cbn [instants_of]. intros H ref E.
  destruct (globals (vm s) !! ref) eqn:Hg; [eauto|].
  by rewrite (unregisterHandler_dead _ _ _ E Hg) in H.
Qed.

Lemma pinned_at_most_one name obj s1 :
  consistent s1 → (∀ g, ¬ live_handle s1 name g) →
  at_most_one_live (pinned name obj s1).
Proof.
  intros Hc Hnone n g1 g2 [L1 [o1 M1]] [L2 [o2 M2]]. cbn in *.
  destruct Hc as (H1 & H2 & _ & H4).
  apply lookup_insert_Some in M1 as [[<- E1]|[N1 M1]];
    apply lookup_insert_Some in M2 as [[<- E2]|[N2 M2]]; simplify_eq; try done.
  - rewrite lookup_insert_ne in L2 by done.
    destruct (Hnone g2). split; eauto.
  - rewrite lookup_insert_ne in L1 by done.
    destruct (Hnone g1). split; eauto.
  - rewrite lookup_insert_ne in L1, L2 by done.
    destruct (H4 _ _ _ M1 L1) as [? _], (H4 _ _ _ M2 L2) as [? _]. congruence.
Qed.

Lemma stored_consistent name obj s1 :
  consistent s1 → (∀ g, ¬ live_handle s1 name g) →
  consistent (stored name (next_global (vm s1)) (pinned name obj s1)).
Proof.
  intros (H1 & H2 & H3 & H4) Hnone. split_and!; cbn.
  - intros g [x Hx]. apply lookup_insert_Some in Hx as [[<- _]|[_ Hx]]; [lia|].
    assert (g < next_global (vm s1))%nat by eauto. lia.
  - intros g [x Hx]. apply lookup_insert_Some in Hx as [[<- _]|[_ Hx]]; [lia|].
    assert (g < next_global (vm s1))%nat by eauto. lia.
  - intros n g Hx. apply lookup_insert_Some in Hx as [[<- <-]|[Hne Hx]].
    + exists obj. by rewrite lookup_insert_eq.
    + destruct (H3 _ _ Hx) as [o Ho]. exists o.
      rewrite lookup_insert_ne; [done|].
      assert (g < next_global (vm s1))%nat by eauto. lia.
  - intros g n o Hm L.
    apply lookup_insert_Some in Hm as [[<- E]|[Hne Hm]]; simplify_eq.
    + by rewrite !lookup_insert_eq.
    + rewrite lookup_insert_ne in L by done.
      destruct (H4 _ _ _ Hm L) as [Hn Hg].
      split; [|by rewrite lookup_insert_ne].
      rewrite lookup_insert_ne; [done|]. intros <-.
      destruct (Hnone g). split; eauto.
Qed.

Lemma erased_consistent name ref s :
  consistent s → m_handlers (fwd s) !! name = Some ref →
  consistent (erased name (unpinned ref s)).
Proof.
  intros Hc Href. pose proof (unpinned_consistent ref s Hc) as (H1 & H2 & H3 & H4).
  split_and!; cbn in *; [done|done| |].
  - intros n g Hx. apply lookup_delete_Some in Hx as [_ Hx]. eauto.
  - intros g n o Hm L. destruct (H4 _ _ _ Hm L) as [Hn Hg]. split; [|done].
    rewrite lookup_delete_ne; [done|]. intros <-.
    eapply (unpinned_no_live_handle s name ref g); [done..|].
    split; cbn; eauto.
Qed.

(** The state a call returns in. *)
Lemma step_register_null name ok s : step s (Register name None ok) = Some s.
Proof. done. Qed.

Lemma step_register_state name obj ok s :
  (∀ old, m_handlers (fwd s) !! name = Some old →
          is_Some (globals (vm s) !! old)) →
  step s (Register name (Some obj) ok) =
    Some (if ok then stored name (next_global (vm s))
                       (pinned name obj (old_unpinned name s))
          else old_unpinned name s).
Proof.
  intros Hlive. unfold step. rewrite instants_of_register by done.
  by destruct ok.
Qed.

Lemma step_unregister_state name s :
  (∀ ref, m_handlers (fwd s) !! name = Some ref →
          is_Some (globals (vm s) !! ref)) →
  step s (Unregister name) =
    Some (match m_handlers (fwd s) !! name with
          | Some ref => erased name (unpinned ref s)
          | None => s
          end).
Proof.
  intros Hlive. unfold step. rewrite instants_of_unregister by done.
  by destruct (m_handlers (fwd s) !! name).
Qed.

Lemma step_instants_of c s s' :
  step s c = Some s' → ∃ l, instants_of c s = Some l ∧ s' = default s (last l).
Proof.
  unfold step. destruct (instants_of c s) as [l|]; [|done].
  intros [= <-]. eauto.
Qed.

Lemma step_consistent c s l :
  consistent s → instants_of c s = Some l →
  (∀ s', s' ∈ l → at_most_one_live s') ∧ consistent (default s (last l)).
Proof.
  intros Hc Hl. destruct c as [name [obj|] ok|name].
  - pose proof (instants_of_register_Some _ _ _ _ _ Hl) as Hlive.
    rewrite instants_of_register in Hl by done. injection Hl as <-.
    pose proof (old_unpinned_consistent name s Hc) as Hc1.
    pose proof (λ g, old_unpinned_no_live_handle s name g Hc) as Hnone.
    pose proof (pinned_at_most_one name obj _ Hc1 Hnone) as Hp.
    destruct ok; cbn.
    + rewrite <- (old_unpinned_next name s).
      split; [|by apply stored_consistent].
      intros s'. rewrite !elem_of_cons, elem_of_nil.
      intros [->|[->|[->|[]]]]; [by apply consistent_at_most_one|done|].
      by eapply at_most_one_live_same.
    + split; [|done]. intros s' ->%list_elem_of_singleton.
      by apply consistent_at_most_one.
  - injection Hl as <-. split; [by intros ? ?%elem_of_nil|done].
  - pose proof (instants_of_unregister_Some _ _ _ Hl) as Hlive.
    rewrite instants_of_unregister in Hl by done. injection Hl as <-.
    destruct (m_handlers (fwd s) !! name) as [ref|] eqn:E; cbn.
    + pose proof (erased_consistent name ref s Hc E) as Hc2.
      split; [|done]. intros s'. rewrite !elem_of_cons, elem_of_nil.
      intros [->|[->|[]]]; apply consistent_at_most_one; [|done].
      by apply unpinned_consistent.
    + split; [by intros ? ?%elem_of_nil|done].
Qed.

Lemma step_defined c s : all_pinned s → is_Some (step s c).
Proof.
  intros Hp. destruct c as [name [obj|] ok|name].
  - rewrite step_register_state by apply Hp. eauto.
  - rewrite step_register_null. eauto.
  - rewrite step_unregister_state by apply Hp. eauto.
Qed.

(** Entries stay pinned when no allocation fails. *)
Lemma step_keeps_pinned c s s' :
  consistent s → allocates c = true → all_pinned s →
  step s c = Some s' → all_pinned s'.
Proof.
  intros Hc Hal Hp Hs name g. destruct c as [n [obj|] ok|n].
  - rewrite step_register_state in Hs by apply Hp.
    destruct ok; [|done]. injection Hs as <-. cbn.
    destruct Hc as (H1 & H2 & H3 & H4).
    rewrite old_unpinned_fwd, old_unpinned_next.
    intros [[<- <-]|[Hne Hg]]%lookup_insert_Some.
    + rewrite lookup_insert_eq. eauto.
    + destruct (H3 _ _ Hg) as [o Ho].
      assert (g < next_global (vm s))%nat by (apply H2; eauto).
      rewrite lookup_insert_ne by lia.
      unfold old_unpinned. destruct (m_handlers (fwd s) !! n) as [old|] eqn:E;
        [|by apply (Hp name)].
      cbn. rewrite lookup_delete_ne; [by apply (Hp name)|].
      intros <-. destruct (H3 _ _ E) as [o' Ho']. congruence.
  - rewrite step_register_null in Hs. injection Hs as <-. apply Hp.
  - rewrite step_unregister_state in Hs by apply Hp. injection Hs as <-.
    destruct (m_handlers (fwd s) !! n) as [ref|] eqn:E; [|apply Hp].
    cbn. intros [Hne Hg]%lookup_delete_Some.
    destruct Hc as (_ & _ & H3 & _).
    rewrite lookup_delete_ne; [by apply (Hp name)|].
    intros <-. destruct (H3 _ _ E) as [o Ho], (H3 _ _ Hg) as [o' Ho']. congruence.
Qed.

Lemma run_instants cs : ∀ s s',
  run cs s = Some s' → is_Some (instants cs s).
Proof.
  induction cs as [|c cs IH]; intros s s'; cbn; [eauto|].
  destruct (step s c) as [s1|] eqn:E; [|done]. cbn. intros Hr.
  destruct (step_instants_of _ _ _ E) as (l & -> & _). cbn.
  destruct (IH _ _ Hr) as [l' ->]. cbn. eauto.
Qed.

Lemma run_consistent cs : ∀ s s' l,
  consistent s → run cs s = Some s' → instants cs s = Some l →
  (∀ x, x ∈ l → at_most_one_live x) ∧ consistent s'.
Proof.
  induction cs as [|c cs IH]; intros s s' l Hc; cbn.
  - intros [= <-] [= <-]. split; [by intros ? ?%elem_of_nil|done].
  - destruct (step s c) as [s1|] eqn:E; [|done]. cbn. intros Hr.
    destruct (step_instants_of _ _ _ E) as (l1 & Hl1 & ->). rewrite Hl1. cbn.
    destruct (step_consistent c s l1 Hc Hl1) as [Hi Hc1].
    destruct (instants cs _) as [l2|] eqn:E2; [|done]. cbn. intros [= <-].
    destruct (IH _ _ _ Hc1 Hr E2) as [Hi2 Hc2]. split; [|done].
    intros x [?|?]%elem_of_app; eauto.
Qed.

Lemma run_consistent_state cs s s' :
  consistent s → run cs s = Some s' → consistent s'.
Proof.
  intros Hc Hr. destruct (run_instants cs s s' Hr) as [l Hl].
  by destruct (run_consistent cs s s' l Hc Hr Hl).
Qed.

Lemma run_keeps_pinned cs : ∀ s,
  consistent s → all_pinned s → Forall (λ c, allocates c = true) cs →
  ∃ s', run cs s = Some s' ∧ consistent s' ∧ all_pinned s'.
Proof.
  induction cs as [|c cs IH]; intros s Hc Hp Hal; cbn; [eauto|].
  apply Forall_cons in Hal as [Hc1 Hal].
  destruct (step_defined c s Hp) as [s1 E]. rewrite E. cbn.
  destruct (step_instants_of _ _ _ E) as (l1 & Hl1 & ->).
  apply IH; [by eapply step_consistent|by eapply step_keeps_pinned|done].
Qed.

(** The virtual machine's answers to [GetEnv] and [AttachCurrentThread],
    the pending exception and the record of calls are not touched. *)
Lemma step_thread c s s' :
  step s c = Some s' →
  env (vm s') = env (vm s) ∧ attachable (vm s') = attachable (vm s) ∧
  invoked (vm s') = invoked (vm s) ∧ pending (vm s') = pending (vm s) ∧
  m_handlerClass (fwd s') = m_handlerClass (fwd s) ∧
  m_handleMethod (fwd s') = m_handleMethod (fwd s).
Proof.
  intros Hs. destruct (step_instants_of _ _ _ Hs) as (l & Hl & ->).
  destruct c as [name [obj|] ok|name].
  - pose proof (instants_of_register_Some _ _ _ _ _ Hl) as Hlive.
    rewrite instants_of_register in Hl by done. injection Hl as <-.
    destruct ok; cbn; unfold old_unpinned;
      by destruct (m_handlers (fwd s) !! name).
  - by injection Hl as <-.
  - pose proof (instants_of_unregister_Some _ _ _ Hl) as Hlive.
    rewrite instants_of_unregister in Hl by done. injection Hl as <-.
    by destruct (m_handlers (fwd s) !! name).
Qed.

Lemma run_thread cs : ∀ s s',
  run cs s = Some s' →
  env (vm s') = env (vm s) ∧ attachable (vm s') = attachable (vm s) ∧
  invoked (vm s') = invoked (vm s) ∧ pending (vm s') = pending (vm s) ∧
  m_handlerClass (fwd s') = m_handlerClass (fwd s) ∧
  m_handleMethod (fwd s') = m_handleMethod (fwd s).
Proof.
  induction cs as [|c cs IH]; intros s s'; cbn; [by intros [= <-]|].
  destruct (step s c) as [s1|] eqn:E; [|done]. cbn. intros Hr.
  destruct (step_thread _ _ _ E) as (? & ? & ? & ? & ? & ?).
  destruct (IH _ _ Hr) as (? & ? & ? & ? & ? & ?).
  split_and!; congruence.
Qed.
End RegistryInvariant.

Section ForwarderSpec.
Import Qt Jni Forwarder.

Lemma pins_old_unpinned name n s cur :
  consistent s → n ≠ name → pins name s cur → pins name (old_unpinned n s) cur.
Proof.
  intros Hc Hne. unfold old_unpinned.
  destruct (m_handlers (fwd s) !! n) as [old|] eqn:E; [|done].
  destruct cur as [h|]; [|done]. intros (g & Hg & Hl & Hm).
  exists g. split_and!; [done| |done]. cbn.
  rewrite lookup_delete_ne; [done|]. intros <-.
  by destruct Hne; eapply consistent_entries_differ.
Qed.

Lemma step_pins name c s s' cur :
  consistent s → allocates c = true → pins name s cur →
  step s c = Some s' → pins name s' (registered_after name cur c).
Proof.
  intros Hc Hal Hh Hs.
  destruct (step_instants_of _ _ _ Hs) as (l & Hl & _).
  destruct c as [n [obj|] ok|n].
  - destruct ok; [|done].
    pose proof (instants_of_register_Some _ _ _ _ _ Hl) as Hlive.
    rewrite step_register_state in Hs by done. injection Hs as <-.
    pose proof (old_unpinned_consistent n s Hc) as (H1 & H2 & _ & _).
    rewrite <- (old_unpinned_next n s).
    cbn [registered_after registers].
    destruct (decide (n = name)) as [->|Hne].
    + exists (next_global (vm (old_unpinned name s))). cbn.
      by rewrite !lookup_insert_eq.
    + pose proof (pins_old_unpinned name n s cur Hc Hne Hh) as Hh1.
      set (s1 := old_unpinned n s) in *.
      destruct cur as [h|]; cbn.
      * destruct Hh1 as (g & Hg & Hlv & Hm).
        assert (g ≠ next_global (vm s1)) as Hlt.
        { assert (g < next_global (vm s1))%nat by (apply H2; eauto). lia. }
        exists g. by rewrite !lookup_insert_ne.
      * by rewrite lookup_insert_ne.
  - rewrite step_register_null in Hs. by injection Hs as <-.
  - pose proof (instants_of_unregister_Some _ _ _ Hl) as Hlive.
    rewrite step_unregister_state in Hs by done. injection Hs as <-.
    cbn [registered_after].
    destruct (decide (n = name)) as [->|Hne].
    + destruct (m_handlers (fwd s) !! name) eqn:E; [|done].
      cbn. apply lookup_delete_eq.
    + destruct (m_handlers (fwd s) !! n) as [ref|] eqn:E; [|done].
      destruct cur as [h|]; cbn in *.
      * destruct Hh as (g & Hg & Hlv & Hm). exists g.
        rewrite lookup_delete_ne by done. split_and!; [done| |done].
        rewrite lookup_delete_ne; [done|]. intros <-.
        by destruct Hne; eapply consistent_entries_differ.
      * by rewrite lookup_delete_ne.
Qed.

Lemma run_pins name cs : ∀ s s' cur,
  consistent s → Forall (λ c, allocates c = true) cs → pins name s cur →
  run cs s = Some s' →
  pins name s' (foldl (registered_after name) cur cs).
Proof.
  induction cs as [|c cs IH]; intros s s' cur Hc Hal Hh; cbn.
  - by intros [= <-].
  - apply Forall_cons in Hal as [Hc1 Hal].
    destruct (step s c) as [s1|] eqn:E; [|done]. cbn.
    destruct (step_instants_of _ _ _ E) as (l1 & Hl1 & Hs1).
    apply IH; [|done|by eapply step_pins].
    rewrite Hs1. by eapply step_consistent.
Qed.

Lemma register_unpins_old_first name old obj ok s :
  consistent s → m_handlers (fwd s) !! name = Some old →
  is_Some (globals (vm s) !! old) →
  ∃ l, instants_of (Register name (Some obj) ok) s = Some l ∧
       ∀ s', s' ∈ l → globals (vm s') !! old = None.
Proof.
  intros (_ & H2 & H3 & _) Hold Hlive.
  rewrite instants_of_register by (intros ? ?; by simplify_eq).
  eexists. split; [done|].
  assert (old ≠ next_global (vm s)) as Hne.
  { destruct (H3 _ _ Hold) as [o Ho].
    assert (old < next_global (vm s))%nat by (apply H2; eauto). lia. }
  assert (globals (vm (old_unpinned name s)) !! old = None) as H1.
  { unfold old_unpinned. rewrite Hold. cbn. apply lookup_delete_eq. }
  assert (globals (vm (pinned name obj (old_unpinned name s))) !! old = None) as H2'.
  { cbn. rewrite old_unpinned_next. by rewrite lookup_insert_ne. }
  intros s'. destruct ok; rewrite !elem_of_cons, elem_of_nil; intros H;
    destruct_or!; subst; done.
Qed.

(** A replacement for which [NewGlobalRef] fails. *)
Lemma registerHandler_failed_replacement name g h s :
  m_handlers (fwd s) !! name = Some g → is_Some (globals (vm s) !! g) →
  registerHandler name (Some h) false s =
    Some (false, [unpinned g s],
          [Log Out ("[CPP] Registering signal handler: " +:+ name);
           Log Out ("[CPP] Replacing existing handler for: " +:+ name);
           Log Err "[CPP] ERROR: Failed to create GlobalRef for handler"]).
Proof.
  intros E Hlive. unfold registerHandler, toStdString, unpinned.
  rewrite E, DeleteGlobalRef_live by done. done.
Qed.

(** C3, as the code has it.  From a forwarder that has registered nothing
    yet, through a sequence of register and unregister calls.

    As long as [NewGlobalRef] never fails, all is well: the run is
    defined; in every state it passes through, the intermediate states of
    each call included, there is at most one live pinned handle for any
    signal name; after the run the table has for a name a live reference
    that pins the handler of the most recent successful register call for
    that name, and no entry when there was no such call or an unregister
    call followed it; a register call over an existing entry has the old
    reference deleted in every state it passes through; an unregister call
    leaves no entry for its name and changes nothing when there is none.

    But a register call over a live entry for which [NewGlobalRef] fails
    returns [false] with that entry still in the table and its reference
    deleted: a handle is present for the name that is pinned no longer,
    there is no live pinned handle for the name at all, and the next
    register or unregister call for the name hands the deleted reference
    to [DeleteGlobalRef] again.  (Where there is no entry to replace, a
    register call for which [NewGlobalRef] fails returns [false] and
    changes nothing.) *)
Theorem failed_replacement_leaves_an_unpinned_handle
    (s0 : State) (cs : list call) :
  fresh s0 →
  (Forall (λ c, allocates c = true) cs →
   ∃ s l,
     run cs s0 = Some s ∧ instants cs s0 = Some l ∧
     (∀ s', s' ∈ s0 :: l → at_most_one_live s') ∧
     (∀ name, pins name s (last_registered name cs)) ∧
     (∀ name old obj ok,
        m_handlers (fwd s) !! name = Some old →
        ∃ l', instants_of (Register name (Some obj) ok) s = Some l' ∧
              ∀ s', s' ∈ l' → globals (vm s') !! old = None) ∧
     (∀ name,
        ∃ s', step s (Unregister name) = Some s' ∧
              m_handlers (fwd s') !! name = None ∧
              (m_handlers (fwd s) !! name = None → s' = s))) ∧
  (∀ s name g h0 h,
     run cs s0 = Some s →
     m_handlers (fwd s) !! name = Some g →
     globals (vm s) !! g = Some h0 →
     ∃ s',
       registerHandler name (Some h) false s =
         Some (false, [s'],
               [Log Out ("[CPP] Registering signal handler: " +:+ name);
                Log Out ("[CPP] Replacing existing handler for: " +:+ name);
                Log Err "[CPP] ERROR: Failed to create GlobalRef for handler"]) ∧
       m_handlers (fwd s') !! name = Some g ∧
       globals (vm s') !! g = None ∧
       (∀ g', ¬ live_handle s' name g') ∧
       (∀ h' ok, registerHandler name (Some h') ok s' = None) ∧
       unregisterHandler name s' = None) ∧
  (∀ s name h,
     m_handlers (fwd s) !! name = None →
     registerHandler name (Some h) false s =
       Some (false, [s],
             [Log Out ("[CPP] Registering signal handler: " +:+ name);
              Log Err "[CPP] ERROR: Failed to create GlobalRef for handler"])).
Proof.
  intros Hfresh. pose proof (fresh_consistent s0 Hfresh) as Hc0.
  split; [|split];
    [| |by intros s name h E; unfold registerHandler, toStdString; rewrite E].
  - intros Hal.
    destruct (run_keeps_pinned cs s0 Hc0 (fresh_all_pinned s0 Hfresh) Hal)
      as (s & Hr & Hc & Hp).
    destruct (run_instants cs s0 s Hr) as [l Hl].
    destruct (run_consistent cs s0 s l Hc0 Hr Hl) as [Hi _].
    exists s, l. split_and!; [done..| | | |].
    + intros s' [->|Hs]%elem_of_cons; [by apply consistent_at_most_one|eauto].
    + intros name. apply (run_pins name cs s0 s None Hc0 Hal); [|done].
      destruct Hfresh as [Hempty _]. cbn. by rewrite Hempty, lookup_empty.
    + intros name old obj ok Hold.
      apply register_unpins_old_first; [done..|]. by eapply Hp.
    + intros name. rewrite step_unregister_state by apply Hp.
      eexists. split; [done|].
      destruct (m_handlers (fwd s) !! name) eqn:E; [|done].
      split; [|done]. cbn. apply lookup_delete_eq.
  - intros s name g h0 h Hr Hg Hlive.
    pose proof (run_consistent_state cs s0 s Hc0 Hr) as Hc.
    exists (unpinned g s).
    assert (globals (vm (unpinned g s)) !! g = None) as Hdead
      by (cbn; apply lookup_delete_eq).
    split_and!; [|done|done| | |].
    + apply registerHandler_failed_replacement; eauto.
    + intros g'. by apply unpinned_no_live_handle.
    + intros h' ok. by eapply registerHandler_dead.
    + by eapply unregisterHandler_dead.
Qed.

(** C5.  With no handler registered under the name, [emitSignal] returns
    normally in the state it was called in (so the record of handler calls
    is as it was, no exception is pending that was not, and the table and
    the references are untouched) and prints the signal with the number of
    its arguments and that no handler is registered for it. *)
Theorem emit_without_handler_is_a_logged_no_op
    (handler_throws : JavaObject → list string → option Throwable)
    (number_toString : Z → string)
    (s : State) (name : string) (args : list QVariant) :
  m_handlers (fwd s) !! name = None →
  emitSignal handler_throws number_toString name args s =
    Some (s, [Log Out ("[CPP] Signal emitted: " +:+ name +:+ " with " +:+
                       pretty (length args) +:+ " arguments");
              Log Out ("[CPP] No handler registered for signal: " +:+ name)]).
Proof.
  intros E. unfold emitSignal, callJavaHandler, toStdString. by rewrite E.
Qed.

Lemma callJavaHandler_call_throws handler_throws name ref obj args e s out :
  globals (vm s) !! ref = Some obj →
  m_handleMethod (fwd s) = Some handle_method →
  handler_throws obj args = Some e →
  callJavaHandler_call handler_throws name ref args s out =
    Some (St (fwd s)
             (ExceptionClear (CallVoidMethod obj args (Some e) (vm s)))
             (made_for s),
          (out ++ [Log Out ("[CPP] Calling Java handler for: " +:+ name)]) ++
          [Log Err "[CPP] ERROR: Exception occurred in Java handler!"]).
Proof.
  intros Hobj Hm He. unfold callJavaHandler_call.
  rewrite Hobj, Hm. cbn. rewrite He. done.
Qed.

(** C6.  With a live handler registered under the name, the handler
    method resolved and an environment for the thread (at once or by
    attaching), a handler that throws is called once with the arguments as
    text, the error is printed, and [emitSignal] returns normally with no
    exception pending and the registry and the pinned references as they
    were. *)
Theorem handler_fault_is_logged_and_cleared
    (handler_throws : JavaObject → list string → option Throwable)
    (number_toString : Z → string)
    (s : State) (name : string) (args : list QVariant)
    (ref : nat) (obj : JavaObject) (e : Throwable) :
  m_handlers (fwd s) !! name = Some ref →
  globals (vm s) !! ref = Some obj →
  m_handleMethod (fwd s) = Some handle_method →
  env (vm s) = JNI_OK ∨ (env (vm s) = JNI_EDETACHED ∧ attachable (vm s) = true) →
  handler_throws obj (variantsToStrings number_toString args) = Some e →
  ∃ s' out,
    emitSignal handler_throws number_toString name args s = Some (s', out) ∧
    pending (vm s') = None ∧
    Log Err "[CPP] ERROR: Exception occurred in Java handler!" ∈ out ∧
    invoked (vm s') =
      invoked (vm s) ++ [(obj, variantsToStrings number_toString args)] ∧
    fwd s' = fwd s ∧
    globals (vm s') = globals (vm s).
Proof.
  intros Href Hobj Hm Henv He.
  unfold emitSignal, callJavaHandler, toStdString. rewrite Href.
  destruct Henv as [Henv|[Henv Hatt]]; rewrite Henv.
  - erewrite callJavaHandler_call_throws by done. cbn.
    eexists _, _. split; [done|]. split_and!; try done.
    rewrite !elem_of_cons. tauto.
  - rewrite Hatt. erewrite callJavaHandler_call_throws by done. cbn.
    eexists _, _. split; [done|]. split_and!; try done.
    rewrite !elem_of_cons. tauto.
Qed.
End ForwarderSpec.

Section ReloadLemmas.
Import Qt Engine Watcher.
Variable qmlLoads : Z → string → bool.

Lemma foldl_deleteLater (l : list nat) : ∀ e,
  foldl (λ e obj, deleteLater obj e) e l =
  {| rootObjects := rootObjects e; deferred := deferred e ++ l;
     componentCache := componentCache e;
     contextProperties := contextProperties e;
     next_object := next_object e |}.
Proof.
  induction l as [|o l IH]; intros e; cbn [foldl].
  - rewrite app_nil_r. by destruct e.
  - rewrite IH. cbn. by rewrite <- app_assoc.
Qed.

(** The engine [reloadQml] leaves behind. *)
Lemma reloadQml_engine_state now path w e :
  m_engine w = Some e →
  m_engine (reloadQml qmlLoads now path w).1 =
    Some (load (qmlLoads now path) path
            {| rootObjects := rootObjects e;
               deferred := deferred e ++ rootObjects e;
               componentCache := [];
               contextProperties := contextProperties e;
               next_object := next_object e |}).
Proof.
  intros He. unfold reloadQml. rewrite He. rewrite foldl_deleteLater.
  by case_bool_decide.
Qed.

Lemma reloadQml_output now path w e :
  m_engine w = Some e →
  (rootObjects e = [] ∧ qmlLoads now path = false →
   logs_failure (reloadQml qmlLoads now path w).2 ∧
   ¬ logs_complete (reloadQml qmlLoads now path w).2) ∧
  (rootObjects e ≠ [] ∨ qmlLoads now path = true →
   logs_complete (reloadQml qmlLoads now path w).2 ∧
   ¬ logs_failure (reloadQml qmlLoads now path w).2).
Proof.
  intros He. unfold reloadQml. rewrite He. rewrite foldl_deleteLater.
  unfold logs_failure, logs_complete, banner, saveContextProperties,
    restoreContextProperties.
  assert (rootObjects (load (qmlLoads now path) path
            (clearComponentCache
               {| rootObjects := rootObjects e;
                  deferred := deferred e ++ rootObjects e;
                  componentCache := componentCache e;
                  contextProperties := contextProperties e;
                  next_object := next_object e |})) = [] ↔
          rootObjects e = [] ∧ qmlLoads now path = false) as Hempty.
  { unfold load. destruct (qmlLoads now path); cbn.
    - split; [by intros [? ?]%app_eq_nil|by intros [_ ?]].
    - tauto. }
  case_bool_decide as Hb; cbn [snd].
  - split.
    + intros _.
      rewrite !elem_of_app, !elem_of_cons, !elem_of_nil.
      split; [tauto|]. intros H. destruct_or!; try discriminate.
      by apply list_elem_of_fmap in H as (? & ? & _).
    + destruct (proj1 Hempty Hb) as [Hr Hl]. intros [?|?]; [done|congruence].
  - split.
    + intros H. by destruct Hb; apply Hempty.
    + intros _.
      rewrite !elem_of_app, !elem_of_cons, !elem_of_nil.
      split; [tauto|]. intros H. destruct_or!; try discriminate.
      by apply list_elem_of_fmap in H as (? & ? & _).
Qed.

Lemma filter_not_in_app (l1 l2 : list nat) :
  filter (λ o, o ∉ l1 ++ l2) l2 = [].
Proof.
  assert (∀ l, l ⊆ l2 → filter (λ o, o ∉ l1 ++ l2) l = []) as H.
  { induction l as [|o l IH]; intros Hsub; [done|].
    rewrite filter_cons, decide_False.
    - apply IH. intros x ?. apply Hsub. by right.
    - intros Hn. apply Hn, elem_of_app. right. apply Hsub. left. }
  by apply H.
Qed.
End ReloadLemmas.

Section WatcherSpec.
Import Qt Engine Watcher.
Variable fileExists : Z → string → bool.
Variable qmlLoads : Z → string → bool.

Lemma reloads_app o1 o2 : reloads (o1 ++ o2) = (reloads o1 + reloads o2)%nat.
Proof. unfold reloads. by rewrite filter_app, length_app. Qed.

Lemma reloads_cons_other ln out :
  text ln ≠ "[CPP] QmlWatcher: RELOADING QML" → reloads (ln :: out) = reloads out.
Proof. intros H. unfold reloads. by rewrite filter_cons, decide_False. Qed.

Lemma reloads_cons_reload sev out :
  reloads (Log sev "[CPP] QmlWatcher: RELOADING QML" :: out) = S (reloads out).
Proof. unfold reloads. by rewrite filter_cons, decide_True. Qed.

Lemma reloads_nil : reloads [] = 0%nat.
Proof. done. Qed.

Lemma reloads_deleting (roots : list nat) :
  reloads ((λ _, Log Debug "[CPP] QmlWatcher: Deleting old root object:") <$> roots)
  = 0%nat.
Proof.
  induction roots as [|r roots IH]; [done|].
  cbn [fmap list_fmap]. by rewrite reloads_cons_other.
Qed.

Ltac count_reloads :=
  repeat first
    [ rewrite reloads_app
    | rewrite reloads_deleting
    | rewrite reloads_cons_reload
    | rewrite reloads_cons_other by (cbn; discriminate)
    | rewrite reloads_nil ].

Lemma reloads_reloadQml now path w :
  is_Some (m_engine w) → reloads (reloadQml qmlLoads now path w).2 = 1%nat.
Proof.
  intros [e He]. unfold reloadQml. rewrite He.
  unfold banner, saveContextProperties, restoreContextProperties.
  case_bool_decide; cbn [snd]; count_reloads; done.
Qed.

Lemma reloadQml_engine now path w :
  is_Some (m_engine w) → is_Some (m_engine (reloadQml qmlLoads now path w).1).
Proof.
  intros [e He]. unfold reloadQml. rewrite He. case_bool_decide; cbn; eauto.
Qed.

Lemma reloadQml_frame now path w :
  m_autoReload (reloadQml qmlLoads now path w).1 = m_autoReload w ∧
  m_watcher (reloadQml qmlLoads now path w).1 = m_watcher w ∧
  m_currentQmlPath (reloadQml qmlLoads now path w).1 = m_currentQmlPath w.
Proof.
  unfold reloadQml. destruct (m_engine w); [|done]. by case_bool_decide.
Qed.

Lemma fire_reloads now l t :
  is_Some (m_engine (watcher l)) →
  reloads (console (fire qmlLoads now l t)) = S (reloads (console l)) ∧
  is_Some (m_engine (watcher (fire qmlLoads now l t))) ∧
  m_autoReload (watcher (fire qmlLoads now l t)) = m_autoReload (watcher l) ∧
  m_watcher (watcher (fire qmlLoads now l t)) = m_watcher (watcher l) ∧
  timers (fire qmlLoads now l t) = timers l.
Proof.
  intros He. unfold fire.
  cbn [console watcher timers m_engine m_autoReload m_watcher].
  rewrite reloads_app, reloads_reloadQml by done.
  destruct (reloadQml_frame now t.2 (watcher l)) as (? & ? & _).
  split_and!; [lia| |done..].
  apply fmap_is_Some. by apply reloadQml_engine.
Qed.

Lemma foldl_fire_reloads now ts : ∀ l,
  is_Some (m_engine (watcher l)) →
  reloads (console (foldl (fire qmlLoads now) l ts))
    = (reloads (console l) + length ts)%nat ∧
  m_autoReload (watcher (foldl (fire qmlLoads now) l ts)) = m_autoReload (watcher l) ∧
  m_watcher (watcher (foldl (fire qmlLoads now) l ts)) = m_watcher (watcher l) ∧
  timers (foldl (fire qmlLoads now) l ts) = timers l.
Proof.
  induction ts as [|t ts IH]; intros l He; cbn [foldl length].
  - split_and!; [lia|done..].
  - destruct (fire_reloads now l t He) as (Hr & He' & Ha & Hw & Ht).
    destruct (IH _ He') as (Hr' & Ha' & Hw' & Ht').
    split_and!; [lia|congruence..].
Qed.

Lemma onFileChanged_enabled now path l :
  m_autoReload (watcher l) = true →
  timers (onFileChanged fileExists now path l) = timers l ++ [(now + 100, path)] ∧
  reloads (console (onFileChanged fileExists now path l)) = reloads (console l) ∧
  m_engine (watcher (onFileChanged fileExists now path l)) = m_engine (watcher l) ∧
  m_autoReload (watcher (onFileChanged fileExists now path l)) = true.
Proof.
  intros Ha. unfold onFileChanged. rewrite Ha.
  cbn [negb console watcher timers m_engine m_autoReload m_watcher].
  split_and!; [done| |done..].
  destruct (negb _); count_reloads; lia.
Qed.

Lemma onFileChanged_disabled now path l :
  m_autoReload (watcher l) = false →
  timers (onFileChanged fileExists now path l) = timers l ∧
  watcher (onFileChanged fileExists now path l) = watcher l.
Proof. intros Ha. unfold onFileChanged. by rewrite Ha. Qed.

Lemma notifications_timers path times : ∀ l,
  m_autoReload (watcher l) = true →
  timers (notifications fileExists path times l)
    = timers l ++ ((λ t, (t + 100, path)) <$> times) ∧
  reloads (console (notifications fileExists path times l)) = reloads (console l) ∧
  m_engine (watcher (notifications fileExists path times l)) = m_engine (watcher l).
Proof.
  unfold notifications.
  induction times as [|t times IH]; intros l Ha; cbn [foldl fmap list_fmap].
  - by rewrite app_nil_r.
  - destruct (onFileChanged_enabled t path l Ha) as (Ht & Hr & He & Ha').
    destruct (IH _ Ha') as (Ht' & Hr' & He').
    rewrite Ht', Hr', He', Ht, Hr, He. by rewrite <- app_assoc.
Qed.

Lemma filter_due now path (times : list Z) :
  Forall (λ t, t + 100 ≤ now) times →
  filter (λ t : Z * string, t.1 ≤ now) ((λ t, (t + 100, path)) <$> times)
  = (λ t, (t + 100, path)) <$> times.
Proof.
  induction 1 as [|t times Ht _ IH]; [done|].
  cbn [fmap list_fmap]. rewrite filter_cons, decide_True by done.
  by rewrite IH.
Qed.

Lemma reloads_after_notifications
    (path : string) (times : list Z) (now : Z) (l : Loop) :
  m_autoReload (watcher l) = true →
  is_Some (m_engine (watcher l)) →
  timers l = [] →
  Forall (λ t, t + 100 ≤ now) times →
  reloads (console (processEvents qmlLoads now
                      (notifications fileExists path times l)))
  = (reloads (console l) + length times)%nat.
Proof.
  intros Ha He Ht Hdue.
  destruct (notifications_timers path times l Ha) as (Hts & Hr & He').
  rewrite Ht in Hts. cbn [app] in Hts.
  unfold processEvents. rewrite Hts, filter_due by done.
  edestruct foldl_fire_reloads as (-> & _); cbn [watcher console].
  - by rewrite He'.
  - by rewrite Hr, length_fmap.
Qed.

(** C1, as the code has it.  With auto-reload enabled and an engine to
    reload, [N] change notifications for a path produce [N] reloads once
    their timers have come due: [onFileChanged] starts a new single-shot
    timer for every notification and cancels none, so a burst inside the
    100 ms window is not coalesced into one reload. *)
Theorem every_notification_reloads
    (path : string) (times : list Z) (now : Z) (l : Loop) :
  m_autoReload (watcher l) = true →
  is_Some (m_engine (watcher l)) →
  timers l = [] →
  Forall (λ t, t + 100 ≤ now) times →
  reloads (console (processEvents qmlLoads now
                      (notifications fileExists path times l)))
  = (reloads (console l) + length times)%nat.
Proof. apply reloads_after_notifications. Qed.

(** C8, as the code has it.  A reload whose document does not load
    yields no root object: once the timer's callback has returned and the
    deferred deletions are done, the engine has none.  [reloadQml]
    prints the failure only when the engine had no root object before;
    when it had one, the old roots, scheduled for deletion but still
    listed, make the check pass, and the call prints the completion and
    no failure.  Either way the call returns with
    [isAutoReloadEnabled()], the watched paths and the timers unchanged,
    and the next change notification still leads to a reload: with
    auto-reload enabled it starts a timer, and when that timer fires
    [reloadQml] runs again. *)
Theorem failed_reload_is_reported_only_without_old_roots
    (now d : Z) (path : string) (l : Loop) (e : QQmlApplicationEngine) :
  m_engine (watcher l) = Some e →
  qmlLoads now path = false →
  (∃ e', m_engine (watcher (fire qmlLoads now l (d, path))) = Some e' ∧
         rootObjects e' = []) ∧
  (rootObjects e = [] →
   logs_failure (reloadQml qmlLoads now path (watcher l)).2 ∧
   ¬ logs_complete (reloadQml qmlLoads now path (watcher l)).2) ∧
  (rootObjects e ≠ [] →
   logs_complete (reloadQml qmlLoads now path (watcher l)).2 ∧
   ¬ logs_failure (reloadQml qmlLoads now path (watcher l)).2) ∧
  console (fire qmlLoads now l (d, path)) =
    console l ++ (reloadQml qmlLoads now path (watcher l)).2 ∧
  isAutoReloadEnabled (watcher (fire qmlLoads now l (d, path)))
    = isAutoReloadEnabled (watcher l) ∧
  m_watcher (watcher (fire qmlLoads now l (d, path))) = m_watcher (watcher l) ∧
  timers (fire qmlLoads now l (d, path)) = timers l ∧
  (∀ t p,
     isAutoReloadEnabled (watcher l) = true →
     timers l = [] →
     reloads (console (processEvents qmlLoads (t + 100)
                (onFileChanged fileExists t p (fire qmlLoads now l (d, path)))))
     = S (reloads (console (fire qmlLoads now l (d, path))))).
Proof.
  intros He Hl.
  destruct (fire_reloads now l (d, path)) as (_ & He' & Ha & Hw & Ht); [eauto|].
  destruct (reloadQml_output qmlLoads now path (watcher l) e He) as [Hfail Hok].
  split_and!; [|by auto|by auto|done|done|done|done|].
  - unfold fire. cbn [watcher m_engine snd].
    rewrite (reloadQml_engine_state qmlLoads now path (watcher l) e He), Hl.
    cbn. eexists. split; [done|]. cbn. apply filter_not_in_app.
  - intros t p Hen Hts. unfold isAutoReloadEnabled in Hen.
    pose proof (reloads_after_notifications p [t] (t + 100)
                  (fire qmlLoads now l (d, path))) as H.
    unfold notifications in H. cbn [foldl length] in H.
    rewrite H; [lia|congruence|done|congruence|].
    by repeat constructor.
Qed.
End WatcherSpec.

Section BridgeSpec.
Import Qt Engine ListModel Bridge.

Lemma createModel_existing (g : Globals) (modelName : option string) (model : nat) :
  g_models g !! jstringToStdString modelName = Some model →
  (createModel modelName g).1 = g.
Proof.
  intros Hm. unfold createModel. rewrite Hm.
  by destruct (g_engine g) as [e|].
Qed.

(** Calling [createModel] twice with a name leaves the globals as calling
    it once does. *)
Lemma createModel_twice (g : Globals) (modelName : option string) :
  (createModel modelName (createModel modelName g).1).1 = (createModel modelName g).1.
Proof.
  unfold createModel at 2 3.
  destruct (g_engine g) as [e|] eqn:E.
  - case_bool_decide as Hx.
    + destruct Hx as [model Hx]. cbn [fst].
      by apply createModel_existing with model.
    + cbn [fst]. eapply createModel_existing.
      cbn. apply lookup_insert_eq.
  - cbn [fst]. unfold createModel. by rewrite E.
Qed.

(** C10.  When [g_models] already has a model under the name,
    [createModel] changes none of the globals: no model is allocated, the
    registry and the context properties stay as they are, and the existing
    instance (its rows, its row count, its FieldId table) is the same
    object with the same contents.  With the engine initialised the call
    prints that the model already exists. *)
Theorem createModel_existing_is_a_logged_no_op
    (g : Globals) (modelName : option string) (model : nat) :
  g_models g !! jstringToStdString modelName = Some model →
  (createModel modelName g).1 = g ∧
  g_models (createModel modelName g).1 = g_models g ∧
  heap (createModel modelName g).1 !! model = heap g !! model ∧
  next_address (createModel modelName g).1 = next_address g ∧
  (createModel modelName g).2 ≠ [] ∧
  (is_Some (g_engine g) →
   (createModel modelName g).2 =
     [Log Out ("[CPP] Creating list model: " +:+ jstringToStdString modelName);
      Log Out ("[CPP] Model already exists: " +:+ jstringToStdString modelName)]).
Proof.
  intros Hm. rewrite (createModel_existing g modelName model Hm).
  split_and!; try done.
  - unfold createModel. rewrite Hm. by destruct (g_engine g).
  - intros [e He]. unfold createModel. by rewrite Hm, He.
Qed.
End BridgeSpec.

(** * Concrete instances *)

Section Instances.
Import Qt Jni Engine Scenarios.

Lemma field_ids_witness :
  ListModel.table_is ["name"; "age"; "city"]
    (ListModel.run session ListModel.create) ∧
  ListModel.fields_in_order
    (JObject (<["name" := JString "y"]> {["age" := JDouble 3]})) ["age"; "name"].
Proof.
  assert (ListModel.FieldId (length (ListModel.first_seen []
            (concat (ListModel.call_fields <$> session)))) ≤ INT_MAX) as Hb
    by (by vm_compute).
  destruct (field_ids_first_seen_and_stable session Hb) as (Ht & Hf & _).
  split; [exact Ht|].
  exact (Hf (JObject (<["name" := JString "y"]> {["age" := JDouble 3]}))).
Defined.

Lemma rejected_payload_witness :
  (ListModel.setJsonData DocNull (ListModel.run [ListModel.SetData people] ListModel.create)).1
  = ListModel.run [ListModel.SetData people] ListModel.create.
Proof.
  exact (proj1 (setJsonData_rejects_non_array DocNull
                  (ListModel.run [ListModel.SetData people] ListModel.create)
                  eq_refl)).
Defined.

Lemma get_witness :
  ListModel.get (ListModel.run [ListModel.SetData people] ListModel.create) 1 "age"
  = Some (VDouble 3).
Proof.
  assert (ListModel.FieldId (length (ListModel.first_seen []
            (concat (ListModel.call_fields <$> [ListModel.SetData people]))))
          ≤ INT_MAX) as Hb by (by vm_compute).
  destruct (get_is_total_and_reads_named_fields
              [ListModel.SetData people] 1 "age" Hb) as (_ & _ & _ & _ & H).
  refine (H (<["name" := VString "y"]> {["age" := VDouble 3]}) _ _ _ _).
  - lia.
  - by vm_compute.
  - exists 258. by vm_compute.
  - discriminate.
Defined.

Lemma forwarder_fresh : Forwarder.fresh forwarder.
Proof.
  split_and!; [by vm_compute..|]. unfold forwarder. cbn.
  apply map_Forall_insert_2; [vm_compute; lia|apply map_Forall_empty].
Qed.

(** The runs of the examples are defined. *)
Lemma runs_defined :
  Forwarder.run (take 2 registrations) forwarder
    = Some (after (take 2 registrations) forwarder) ∧
  Forwarder.run (take 3 registrations) forwarder
    = Some (after (take 3 registrations) forwarder).
Proof. split; by vm_compute. Qed.

Lemma detached_run_defined :
  Forwarder.run (take 1 registrations) MoreScenarios.detached_forwarder
    = Some (after (take 1 registrations) MoreScenarios.detached_forwarder).
Proof. by vm_compute. Qed.

Lemma dangling_handle_witness :
  ∃ s',
    Forwarder.registerHandler "clicked" (Some 4%nat) false
      (after (take 2 registrations) forwarder) =
      Some (false, [s'],
            [Log Out "[CPP] Registering signal handler: clicked";
             Log Out "[CPP] Replacing existing handler for: clicked";
             Log Err "[CPP] ERROR: Failed to create GlobalRef for handler"]) ∧
    Forwarder.m_handlers (Forwarder.fwd s') !! "clicked" = Some 2%nat ∧
    globals (Forwarder.vm s') !! 2%nat = None ∧
    Forwarder.registerHandler "clicked" (Some 4%nat) true s' = None ∧
    Forwarder.unregisterHandler "clicked" s' = None.
Proof.
  destruct (proj1 (proj2 (failed_replacement_leaves_an_unpinned_handle forwarder
                            (take 2 registrations) forwarder_fresh))
              (after (take 2 registrations) forwarder) "clicked" 2%nat 2%nat 4%nat)
    as (s' & H1 & H2 & H3 & _ & H5 & H6).
  - exact (proj1 runs_defined).
  - by vm_compute.
  - by vm_compute.
  - exists s'. split_and!; [exact H1|exact H2|exact H3|exact (H5 4%nat true)|exact H6].
Defined.

Lemma emit_unregistered_witness :
  Forwarder.emitSignal quiet number_text "clicked" [VString "a"; VString "b"] forwarder
  = Some (forwarder,
          [Log Out "[CPP] Signal emitted: clicked with 2 arguments";
           Log Out "[CPP] No handler registered for signal: clicked"]).
Proof.
  exact (emit_without_handler_is_a_logged_no_op quiet number_text forwarder
           "clicked" [VString "a"; VString "b"] eq_refl).
Defined.

Lemma handler_fault_witness :
  ∃ s' out,
    Forwarder.emitSignal throwing number_text "moved" [VBool true]
      (after (take 3 registrations) forwarder) = Some (s', out) ∧
    pending (Forwarder.vm s') = None ∧
    Log Err "[CPP] ERROR: Exception occurred in Java handler!" ∈ out.
Proof.
  destruct (handler_fault_is_logged_and_cleared throwing number_text
              (after (take 3 registrations) forwarder)
              "moved" [VBool true] 3%nat 3%nat "java.lang.IllegalStateException")
    as (s' & out & H1 & H2 & H3 & _).
  - by vm_compute.
  - by vm_compute.
  - by vm_compute.
  - left. by vm_compute.
  - by vm_compute.
  - exists s', out. auto.
Defined.

Lemma burst_witness :
  Watcher.reloads
    (Watcher.console
       (Watcher.processEvents loads 1120
          (Watcher.notifications present "Main.qml" [1000; 1020] running)))
  = 2%nat.
Proof.
  refine (every_notification_reloads present loads "Main.qml" [1000; 1020] 1120
            running _ _ _ _).
  - by vm_compute.
  - vm_compute. eauto.
  - by vm_compute.
  - repeat constructor; lia.
Defined.

Lemma unreported_failure_witness :
  Watcher.logs_complete
    (Watcher.reloadQml broken 1100 "Main.qml" (Watcher.watcher running)).2 ∧
  ¬ Watcher.logs_failure
      (Watcher.reloadQml broken 1100 "Main.qml" (Watcher.watcher running)).2 ∧
  (rootObjects <$>
     Watcher.m_engine (Watcher.watcher
       (Watcher.fire broken 1100 running (1100, "Main.qml")))) = Some [] ∧
  Watcher.isAutoReloadEnabled
    (Watcher.watcher (Watcher.fire broken 1100 running (1100, "Main.qml"))) = true.
Proof.
  destruct (failed_reload_is_reported_only_without_old_roots present broken
              1100 1100 "Main.qml" running (Engine.load true "Main.qml" Engine.create))
    as ((e' & He' & Hr) & _ & H3 & _ & H5 & _).
  - by vm_compute.
  - by vm_compute.
  - destruct H3 as [Hc Hf]; [by vm_compute|].
    split_and!; [exact Hc|exact Hf|by rewrite He'; cbn; rewrite Hr|by rewrite H5].
Defined.

Lemma createModel_witness :
  (Bridge.createModel (Some "people") with_people).1 = with_people.
Proof.
  refine (proj1 (createModel_existing_is_a_logged_no_op with_people
                   (Some "people") 0%nat _)).
  by vm_compute.
Defined.

(** C2, as first stated, fails for a record whose text does not write its
    field names in ascending order: [[{"name":"y","age":3}]] meets "name"
    first and "age" second, yet on a new model "age" gets the first
    FieldId and "name" the second, because the record reaches
    [updateRoleNames] as a [QVariantMap], which is walked in key order. *)
Lemma first_seen_order_counterexample :
  ListModel.first_seen [] (ListModel.written_fields one_person) = ["name"; "age"] ∧
  ListModel.m_roleIds
    (ListModel.run [ListModel.SetData (ListModel.fromJson one_person)] ListModel.create)
    !! "age" = Some (ListModel.FieldId 0) ∧
  ListModel.m_roleIds
    (ListModel.run [ListModel.SetData (ListModel.fromJson one_person)] ListModel.create)
    !! "name" = Some (ListModel.FieldId 1) ∧
  ¬ ListModel.table_is
      (ListModel.first_seen [] (ListModel.written_fields one_person))
      (ListModel.run [ListModel.SetData (ListModel.fromJson one_person)] ListModel.create).
Proof.
  split_and!; [by vm_compute..|].
  intros (_ & H & _).
  assert (ListModel.m_roleIds
            (ListModel.run [ListModel.SetData (ListModel.fromJson one_person)]
               ListModel.create) !! "name" = Some (ListModel.FieldId 0)) as Hn.
  { apply H. by exists 0%nat. }
  vm_compute in Hn. discriminate.
Qed.

(** The key order is that of the code units, not of the bytes: U+1F600
    (first unit D83D) is visited before U+FB01, although its first byte
    (F0) is the larger one. *)
Example keys_in_code_unit_order :
  keys ({[ligature := 1; emoji := 2]} : gmap string Z) = [emoji; ligature] ∧
  ListModel.m_roleIds
    (ListModel.run
       [ListModel.SetData
          (DocArray [JObject {[ligature := JDouble 1; emoji := JDouble 2]}])]
       ListModel.create)
    = {[emoji := 257; ligature := 258]} ∧
  String.leb ligature emoji = true.
Proof. split_and!; by vm_compute. Qed.

(** C9, as first stated, fails for the field name that is empty: the
    record [{"":1}] gives the empty name the FieldId 257 and row 0 stores
    the number 1 under it, yet reading row 0 by that name gives the invalid
    [QVariant], because [data] takes an empty role name for an unknown
    role. *)
Lemma get_empty_name_counterexample :
  0 ≤ 0 < ListModel.count (ListModel.run [ListModel.SetData unnamed] ListModel.create) ∧
  ListModel.m_roleIds (ListModel.run [ListModel.SetData unnamed] ListModel.create) !! ""
    = Some 257 ∧
  ListModel.m_items (ListModel.run [ListModel.SetData unnamed] ListModel.create) !! 0%nat
    = Some {["" := VDouble 1]} ∧
  ListModel.get (ListModel.run [ListModel.SetData unnamed] ListModel.create) 0 ""
    = Some Invalid.
Proof. split_and!; by vm_compute. Qed.

(** [setData([{"name":"x"},{"name":"y","age":3}])]: "name" gets the first
    id, "age" the second, and there are two rows. *)
Example people_roles :
  ListModel.m_roleIds (ListModel.run [ListModel.SetData people] ListModel.create)
    = {["name" := 257; "age" := 258]} ∧
  ListModel.count (ListModel.run [ListModel.SetData people] ListModel.create) = 2.
Proof. split; by vm_compute. Qed.

End Instances.

(** * More properties of the code *)

Section ListModelMore.
Import Qt ListModel.

Lemma updateRoleNames_key_grows st k :
  m_roleIds st.1 ⊆ m_roleIds (updateRoleNames_key st k).1 ∧
  is_Some (m_roleIds (updateRoleNames_key st k).1 !! k).
Proof.
  unfold updateRoleNames_key, toUtf8.
  destruct (m_roleIds st.1 !! k) as [id|] eqn:E; cbn.
  - split; [done|]. rewrite E. eauto.
  - split; [by apply insert_subseteq|]. rewrite lookup_insert_eq. eauto.
Qed.

Lemma foldl_updateRoleNames_key_grows l : ∀ st,
  m_roleIds st.1 ⊆ m_roleIds (foldl updateRoleNames_key st l).1 ∧
  ∀ k, k ∈ l → is_Some (m_roleIds (foldl updateRoleNames_key st l).1 !! k).
Proof.
  induction l as [|x l IH]; intros st; cbn [foldl].
  - split; [done|]. by intros k ?%elem_of_nil.
  - destruct (updateRoleNames_key_grows st x) as [Hs Hx].
    destruct (IH (updateRoleNames_key st x)) as [Hs' Hl]. split; [by etrans|].
    intros k [->|Hk]%elem_of_cons; [|by apply Hl].
    destruct Hx as [id Hid]. exists id. by eapply lookup_weaken.
Qed.

Lemma setJsonData_value_grows st v :
  m_roleIds st.2.1 ⊆ m_roleIds (setJsonData_value st v).2.1 ∧
  ∀ k, k ∈ record_fields v → is_Some (m_roleIds (setJsonData_value st v).2.1 !! k).
Proof.
  destruct v; cbn; try (split; [done|by intros k ?%elem_of_nil]).
  unfold updateRoleNames. rewrite toItem_fmap, keys_fmap.
  apply foldl_updateRoleNames_key_grows.
Qed.

Lemma foldl_setJsonData_value_grows a : ∀ st,
  m_roleIds st.2.1 ⊆ m_roleIds (foldl setJsonData_value st a).2.1 ∧
  ∀ k, k ∈ concat (record_fields <$> a) →
       is_Some (m_roleIds (foldl setJsonData_value st a).2.1 !! k).
Proof.
  induction a as [|v a IH]; intros st; cbn [foldl fmap list_fmap concat].
  - split; [done|]. by intros k ?%elem_of_nil.
  - destruct (setJsonData_value_grows st v) as [Hs Hv].
    destruct (IH (setJsonData_value st v)) as [Hs' Ha]. split; [by etrans|].
    intros k [Hk|Hk]%elem_of_app; [|by apply Ha].
    destruct (Hv k Hk) as [id Hid]. exists id. by eapply lookup_weaken.
Qed.

(** X1.  Whatever the model and whatever the call (a [setData] with any
    document, or [clear]), every name that had a FieldId keeps that very
    id, and after the call every field name of the payload's object-shaped
    records has one.  No assumption on the counter is needed for this:
    [updateRoleNames] only inserts under names [m_roleIds] does not
    contain. *)
Theorem role_ids_are_never_overwritten (m : JvmListModel) (c : call) :
  m_roleIds m ⊆ m_roleIds (step m c) ∧
  (∀ name, name ∈ call_fields c → is_Some (m_roleIds (step m c) !! name)).
Proof.
  destruct c as [[| a |]|]; cbn; try (split; [done|by intros k ?%elem_of_nil]).
  apply (foldl_setJsonData_value_grows a ([], (m, _))).
Qed.

Lemma elem_of_rows_of a row :
  row ∈ rows_of a ↔ ∃ obj, JObject obj ∈ a ∧ row = toVariant <$> obj.
Proof.
  unfold rows_of. rewrite list_elem_of_omap. split.
  - intros (v & Hv & Hrow). destruct v; try done. simplify_eq. eauto.
  - intros (obj & Hobj & ->). exists (JObject obj). done.
Qed.

Lemma rows_of_fields a row name v :
  row ∈ rows_of a → row !! name = Some v → name ∈ concat (record_fields <$> a).
Proof.
  intros (obj & Hobj & ->)%elem_of_rows_of Hv.
  apply list_elem_of_In, in_concat. exists (record_fields (JObject obj)). split.
  - apply list_elem_of_In, list_elem_of_fmap. eauto.
  - apply list_elem_of_In. cbn. apply elem_of_keys.
    rewrite lookup_fmap in Hv. destruct (obj !! name); [eauto|done].
Qed.

Lemma setJsonData_items a m : m_items (setJsonData (DocArray a) m).1 = rows_of a.
Proof. cbn. by rewrite foldl_setJsonData_value_rows. Qed.

(** X2.  What [setData] stores, the view reads back: after any earlier
    calls and then [setData] on an array, the value a row of the payload
    has under a non-empty field name is what reading that row by that name
    gives (rows are counted over the object-shaped records; the counter is
    assumed to stay within [int]). *)
Theorem setData_then_get_reads_the_payload
    (cs : list call) (a : list QJsonValue) (r : nat)
    (row : gmap string QVariant) (name : string) (v : QVariant) :
  FieldId (length (first_seen []
     (concat (call_fields <$> cs ++ [SetData (DocArray a)])))) ≤ INT_MAX →
  rows_of a !! r = Some row →
  row !! name = Some v →
  name ≠ "" →
  get (run (cs ++ [SetData (DocArray a)]) create) (Z.of_nat r) name = Some v.
Proof.
  intros Hb Hrow Hv Hne.
  pose proof (reachable_table _ Hb) as Ht.
  set (m := run (cs ++ [SetData (DocArray a)]) create) in *.
  assert (m_items m = rows_of a) as Hitems.
  { unfold m. rewrite run_app. apply setJsonData_items. }
  assert (is_Some (m_roleIds m !! name)) as [id Hid].
  { eapply table_is_known; [done|]. apply elem_of_first_seen. right.
    rewrite fmap_app, concat_app. apply elem_of_app. right. cbn.
    rewrite app_nil_r. eapply rows_of_fields; [|done].
    by eapply list_elem_of_lookup_2. }
  unfold get. rewrite (roleForName_table _ m name Ht), Hid.
  rewrite index_in_range.
  - rewrite (data_valid_row _ _ _ row); [|lia|by rewrite Nat2Z.id, Hitems].
    destruct Ht as (_ & _ & Hnames). apply Hnames in Hid. rewrite Hid.
    unfold isEmpty, fromUtf8. rewrite bool_decide_eq_false_2 by done.
    by rewrite Hv.
  - unfold count. rewrite Hitems. apply lookup_lt_Some in Hrow. lia.
Qed.

(** X3.  On every model a sequence of calls leads to, [data] answers the
    invalid [QVariant] for every role below [Qt::UserRole + 1] (the roles
    Qt itself defines, [Qt::DisplayRole] among them) and for every role
    from [m_nextRoleId] on, whatever the index. *)
Theorem roles_outside_the_table_read_invalid
    (cs : list call) (idx : QModelIndex) (role : Z) :
  FieldId (length (first_seen [] (concat (call_fields <$> cs)))) ≤ INT_MAX →
  role < UserRole + 1 ∨ m_nextRoleId (run cs create) ≤ role →
  data (run cs create) idx role = Some Invalid.
Proof.
  intros Hb Hrole. pose proof (reachable_table _ Hb) as (Hnext & Hids & Hnames).
  set (m := run cs create) in *.
  assert (m_roleNames m !! role = None) as Hnone.
  { destruct (m_roleNames m !! role) as [name|] eqn:E; [exfalso|done].
    apply Hnames, Hids in E as (i & Hi & ->). apply lookup_lt_Some in Hi.
    rewrite Hnext in Hrole. unfold FieldId in *. lia. }
  destruct (data_total m idx role) as [v Hv]. revert Hv. unfold data.
  destruct (negb _ || _); [done|].
  destruct (m_items m !! _); [|done]. cbn. by rewrite Hnone.
Qed.

Lemma getRoleId_known roleName m id :
  m_roleIds m !! roleName = Some id → getRoleId roleName m = (id, m, []).
Proof. intros E. unfold getRoleId. by rewrite E. Qed.

Lemma getRoleId_unknown roleName m :
  m_roleIds m !! roleName = None →
  getRoleId roleName m =
    (m_nextRoleId m,
     {| m_items := m_items m;
        m_roleNames := <[m_nextRoleId m := roleName]> (m_roleNames m);
        m_roleIds := <[roleName := m_nextRoleId m]> (m_roleIds m);
        m_nextRoleId := wrap_int (m_nextRoleId m + 1) |},
     [Log Debug ("[CPP] Auto-registered role: " +:+ roleName)]).
Proof. intros E. unfold getRoleId. by rewrite E. Qed.

(** X4.  [getRoleId] finds or registers: afterwards the name has the id
    it returned; asking again returns the same id, changes nothing and
    prints nothing; no other name's id changes; for a name that had an id
    the model is left as it was; and for a new name the id is the counter's
    value, [m_roleNames] maps it back to the name, and the rows are
    untouched. *)
Theorem getRoleId_finds_or_registers (roleName : string) (m : JvmListModel) :
  m_roleIds (getRoleId roleName m).1.2 !! roleName = Some (getRoleId roleName m).1.1 ∧
  getRoleId roleName (getRoleId roleName m).1.2
    = ((getRoleId roleName m).1.1, (getRoleId roleName m).1.2, []) ∧
  m_roleIds m ⊆ m_roleIds (getRoleId roleName m).1.2 ∧
  (is_Some (m_roleIds m !! roleName) → (getRoleId roleName m).1.2 = m) ∧
  (m_roleIds m !! roleName = None →
     (getRoleId roleName m).1.1 = m_nextRoleId m ∧
     m_roleNames (getRoleId roleName m).1.2 !! m_nextRoleId m = Some roleName ∧
     m_items (getRoleId roleName m).1.2 = m_items m).
Proof.
  destruct (m_roleIds m !! roleName) as [id|] eqn:E.
  - rewrite !(getRoleId_known roleName m id E). cbn [fst snd].
    rewrite (getRoleId_known roleName m id E). split_and!; try done.
  - rewrite !(getRoleId_unknown roleName m E). cbn [fst snd].
    split_and!; cbn.
    + apply lookup_insert_eq.
    + erewrite getRoleId_known; [done|]. cbn. apply lookup_insert_eq.
    + by apply insert_subseteq.
    + by intros [? ?].
    + intros _. split_and!; [done|apply lookup_insert_eq|done].
Qed.

End ListModelMore.

Section ListModelRows.
Import Qt ListModel.

(** A model with other rows. *)
Lemma updateRoleNames_key_with_items items st k :
  (updateRoleNames_key
     ({| m_items := items; m_roleNames := m_roleNames st.1;
         m_roleIds := m_roleIds st.1; m_nextRoleId := m_nextRoleId st.1 |}, st.2) k)
  = ({| m_items := items;
        m_roleNames := m_roleNames (updateRoleNames_key st k).1;
        m_roleIds := m_roleIds (updateRoleNames_key st k).1;
        m_nextRoleId := m_nextRoleId (updateRoleNames_key st k).1 |},
     (updateRoleNames_key st k).2).
Proof.
  unfold updateRoleNames_key. cbn. by destruct (m_roleIds st.1 !! toUtf8 k).
Qed.

Lemma foldl_updateRoleNames_key_with_items items l : ∀ st,
  foldl updateRoleNames_key
     ({| m_items := items; m_roleNames := m_roleNames st.1;
         m_roleIds := m_roleIds st.1; m_nextRoleId := m_nextRoleId st.1 |}, st.2) l
  = ({| m_items := items;
        m_roleNames := m_roleNames (foldl updateRoleNames_key st l).1;
        m_roleIds := m_roleIds (foldl updateRoleNames_key st l).1;
        m_nextRoleId := m_nextRoleId (foldl updateRoleNames_key st l).1 |},
     (foldl updateRoleNames_key st l).2).
Proof.
  induction l as [|k l IH]; intros st; [done|]. cbn [foldl].
  rewrite updateRoleNames_key_with_items.
  apply (IH (updateRoleNames_key st k)).
Qed.

Lemma foldl_setJsonData_value_with_items items a : ∀ rows st,
  foldl setJsonData_value
     (rows, ({| m_items := items; m_roleNames := m_roleNames st.1;
                m_roleIds := m_roleIds st.1; m_nextRoleId := m_nextRoleId st.1 |},
             st.2)) a
  = ((foldl setJsonData_value (rows, st) a).1,
     ({| m_items := items;
         m_roleNames := m_roleNames (foldl setJsonData_value (rows, st) a).2.1;
         m_roleIds := m_roleIds (foldl setJsonData_value (rows, st) a).2.1;
         m_nextRoleId := m_nextRoleId (foldl setJsonData_value (rows, st) a).2.1 |},
      (foldl setJsonData_value (rows, st) a).2.2)).
Proof.
  induction a as [|v a IH]; intros rows st; [done|]. cbn [foldl].
  destruct v; cbn [setJsonData_value fst snd];
    try apply (IH rows (st.1, _)).
  unfold updateRoleNames. rewrite foldl_updateRoleNames_key_with_items.
  rewrite (IH _ (foldl updateRoleNames_key st _)).
  by destruct (foldl updateRoleNames_key st _).
Qed.

(** X5.  [setData] on an array does not look at the rows it replaces:
    the resulting model is the same whatever rows the model held before,
    so [clear()] followed by [setData(P)] leaves the model exactly as
    [setData(P)] alone does. *)
Theorem setData_ignores_the_rows_it_replaces
    (a : list QJsonValue) (m : JvmListModel) :
  (∀ items,
     (setJsonData (DocArray a)
        {| m_items := items; m_roleNames := m_roleNames m;
           m_roleIds := m_roleIds m; m_nextRoleId := m_nextRoleId m |}).1
     = (setJsonData (DocArray a) m).1) ∧
  (setJsonData (DocArray a) (clear m).1).1 = (setJsonData (DocArray a) m).1.
Proof.
  assert (∀ items,
     (setJsonData (DocArray a)
        {| m_items := items; m_roleNames := m_roleNames m;
           m_roleIds := m_roleIds m; m_nextRoleId := m_nextRoleId m |}).1
     = (setJsonData (DocArray a) m).1) as H.
  { intros items. cbn [setJsonData fst].
    pose proof (foldl_setJsonData_value_with_items items a []
      (m, [Log Debug "[CPP] JvmListModel::setJsonData called";
           Log Debug "[CPP] JSON data length:"] ++
          [Log Debug "[CPP] Parsed"])) as H.
    cbn [fst snd] in H. by rewrite H. }
  split; [done|]. apply (H []).
Qed.

Lemma foldl_setJsonData_value_no_objects a : ∀ st,
  object_records a = 0%nat →
  (foldl setJsonData_value st a).1 = st.1 ∧
  (foldl setJsonData_value st a).2.1 = st.2.1.
Proof.
  induction a as [|v a IH]; intros st H0; [done|]. cbn [foldl].
  unfold object_records in H0. rewrite filter_cons in H0.
  destruct (isObject v) eqn:Ev.
  - rewrite decide_True in H0 by done. done.
  - rewrite decide_False in H0 by done.
    assert (setJsonData_value st v =
            (st.1, (st.2.1, st.2.2 ++
               [Log Warning "[CPP] WARNING: Skipping non-object item"]))) as ->
      by (by destruct v).
    by destruct (IH (st.1, (st.2.1, st.2.2 ++
      [Log Warning "[CPP] WARNING: Skipping non-object item"])) H0) as [-> ->].
Qed.

(** X6.  An array without any object-shaped record (the empty array
    among them) empties the model and leaves the FieldId table alone: the
    result is the model [clear()] gives, and [count()] is 0. *)
Theorem payload_without_objects_clears (a : list QJsonValue) (m : JvmListModel) :
  object_records a = 0%nat →
  (setJsonData (DocArray a) m).1 = (clear m).1 ∧
  count (setJsonData (DocArray a) m).1 = 0.
Proof.
  intros H0. cbn [setJsonData fst clear].
  destruct (foldl_setJsonData_value_no_objects a
    ([], (m, [Log Debug "[CPP] JvmListModel::setJsonData called";
              Log Debug "[CPP] JSON data length:"] ++
             [Log Debug "[CPP] Parsed"])) H0) as [-> ->].
  done.
Qed.
End ListModelRows.

Section ForwarderMore.
Import Qt Jni Forwarder ForwarderEnd.

(** X7.  On a virtual machine whose live references are below the next
    one it hands out, the constructor leaves a forwarder that has
    registered nothing (the starting point of C3), whatever the lookups
    give; and the handler method id is non-null exactly when the thread
    has an environment, the class is found and the method is found. *)
Theorem constructor_state_is_fresh
    (jvm : JavaVM) (cls : option JavaObject) (method_found : bool) :
  map_Forall (λ g _, (g < next_global jvm)%nat) (globals jvm) →
  fresh (new jvm cls method_found).1 ∧
  (is_Some (m_handleMethod (fwd (new jvm cls method_found).1)) ↔
   env jvm = JNI_OK ∧ is_Some cls ∧ method_found = true).
Proof.
  intros Hwf. unfold new.
  assert (map_Forall (λ g _, (g < S (next_global jvm))%nat) (globals jvm)) as Hwf'.
  { intros g x Hg. specialize (Hwf g x Hg). cbn in *. lia. }
  case_bool_decide as Henv; cbn [negb].
  - destruct cls as [c|]; [destruct method_found|]; cbn.
    + split; [|split; [intros _; eauto|eauto]].
      split_and!; [done..|]. cbn. apply map_Forall_insert_2; [lia|done].
    + split; [|split; [by intros [? ?]|by intros (_ & _ & ?)]].
      split_and!; [done..|]. cbn. apply map_Forall_insert_2; [lia|done].
    + split; [done|]. split; [by intros [? ?]|by intros (_ & [? ?] & _)].
  - cbn. split; [done|]. split; [by intros [? ?]|by intros (? & _)].
Qed.

(** The constructor leaves the class reference, when it made one, live. *)
Lemma new_class_pinned (jvm : JavaVM) (cls : option JavaObject) (method_found : bool) :
  class_pinned (new jvm cls method_found).1.
Proof.
  unfold new. case_bool_decide; cbn [negb]; [|by intros c [=]].
  destruct cls as [c|]; [|by intros c' [=]].
  destruct method_found; intros c' [= <-]; cbn;
    (split; [rewrite lookup_insert_eq; eauto|done]).
Qed.


Lemma callJavaHandler_call_None handler_throws name ref args s out :
  callJavaHandler_call handler_throws name ref args s out = None ↔
  globals (vm s) !! ref = None ∨ m_handleMethod (fwd s) = None.
Proof.
  unfold callJavaHandler_call.
  destruct (globals (vm s) !! ref) as [obj|]; cbn; [|by split; eauto].
  destruct (m_handleMethod (fwd s)) as [mid|]; cbn; [|by split; eauto].
  destruct (ExceptionCheck _); split; try done; by intros [?|?].
Qed.

(** X8.  [emitSignal] goes through a deleted reference or a null method
    id, which JNI leaves undefined, exactly when a handler is registered
    under the name, the thread can get an environment, and either the
    registered reference is no longer live or the constructor did not
    resolve the handler method.  In every other case it returns. *)
Theorem emit_is_undefined_exactly_when
    (handler_throws : JavaObject → list string → option Throwable)
    (number_toString : Z → string)
    (s : State) (name : string) (args : list QVariant) :
  emitSignal handler_throws number_toString name args s = None ↔
  ∃ ref, m_handlers (fwd s) !! name = Some ref ∧
         can_call (vm s) ∧
         (globals (vm s) !! ref = None ∨ m_handleMethod (fwd s) = None).
Proof.
  unfold emitSignal, callJavaHandler, toStdString, can_call.
  destruct (m_handlers (fwd s) !! name) as [ref|] eqn:E; cbn.
  - destruct (env (vm s)) eqn:Henv.
    + rewrite bind_None. setoid_rewrite callJavaHandler_call_None. split.
      * intros [H|(? & ? & ?)]; [|done]. exists ref. eauto.
      * intros (ref' & [= <-] & _ & H). by left.
    + destruct (attachable (vm s)) eqn:Hatt.
      * rewrite bind_None. setoid_rewrite callJavaHandler_call_None. cbn. split.
        -- intros [H|(? & ? & ?)]; [|done]. exists ref. eauto.
        -- intros (ref' & [= <-] & _ & H). by left.
      * cbn. split; [done|]. intros (? & _ & [?|[_ ?]] & _); done.
    + cbn. split; [done|]. intros (? & _ & [?|[? _]] & _); done.
    + cbn. split; [done|]. intros (? & _ & [?|[? _]] & _); done.
  - split; [done|]. by intros (? & ? & _).
Qed.

(** X9.  From a forwarder that has registered nothing, as long as the
    virtual machine never fails to make a global reference, no call hands
    [DeleteGlobalRef] a dead reference (the run is defined) and every
    entry of the table is a live reference that pins the handler it was
    made from. *)
Theorem handlers_stay_pinned_without_allocation_failure
    (s0 : State) (cs : list call) :
  fresh s0 →
  Forall (λ c, allocates c = true) cs →
  ∃ s, run cs s0 = Some s ∧
       ∀ name g, m_handlers (fwd s) !! name = Some g →
                 ∃ obj, globals (vm s) !! g = Some obj ∧
                        made_for s !! g = Some (name, obj).
Proof.
  intros Hf Hal.
  destruct (run_keeps_pinned cs s0 (fresh_consistent s0 Hf)
              (fresh_all_pinned s0 Hf) Hal) as (s & Hr & Hc & Hp).
  exists s. split; [done|]. intros name g Hg.
  destruct Hc as (_ & _ & H3 & H4).
  destruct (H3 _ _ Hg) as [obj Hm]. exists obj. split; [|done].
  by apply (H4 g name obj Hm), (Hp name).
Qed.




(** X11.  With a handler registered but no environment to be had
    ([GetEnv] fails otherwise than by "detached", or attaching fails),
    [emitSignal] calls nothing, leaves the state as it was and prints the
    error. *)
Theorem emit_without_environment_calls_nothing
    (handler_throws : JavaObject → list string → option Throwable)
    (number_toString : Z → string)
    (s : State) (name : string) (args : list QVariant) (ref : nat) :
  m_handlers (fwd s) !! name = Some ref →
  ¬ can_call (vm s) →
  ∃ out,
    emitSignal handler_throws number_toString name args s = Some (s, out) ∧
    (Log Err "[CPP] ERROR: Failed to attach thread to JVM" ∈ out ∨
     Log Err "[CPP] ERROR: Failed to get JNIEnv" ∈ out).
Proof.
  intros Href Hno. unfold can_call in Hno.
  unfold emitSignal, callJavaHandler, toStdString. rewrite Href.
  destruct (env (vm s)) eqn:Henv; [by destruct Hno; left| | |].
  - destruct (attachable (vm s)) eqn:Hatt; [by destruct Hno; right|].
    cbn. eexists. split; [done|]. left. rewrite !elem_of_cons. tauto.
  - cbn. eexists. split; [done|]. right. rewrite !elem_of_cons. tauto.
  - cbn. eexists. split; [done|]. right. rewrite !elem_of_cons. tauto.
Qed.




Lemma foldl_DeleteGlobalRef_None (l : list (string * nat)) :
  foldl (λ jvm pair, jvm ≫= DeleteGlobalRef pair.2) None l = None.
Proof. by induction l. Qed.

(** Deleting live, distinct references one after the other. *)
Lemma foldl_DeleteGlobalRef (l : list (string * nat)) : ∀ jvm,
  NoDup l.*2 →
  (∀ g, g ∈ l.*2 → is_Some (globals jvm !! g)) →
  ∃ jvm',
    foldl (λ jvm pair, jvm ≫= DeleteGlobalRef pair.2) (Some jvm) l = Some jvm' ∧
    (∀ g, globals jvm' !! g =
          if decide (g ∈ l.*2) then None else globals jvm !! g) ∧
    next_global jvm' = next_global jvm ∧ env jvm' = env jvm.
Proof.
  induction l as [|[n r] l IH]; intros jvm Hnd Hlive; cbn [foldl fmap list_fmap].
  - exists jvm. split_and!; [done| |done..].
    intros g. by rewrite decide_False by apply not_elem_of_nil.
  - cbn [snd mbind option_bind] in *. apply NoDup_cons in Hnd as [Hr Hnd].
    rewrite DeleteGlobalRef_live by (apply Hlive; left).
    destruct (IH (released r jvm) Hnd) as (jvm' & Hf & Hg & Hn & He).
    { intros g Hin. cbn. rewrite lookup_delete_ne by (by intros <-).
      apply Hlive. by right. }
    exists jvm'. split_and!; [done| |done..].
    intros g. rewrite Hg. cbn.
    destruct (decide (g ∈ l.*2)) as [Hin|Hin].
    + rewrite decide_True; [done|]. by right.
    + destruct (decide (g = r)) as [->|Hne].
      * rewrite decide_True by left. apply lookup_delete_eq.
      * rewrite decide_False; [by rewrite lookup_delete_ne|].
        by intros [?|?]%elem_of_cons.
Qed.

(** One dead reference among them makes the walk undefined. *)
Lemma foldl_DeleteGlobalRef_dead (l : list (string * nat)) : ∀ jvm g,
  g ∈ l.*2 → globals jvm !! g = None →
  foldl (λ jvm pair, jvm ≫= DeleteGlobalRef pair.2) (Some jvm) l = None.
Proof.
  induction l as [|[n r] l IH]; intros jvm g Hin Hd; cbn [foldl fmap list_fmap] in *.
  - by apply elem_of_nil in Hin.
  - cbn [snd mbind option_bind].
    destruct (DeleteGlobalRef r jvm) as [jvm1|] eqn:E;
      [|apply foldl_DeleteGlobalRef_None].
    apply DeleteGlobalRef_Some in E as [[o Ho] ->].
    cbn [snd] in Hin. apply elem_of_cons in Hin as [->|Hin]; [congruence|].
    apply (IH _ g Hin). cbn. rewrite lookup_delete_None. by right.
Qed.

(** Two deletions give the same in either order. *)
Lemma DeleteGlobalRef_commute (x y : nat) (jvm : option JavaVM) :
  (jvm ≫= DeleteGlobalRef x) ≫= DeleteGlobalRef y =
  (jvm ≫= DeleteGlobalRef y) ≫= DeleteGlobalRef x.
Proof.
  destruct jvm as [jvm|]; [|done]. cbn.
  destruct (decide (x = y)) as [->|Hne]; [done|].
  destruct (globals jvm !! x) as [ox|] eqn:Hx;
    destruct (globals jvm !! y) as [oy|] eqn:Hy.
  - rewrite !DeleteGlobalRef_live by eauto. cbn.
    rewrite !DeleteGlobalRef_live by (cbn; rewrite lookup_delete_ne; eauto).
    unfold released. cbn. by rewrite delete_delete.
  - rewrite (DeleteGlobalRef_dead y jvm) by done.
    rewrite DeleteGlobalRef_live by eauto. cbn.
    rewrite DeleteGlobalRef_dead; [done|].
    cbn. by rewrite lookup_delete_ne.
  - rewrite (DeleteGlobalRef_dead x jvm) by done.
    rewrite DeleteGlobalRef_live by eauto. cbn.
    rewrite DeleteGlobalRef_dead; [done|].
    cbn. by rewrite lookup_delete_ne.
  - by rewrite !DeleteGlobalRef_dead.
Qed.

(** So the walk over the table gives the same in every order. *)
Lemma walk_order_irrelevant (l1 l2 : list (string * nat)) :
  l1 ≡ₚ l2 →
  ∀ jvm, foldl (λ jvm pair, jvm ≫= DeleteGlobalRef pair.2) jvm l1 =
         foldl (λ jvm pair, jvm ≫= DeleteGlobalRef pair.2) jvm l2.
Proof.
  induction 1 as [|p l1 l2 _ IH|p q l|l1 l2 l3 _ IH1 _ IH2]; intros jvm;
    cbn [foldl].
  - done.
  - apply IH.
  - by rewrite DeleteGlobalRef_commute.
  - by rewrite IH1, IH2.
Qed.

Lemma destroy_visiting_any_order (s : State) (visit : list (string * nat)) :
  visit ≡ₚ map_to_list (m_handlers (fwd s)) →
  destroy_visiting visit s = destroy s.
Proof.
  intros Hp. unfold destroy, destroy_visiting.
  by rewrite (walk_order_irrelevant _ _ Hp).
Qed.

Lemma elem_of_handler_refs (s : State) (g : nat) :
  g ∈ (map_to_list (m_handlers (fwd s))).*2 ↔
  ∃ name, m_handlers (fwd s) !! name = Some g.
Proof.
  rewrite list_elem_of_fmap. split.
  - intros ([n r] & -> & H%elem_of_map_to_list). eauto.
  - intros [n H]. exists (n, g). split; [done|]. by apply elem_of_map_to_list.
Qed.

Lemma NoDup_handler_refs (s : State) :
  consistent s → NoDup (map_to_list (m_handlers (fwd s))).*2.
Proof.
  intros Hc. apply NoDup_fmap_2_strong; [|apply NoDup_map_to_list].
  intros [n1 g1] [n2 g2] H1%elem_of_map_to_list H2%elem_of_map_to_list Heq.
  cbn in Heq. subst g2. f_equal. by eapply consistent_entries_differ.
Qed.

Lemma step_class_pinned c s s' :
  consistent s → class_pinned s → step s c = Some s' → class_pinned s'.
Proof.
  intros (H1 & H2 & H3 & H4) Hcl Hs cl.
  destruct (step_thread _ _ _ Hs) as (_ & _ & _ & _ & -> & _).
  intros Hcls. destruct (Hcl cl Hcls) as [Hlive Hmf].
  assert (cl < next_global (vm s))%nat as Hlt by eauto.
  assert (∀ n, m_handlers (fwd s) !! n ≠ Some cl) as Hno.
  { intros n Hn. destruct (H3 _ _ Hn) as [o Ho]. congruence. }
  destruct (step_instants_of _ _ _ Hs) as (l & Hl & _).
  destruct c as [name [obj|] ok|name].
  - pose proof (instants_of_register_Some _ _ _ _ _ Hl) as Hlv.
    rewrite step_register_state in Hs by done. injection Hs as <-.
    assert (is_Some (globals (vm (old_unpinned name s)) !! cl) ∧
            made_for (old_unpinned name s) !! cl = None) as [Hl1 Hm1].
    { unfold old_unpinned.
      destruct (m_handlers (fwd s) !! name) as [old|] eqn:E; [|done].
      cbn. split; [|done]. rewrite lookup_delete_ne; [done|].
      intros <-. by eapply Hno. }
    destruct ok; [|done]. cbn.
    rewrite old_unpinned_next, old_unpinned_made_for in *.
    rewrite !lookup_insert_ne by lia. done.
  - rewrite step_register_null in Hs. by injection Hs as <-.
  - pose proof (instants_of_unregister_Some _ _ _ Hl) as Hlv.
    rewrite step_unregister_state in Hs by done. injection Hs as <-.
    destruct (m_handlers (fwd s) !! name) as [ref|] eqn:E; [|done].
    cbn. split; [|done]. rewrite lookup_delete_ne; [done|].
    intros <-. by eapply Hno.
Qed.

Lemma run_class_pinned cs : ∀ s s',
  consistent s → class_pinned s → run cs s = Some s' → class_pinned s'.
Proof.
  induction cs as [|c cs IH]; intros s s' Hc Hcl; cbn; [by intros [= <-]|].
  destruct (step s c) as [s1|] eqn:E; [|done]. cbn.
  destruct (step_instants_of _ _ _ E) as (l1 & Hl1 & Hs1).
  apply IH; [|by eapply step_class_pinned].
  rewrite Hs1. by eapply step_consistent.
Qed.

(** The destructor on a state whose table and class reference are live. *)
Lemma destroy_pinned s :
  consistent s → all_pinned s → class_pinned s → env (vm s) = JNI_OK →
  ∃ jvm,
    destroy s =
      Some (St {| m_handlers := ∅;
                  m_handlerClass := m_handlerClass (fwd s);
                  m_handleMethod := m_handleMethod (fwd s) |} jvm (made_for s),
            [Log Out "[CPP] SignalForwarder destructor called";
             Log Out "[CPP] SignalForwarder cleanup complete"]) ∧
    (∀ g, (∃ name, m_handlers (fwd s) !! name = Some g) ∨
          m_handlerClass (fwd s) = Some g →
          globals jvm !! g = None) ∧
    (∀ g, (∀ name, m_handlers (fwd s) !! name ≠ Some g) →
          m_handlerClass (fwd s) ≠ Some g →
          globals jvm !! g = globals (vm s) !! g).
Proof.
  intros Hc Hp Hcl Henv. unfold destroy, destroy_visiting. rewrite Henv.
  rewrite bool_decide_eq_true_2 by done. cbn [negb].
  destruct (foldl_DeleteGlobalRef (map_to_list (m_handlers (fwd s))) (vm s))
    as (jvm1 & -> & Hg & _).
  { by apply NoDup_handler_refs. }
  { intros g [n Hn]%elem_of_handler_refs. by eapply Hp. }
  cbn [mbind option_bind].
  assert (∀ g, (∃ name, m_handlers (fwd s) !! name = Some g) →
               globals jvm1 !! g = None) as Hin.
  { intros g Hn. rewrite Hg, decide_True; [done|]. by apply elem_of_handler_refs. }
  assert (∀ g, (∀ name, m_handlers (fwd s) !! name ≠ Some g) →
               globals jvm1 !! g = globals (vm s) !! g) as Hout.
  { intros g Hn. rewrite Hg, decide_False; [done|].
    intros [n ?]%elem_of_handler_refs. by eapply Hn. }
  destruct (m_handlerClass (fwd s)) as [c|] eqn:Ec.
  - destruct (Hcl c Ec) as [Hlive Hmf].
    assert (∀ name, m_handlers (fwd s) !! name ≠ Some c) as Hnc.
    { intros n Hn. destruct Hc as (_ & _ & H3 & _).
      destruct (H3 _ _ Hn) as [o Ho]. congruence. }
    rewrite DeleteGlobalRef_live by (by rewrite Hout). cbn.
    eexists. split; [done|]. cbn. split.
    + intros g [Hn|[= <-]]; [|apply lookup_delete_eq].
      destruct (decide (g = c)) as [->|Hne]; [apply lookup_delete_eq|].
      rewrite lookup_delete_ne by done. by apply Hin.
    + intros g Hn Hne. rewrite lookup_delete_ne by congruence. by apply Hout.
  - cbn. eexists. split; [done|]. split.
    + intros g [Hn|?]; [by apply Hin|done].
    + intros g Hn _. by apply Hout.
Qed.

(** X14.  After a sequence of register and unregister calls in which no
    allocation fails, on a forwarder whose class reference is live and on
    a thread that has an environment, the destructor is defined, leaves no
    live pinned handle for any name, empties the table, deletes every
    reference the table held and the class reference, and touches no
    other global reference.  With an entry whose reference is not live
    (what a failed replacement leaves) the destructor hands that
    reference to [DeleteGlobalRef] again.  In which order the table is
    walked makes no difference to any of this. *)
Theorem destructor_releases_every_handler (s0 : State) (cs : list call) :
  fresh s0 →
  class_pinned s0 →
  env (vm s0) = JNI_OK →
  Forall (λ c, allocates c = true) cs →
  (∃ s s',
     run cs s0 = Some s ∧
     destroy s =
       Some (s', [Log Out "[CPP] SignalForwarder destructor called";
                  Log Out "[CPP] SignalForwarder cleanup complete"]) ∧
     (∀ name g, ¬ live_handle s' name g) ∧
     m_handlers (fwd s') = ∅ ∧
     (∀ name g, m_handlers (fwd s) !! name = Some g →
                is_Some (globals (vm s) !! g) ∧ globals (vm s') !! g = None) ∧
     (∀ c, m_handlerClass (fwd s) = Some c → globals (vm s') !! c = None) ∧
     (∀ g, (∀ name, m_handlers (fwd s) !! name ≠ Some g) →
           m_handlerClass (fwd s) ≠ Some g →
           globals (vm s') !! g = globals (vm s) !! g)) ∧
  (∀ s name g,
     env (vm s) = JNI_OK →
     m_handlers (fwd s) !! name = Some g →
     globals (vm s) !! g = None →
     destroy s = None) ∧
  (∀ s visit,
     visit ≡ₚ map_to_list (m_handlers (fwd s)) →
     destroy_visiting visit s = destroy s).
Proof.
  intros Hf Hcl0 Henv0 Hal.
  split; [|split; [|intros s visit; apply destroy_visiting_any_order]].
  - pose proof (fresh_consistent s0 Hf) as Hc0.
    destruct (run_keeps_pinned cs s0 Hc0 (fresh_all_pinned s0 Hf) Hal)
      as (s & Hr & Hc & Hp).
    pose proof (run_class_pinned cs s0 s Hc0 Hcl0 Hr) as Hcl.
    destruct (run_thread cs s0 s Hr) as (Henv & _).
    rewrite Henv0 in Henv.
    destruct (destroy_pinned s Hc Hp Hcl Henv) as (jvm & Hd & Hin & Hout).
    eexists s, _. split_and!; [done|done| |done| | |].
    + intros name g [[o Ho] [obj Hm]]. cbn in *.
      destruct Hc as (_ & _ & H3 & H4).
      assert (∀ n, m_handlers (fwd s) !! n ≠ Some g) as Hn.
      { intros n Hn. rewrite Hin in Ho by eauto. done. }
      assert (m_handlerClass (fwd s) ≠ Some g) as Hc'.
      { intros Hc'. rewrite Hin in Ho by eauto. done. }
      rewrite Hout in Ho by done.
      destruct (H4 _ _ _ Hm) as [? _]; [eauto|]. by eapply Hn.
    + intros name g Hn. split; [by eapply Hp|]. cbn. apply Hin. eauto.
    + intros c Hc'. cbn. apply Hin. eauto.
    + intros g Hn Hc'. cbn. by apply Hout.
  - intros s name g Henv Hn Hd. unfold destroy, destroy_visiting. rewrite Henv.
    rewrite bool_decide_eq_true_2 by done. cbn [negb].
    rewrite (foldl_DeleteGlobalRef_dead _ (vm s) g); [done| |done].
    apply elem_of_handler_refs. eauto.
Qed.

(** X15.  On a thread without an environment the destructor releases
    nothing: it returns in the state it was called in, so (when no
    allocation has failed) every registered handler is still pinned. *)
Theorem destructor_without_environment_releases_nothing
    (s0 : State) (cs : list call) :
  fresh s0 →
  Forall (λ c, allocates c = true) cs →
  env (vm s0) ≠ JNI_OK →
  ∃ s,
    run cs s0 = Some s ∧
    destroy s =
      Some (s, [Log Out "[CPP] SignalForwarder destructor called";
                Log Err "[CPP] WARNING: Could not get JNIEnv in destructor for cleanup"]) ∧
    ∀ name g, m_handlers (fwd s) !! name = Some g → live_handle s name g.
Proof.
  intros Hf Hal Henv0.
  destruct (run_keeps_pinned cs s0 (fresh_consistent s0 Hf)
              (fresh_all_pinned s0 Hf) Hal) as (s & Hr & Hc & Hp).
  destruct (run_thread cs s0 s Hr) as (Henv & _).
  exists s. split_and!; [done| |].
  - unfold destroy, destroy_visiting.
    rewrite bool_decide_eq_false_2 by congruence. done.
  - intros name g Hg. split; [by eapply Hp|].
    destruct Hc as (_ & _ & H3 & _). apply (H3 _ _ Hg).
Qed.
End ForwarderMore.

Section WatcherMoreSpec.
Import Qt Engine Watcher WatcherMore.
Variable fileExists : Z → string → bool.
Variable qmlLoads : Z → string → bool.

(** X16.  [setAutoReload(false)] does not cancel a reload that is
    already scheduled: a notification received while auto-reload was on
    still leads to one reload when its timer fires after auto-reload has
    been turned off; and once it is off, later notifications schedule
    nothing. *)
Theorem disabling_does_not_cancel_a_scheduled_reload
    (t : Z) (p : string) (l : Loop) :
  m_autoReload (watcher l) = true →
  is_Some (m_engine (watcher l)) →
  timers l = [] →
  reloads (console (processEvents qmlLoads (t + 100)
                      (withAutoReload false (onFileChanged fileExists t p l))))
    = S (reloads (console l)) ∧
  (∀ t' p',
     timers (onFileChanged fileExists t' p'
               (withAutoReload false (onFileChanged fileExists t p l)))
     = timers (onFileChanged fileExists t p l)).
Proof.
  intros Ha He Ht.
  destruct (onFileChanged_enabled fileExists t p l Ha) as (Hts & Hr & He' & Ha').
  set (l1 := onFileChanged fileExists t p l) in *.
  split.
  - unfold processEvents, withAutoReload.
    cbn [watcher timers console setAutoReload fst snd].
    rewrite Hts, Ht. cbn [app]. rewrite !filter_cons, !filter_nil.
    rewrite decide_False by (cbn; lia). rewrite decide_True by (cbn; lia).
    edestruct (foldl_fire_reloads qmlLoads (t + 100) [(t + 100, p)]) as (-> & _).
    + cbn. by rewrite He'.
    + cbn [console length]. rewrite reloads_app, Hr.
      rewrite reloads_cons_other by (cbn; discriminate). cbn. lia.
  - intros t' p'.
    by destruct (onFileChanged_disabled fileExists t' p'
                   (withAutoReload false l1) eq_refl) as [-> _].
Qed.

End WatcherMoreSpec.

Section WatchList.
Import Qt Engine Watcher WatcherMore.
Variable fileExists : Z → string → bool.

Lemma watchFile_cases now p w :
  (p ∈ m_watcher w ∧ (watchFile fileExists now p w).1 = w) ∨
  ((p ∉ m_watcher w) ∧ fileExists now p = false ∧
   (watchFile fileExists now p w).1 = w) ∨
  ((p ∉ m_watcher w) ∧ fileExists now p = true ∧
   (watchFile fileExists now p w).1 =
     {| m_engine := m_engine w; m_watcher := m_watcher w ++ [p];
        m_autoReload := m_autoReload w; m_currentQmlPath := p;
        m_savedProperties := m_savedProperties w |}).
Proof.
  unfold watchFile, addPath. case_bool_decide as Hin; [by left|right].
  cbn [orb].
  destruct (fileExists now p); cbn; [right|left]; done.
Qed.

(** X17.  [watchFile] is idempotent.  Afterwards the path is watched
    exactly if it was already or the file exists; no other path is added
    or dropped; a list without duplicates stays so; a file that does not
    exist leaves the watcher as it was; and the auto-reload flag and the
    engine are never touched. *)
Theorem watchFile_is_idempotent (now : Z) (p : string) (w : QmlWatcher) :
  (watchFile fileExists now p (watchFile fileExists now p w).1).1
    = (watchFile fileExists now p w).1 ∧
  (p ∈ m_watcher (watchFile fileExists now p w).1 ↔
   p ∈ m_watcher w ∨ fileExists now p = true) ∧
  (∀ q, q ≠ p →
     (q ∈ m_watcher (watchFile fileExists now p w).1 ↔ q ∈ m_watcher w)) ∧
  (NoDup (m_watcher w) → NoDup (m_watcher (watchFile fileExists now p w).1)) ∧
  (p ∉ m_watcher w → fileExists now p = false →
     (watchFile fileExists now p w).1 = w) ∧
  m_autoReload (watchFile fileExists now p w).1 = m_autoReload w ∧
  m_engine (watchFile fileExists now p w).1 = m_engine w.
Proof.
  destruct (watchFile_cases now p w) as [[Hin ->]|[(Hin & Hex & ->)|(Hin & Hex & ->)]].
  - destruct (watchFile_cases now p w) as [[_ ->]|[(? & _)|(? & _)]]; try done.
    split_and!; try done. split; [tauto|by intros _].
  - destruct (watchFile_cases now p w) as [[? _]|[(_ & _ & ->)|(_ & ? & _)]];
      try done; [|congruence].
    split_and!; try done. split; [done|]. intros [?|?]; [done|congruence].
  - set (w' := {| m_engine := _ |}).
    destruct (watchFile_cases now p w') as [[_ ->]|[(Hn & _)|(Hn & _)]];
      try (destruct Hn; cbn; apply elem_of_app; right; left).
    cbn. split_and!; try done.
    + split; [auto|]. intros _. apply elem_of_app. right. left.
    + intros q Hq. rewrite elem_of_app, list_elem_of_singleton. tauto.
    + intros Hnd. apply NoDup_app. split_and!; [done| |apply NoDup_singleton].
      intros x Hx ->%list_elem_of_singleton. done.
    + congruence.
Qed.

(** X18.  [unwatchFile] removes the path and only the path; it leaves
    [m_currentQmlPath] and the auto-reload flag alone; it undoes
    [watchFile]; and [watchFile] after it watches the path again exactly
    if the file exists. *)
Theorem unwatchFile_removes_only_that_path (now : Z) (p : string) (w : QmlWatcher) :
  (p ∉ m_watcher (unwatchFile p w).1) ∧
  (∀ q, q ≠ p → (q ∈ m_watcher (unwatchFile p w).1 ↔ q ∈ m_watcher w)) ∧
  m_currentQmlPath (unwatchFile p w).1 = m_currentQmlPath w ∧
  m_autoReload (unwatchFile p w).1 = m_autoReload w ∧
  (p ∉ m_watcher (unwatchFile p (watchFile fileExists now p w).1).1) ∧
  (p ∈ m_watcher (watchFile fileExists now p (unwatchFile p w).1).1 ↔
   fileExists now p = true).
Proof.
  assert (∀ w, p ∉ m_watcher (unwatchFile p w).1) as Hrm.
  { intros w0. cbn. unfold removePath. rewrite list_elem_of_filter. tauto. }
  split_and!; try done.
  - intros q Hq. cbn. unfold removePath. rewrite list_elem_of_filter. tauto.
  - destruct (watchFile_cases now p (unwatchFile p w).1)
      as [[Hin _]|[(_ & Hex & ->)|(_ & Hex & ->)]].
    + by destruct (Hrm w).
    + split; [by intros ?%Hrm|congruence].
    + split; [done|]. intros _. cbn. apply elem_of_app. right. left.
Qed.

(** X19.  With auto-reload on, a change notification re-arms the
    watch: afterwards the path is watched if it was or if the file exists
    at that time, no other path is affected, and no duplicate is
    introduced. *)
Theorem notification_rearms_the_watch (now : Z) (p : string) (l : Loop) :
  m_autoReload (watcher l) = true →
  (p ∈ m_watcher (watcher (onFileChanged fileExists now p l)) ↔
   p ∈ m_watcher (watcher l) ∨ fileExists now p = true) ∧
  (∀ q, q ≠ p →
     (q ∈ m_watcher (watcher (onFileChanged fileExists now p l)) ↔
      q ∈ m_watcher (watcher l))) ∧
  (NoDup (m_watcher (watcher l)) →
   NoDup (m_watcher (watcher (onFileChanged fileExists now p l)))).
Proof.
  intros Ha. unfold onFileChanged, addPath. rewrite Ha.
  cbn [negb watcher m_watcher].
  case_bool_decide as Hin; cbn [negb orb snd].
  - split_and!; try done. split; [auto|by intros _].
  - destruct (fileExists now p); cbn [negb snd].
    + split_and!.
      * split; [auto|]. intros _. apply elem_of_app. right. left.
      * intros q Hq. rewrite elem_of_app, list_elem_of_singleton. tauto.
      * intros Hnd. apply NoDup_app. split_and!; [done| |apply NoDup_singleton].
        intros x Hx ->%list_elem_of_singleton. done.
    + split_and!; try done. split; [auto|]. intros [?|?]; done.
Qed.
End WatchList.

Section ReloadSpec.
Import Qt Engine Watcher WatcherMore.
Variable qmlLoads : Z → string → bool.

(** X20.  When the document loads, a reload replaces the UI tree: once
    the timer's callback has returned and the deferred deletions are done,
    the engine's only root object is the newly created one, the cache
    holds only the reloaded document, the context properties are those
    from before, and the completion, not the failure, is printed. *)
Theorem successful_reload_replaces_the_roots
    (now d : Z) (path : string) (l : Loop) (e : QQmlApplicationEngine) :
  m_engine (watcher l) = Some e →
  qmlLoads now path = true →
  ids_in_use e →
  m_engine (watcher (fire qmlLoads now l (d, path))) =
    Some {| rootObjects := [next_object e]; deferred := [];
            componentCache := [path];
            contextProperties := contextProperties e;
            next_object := S (next_object e) |} ∧
  logs_complete (reloadQml qmlLoads now path (watcher l)).2 ∧
  ¬ logs_failure (reloadQml qmlLoads now path (watcher l)).2.
Proof.
  intros He Hl [Hroots Hdef]. split.
  - unfold fire. cbn [watcher m_engine snd].
    rewrite (reloadQml_engine_state qmlLoads now path (watcher l) e He), Hl.
    cbn. f_equal. unfold processDeferredDeletes. cbn. f_equal.
    rewrite filter_app, filter_not_in_app, filter_cons, decide_True; [done|].
    intros [Hin|Hin]%elem_of_app.
    + rewrite Forall_forall in Hdef. specialize (Hdef _ Hin). lia.
    + rewrite Forall_forall in Hroots. specialize (Hroots _ Hin). lia.
  - apply (reloadQml_output qmlLoads now path (watcher l) e He). by right.
Qed.

(** X21.  When the document does not load while the engine still has
    root objects, [reloadQml] prints the completion and not the failure
    (the old roots, only scheduled for deletion, are still listed when it
    checks), and once the deferred deletions are done the engine has no
    root object at all. *)
Theorem failed_load_over_old_roots_is_reported_complete
    (now d : Z) (path : string) (l : Loop) (e : QQmlApplicationEngine) :
  m_engine (watcher l) = Some e →
  rootObjects e ≠ [] →
  qmlLoads now path = false →
  logs_complete (reloadQml qmlLoads now path (watcher l)).2 ∧
  ¬ logs_failure (reloadQml qmlLoads now path (watcher l)).2 ∧
  m_engine (watcher (fire qmlLoads now l (d, path))) =
    Some {| rootObjects := []; deferred := [];
            componentCache := [];
            contextProperties := contextProperties e;
            next_object := next_object e |}.
Proof.
  intros He Hroots Hl.
  destruct (reloadQml_output qmlLoads now path (watcher l) e He) as [_ H].
  destruct H as [H1 H2]; [by left|]. split_and!; [done..|].
  unfold fire. cbn [watcher m_engine snd].
  rewrite (reloadQml_engine_state qmlLoads now path (watcher l) e He), Hl.
  cbn. f_equal. unfold processDeferredDeletes. cbn. f_equal.
  apply filter_not_in_app.
Qed.

(** X22.  [reloadQml] never changes the auto-reload flag, the watched
    paths, [m_currentQmlPath] or [m_savedProperties]; without an engine it
    changes nothing; with one, the context properties survive, every old
    root object is still a root when it returns and has been queued for
    deletion, and at most one root object has been added. *)
Theorem reloadQml_keeps_state_and_defers_teardown
    (now : Z) (path : string) (w : QmlWatcher) :
  m_autoReload (reloadQml qmlLoads now path w).1 = m_autoReload w ∧
  m_watcher (reloadQml qmlLoads now path w).1 = m_watcher w ∧
  m_currentQmlPath (reloadQml qmlLoads now path w).1 = m_currentQmlPath w ∧
  m_savedProperties (reloadQml qmlLoads now path w).1 = m_savedProperties w ∧
  (m_engine w = None → (reloadQml qmlLoads now path w).1 = w) ∧
  (∀ e, m_engine w = Some e →
     ∃ e', m_engine (reloadQml qmlLoads now path w).1 = Some e' ∧
           contextProperties e' = contextProperties e ∧
           rootObjects e `prefix_of` rootObjects e' ∧
           deferred e' = deferred e ++ rootObjects e ∧
           (length (rootObjects e') ≤ S (length (rootObjects e)))%nat).
Proof.
  split_and!.
  - unfold reloadQml. destruct (m_engine w); [|done]. by case_bool_decide.
  - unfold reloadQml. destruct (m_engine w); [|done]. by case_bool_decide.
  - unfold reloadQml. destruct (m_engine w); [|done]. by case_bool_decide.
  - unfold reloadQml. destruct (m_engine w); [|done]. by case_bool_decide.
  - intros He. unfold reloadQml. by rewrite He.
  - intros e He. eexists. split; [by apply reloadQml_engine_state|].
    unfold load. destruct (qmlLoads now path); cbn.
    + split_and!; [done|by apply prefix_app_r|done|].
      rewrite length_app. cbn. lia.
    + split_and!; [done..|lia].
Qed.
End ReloadSpec.

Section RegistrySpec.
Import Qt Engine ListModel Bridge Registry.

Lemma find_model_Some name g model m :
  find_model name g = Some (model, m) ↔
  g_models g !! name = Some model ∧ heap g !! model = Some m.
Proof.
  unfold find_model. destruct (g_models g !! name) as [a|]; cbn.
  - destruct (heap g !! a) as [m'|] eqn:E; cbn.
    + split; [by intros [= <- <-]|]. intros [[= <-] H]. congruence.
    + split; [done|]. intros [[= <-] H]. congruence.
  - split; [done|]. by intros [? _].
Qed.

Lemma getModelCount_found modelName g model m :
  find_model (jstringToStdString modelName) g = Some (model, m) →
  getModelCount modelName g = (count m, []).
Proof. intros Hf. unfold getModelCount. by rewrite Hf. Qed.

Lemma find_model_update name g model m' :
  g_models g !! name = Some model →
  find_model name {| g_engine := g_engine g; g_models := g_models g;
                     heap := <[model := m']> (heap g);
                     next_address := next_address g |} = Some (model, m').
Proof.
  intros Hm. apply find_model_Some. cbn. split; [done|apply lookup_insert_eq].
Qed.

Lemma find_model_None name g :
  g_models g !! name = None → find_model name g = None.
Proof. intros E. unfold find_model. by rewrite E. Qed.

Lemma createModel_state modelName g :
  (createModel modelName g).1 =
  match g_engine g with
  | None => g
  | Some e =>
      if bool_decide (is_Some (g_models g !! jstringToStdString modelName)) then g
      else {| g_engine := Some (setContextProperty (jstringToStdString modelName)
                                  (next_address g) e);
              g_models := <[jstringToStdString modelName := next_address g]> (g_models g);
              heap := <[next_address g := ListModel.create]> (heap g);
              next_address := S (next_address g) |}
  end.
Proof.
  unfold createModel. destruct (g_engine g); [|done]. by case_bool_decide.
Qed.

Lemma setModelData_state modelName doc g :
  (setModelData modelName doc g).1 =
  match find_model (jstringToStdString modelName) g with
  | None => g
  | Some (model, m) =>
      {| g_engine := g_engine g; g_models := g_models g;
         heap := <[model := (setJsonData doc m).1]> (heap g);
         next_address := next_address g |}
  end.
Proof.
  unfold setModelData. by destruct (find_model _ g) as [[? ?]|].
Qed.

Lemma clearModel_state modelName g :
  (clearModel modelName g).1 =
  match find_model (jstringToStdString modelName) g with
  | None => g
  | Some (model, m) =>
      {| g_engine := g_engine g; g_models := g_models g;
         heap := <[model := (clear m).1]> (heap g);
         next_address := next_address g |}
  end.
Proof.
  unfold clearModel. by destruct (find_model _ g) as [[? ?]|].
Qed.

Lemma well_formed_update g model m' :
  well_formed g → is_Some (heap g !! model) →
  well_formed {| g_engine := g_engine g; g_models := g_models g;
                 heap := <[model := m']> (heap g);
                 next_address := next_address g |}.
Proof.
  intros [H1 H2] Hm. split; [|done]. cbn. intros name a Ha.
  destruct (H1 name a Ha) as [? ?]. split; [done|].
  destruct (decide (model = a)) as [->|Hne].
  - rewrite lookup_insert_eq. eauto.
  - by rewrite lookup_insert_ne.
Qed.

Lemma step_well_formed g c : well_formed g → well_formed (step g c).
Proof.
  intros Hwf. destruct c as [n|n doc|n]; cbn [step].
  - rewrite createModel_state. destruct (g_engine g) as [e|]; [|done].
    case_bool_decide as Hex; [done|]. destruct Hwf as [H1 H2].
    split; cbn.
    + intros name a [[<- <-]|[Hne Ha]]%lookup_insert_Some.
      * split; [lia|]. rewrite lookup_insert_eq. eauto.
      * destruct (H1 name a Ha) as [Hlt Hh]. split; [lia|].
        rewrite lookup_insert_ne by lia. done.
    + intros n1 n2 a [[<- <-]|[Hne1 Ha1]]%lookup_insert_Some
                     [[<- E]|[Hne2 Ha2]]%lookup_insert_Some; try done.
      * destruct (H1 _ _ Ha2). lia.
      * destruct (H1 _ _ Ha1). lia.
      * by eapply H2.
  - rewrite setModelData_state.
    destruct (find_model _ g) as [[model m]|] eqn:E; [|done].
    apply find_model_Some in E as [_ E]. apply well_formed_update; eauto.
  - rewrite clearModel_state.
    destruct (find_model _ g) as [[model m]|] eqn:E; [|done].
    apply find_model_Some in E as [_ E]. apply well_formed_update; eauto.
Qed.

Lemma initialized_well_formed e : well_formed (initialized e).
Proof. split; cbn; intros *; by rewrite lookup_empty. Qed.

Lemma run_well_formed cs : ∀ g, well_formed g → well_formed (run cs g).
Proof.
  induction cs as [|c cs IH]; intros g Hwf; [done|].
  unfold run. cbn [foldl]. apply IH. by apply step_well_formed.
Qed.

Lemma step_other_model g c name :
  well_formed g → target c ≠ name →
  find_model name (step g c) = find_model name g.
Proof.
  intros [H1 H2] Hne. unfold find_model.
  destruct c as [n|n doc|n]; cbn [step target] in *.
  - rewrite createModel_state. destruct (g_engine g) as [e|]; [|done].
    case_bool_decide as Hex; [done|]. cbn.
    rewrite lookup_insert_ne by done.
    destruct (g_models g !! name) as [a|] eqn:Ea; [|done]. cbn.
    destruct (H1 _ _ Ea). rewrite lookup_insert_ne by lia. done.
  - rewrite setModelData_state.
    destruct (find_model _ g) as [[model m]|] eqn:E; [|done]. cbn.
    apply find_model_Some in E as [E _].
    destruct (g_models g !! name) as [a|] eqn:Ea; [|done]. cbn.
    rewrite lookup_insert_ne; [done|]. intros <-. by destruct Hne; eapply H2.
  - rewrite clearModel_state.
    destruct (find_model _ g) as [[model m]|] eqn:E; [|done]. cbn.
    apply find_model_Some in E as [E _].
    destruct (g_models g !! name) as [a|] eqn:Ea; [|done]. cbn.
    rewrite lookup_insert_ne; [done|]. intros <-. by destruct Hne; eapply H2.
Qed.

(** X23.  For a name that is not in the registry, [setModelData] and
    [clearModel] change nothing, [getModelCount] answers 0, and each
    prints that the model was not found; and with no engine
    [createModel] changes nothing either. *)
Theorem unknown_model_operations_change_nothing
    (g : Globals) (modelName : option string) (doc : QJsonDocument) :
  g_models g !! jstringToStdString modelName = None →
  (setModelData modelName doc g).1 = g ∧
  (clearModel modelName g).1 = g ∧
  (getModelCount modelName g).1 = 0 ∧
  Log Err ("[CPP] ERROR: Model not found: " +:+ jstringToStdString modelName)
    ∈ (setModelData modelName doc g).2 ∧
  Log Err ("[CPP] ERROR: Model not found: " +:+ jstringToStdString modelName)
    ∈ (clearModel modelName g).2 ∧
  Log Err ("[CPP] ERROR: Model not found: " +:+ jstringToStdString modelName)
    ∈ (getModelCount modelName g).2 ∧
  (g_engine g = None → (createModel modelName g).1 = g).
Proof.
  intros E. pose proof (find_model_None _ g E) as Hf.
  unfold setModelData, clearModel, getModelCount. rewrite Hf. cbn.
  split_and!; try done; try (rewrite !elem_of_cons; tauto).
  intros He. rewrite createModel_state. by rewrite He.
Qed.

(** X24.  With the engine initialised and the name free, [createModel]
    allocates an empty model, registers it under the name, exposes the
    same address under the same name as a context property, and
    [getModelCount] for the name is 0. *)
Theorem createModel_registers_an_empty_model
    (g : Globals) (modelName : option string) (e : QQmlApplicationEngine) :
  g_engine g = Some e →
  g_models g !! jstringToStdString modelName = None →
  find_model (jstringToStdString modelName) (createModel modelName g).1
    = Some (next_address g, ListModel.create) ∧
  g_engine (createModel modelName g).1
    = Some (setContextProperty (jstringToStdString modelName) (next_address g) e) ∧
  contextProperties
    (setContextProperty (jstringToStdString modelName) (next_address g) e)
    !! jstringToStdString modelName = Some (next_address g) ∧
  getModelCount modelName (createModel modelName g).1 = (0, []) ∧
  next_address (createModel modelName g).1 = S (next_address g).
Proof.
  intros He E.
  assert (find_model (jstringToStdString modelName) (createModel modelName g).1
          = Some (next_address g, ListModel.create)) as Hf.
  { rewrite createModel_state, He, E. cbn. unfold find_model. cbn.
    rewrite lookup_insert_eq. cbn. by rewrite lookup_insert_eq. }
  split_and!; [done| | | |].
  - rewrite createModel_state, He, E. done.
  - cbn. apply lookup_insert_eq.
  - unfold getModelCount. by rewrite Hf.
  - rewrite createModel_state, He, E. done.
Qed.

(** X25.  After any sequence of registry calls from [initialize], a
    call about one model name leaves the model registered under any other
    name, and its count, exactly as they were. *)
Theorem models_are_independent
    (e : QQmlApplicationEngine) (cs : list call) (c : call) (name : string) :
  target c ≠ name →
  find_model name (step (run cs (initialized e)) c)
    = find_model name (run cs (initialized e)) ∧
  getModelCount (Some name) (step (run cs (initialized e)) c)
    = getModelCount (Some name) (run cs (initialized e)).
Proof.
  intros Hne.
  pose proof (run_well_formed cs _ (initialized_well_formed e)) as Hwf.
  pose proof (step_other_model _ c name Hwf Hne) as Hf.
  split; [done|]. unfold getModelCount. cbn. by rewrite Hf.
Qed.

Lemma count_setJsonData a m :
  count (setJsonData (DocArray a) m).1 = Z.of_nat (object_records a).
Proof.
  unfold count. cbn. rewrite foldl_setJsonData_value_rows. cbn.
  by rewrite length_rows_of.
Qed.

(** X26.  After any sequence of registry calls from [initialize], for a
    registered name: [getModelCount] after [setModelData] with an array is
    the number of object-shaped records of the array; after [clearModel]
    it is 0; and [setModelData] with a document that is not an array
    leaves it as it was. *)
Theorem setModelData_then_getModelCount
    (e : QQmlApplicationEngine) (cs : list call)
    (modelName : option string) (a : list QJsonValue) :
  is_Some (g_models (run cs (initialized e)) !! jstringToStdString modelName) →
  getModelCount modelName
    (setModelData modelName (DocArray a) (run cs (initialized e))).1
    = (Z.of_nat (object_records a), []) ∧
  getModelCount modelName (clearModel modelName (run cs (initialized e))).1
    = (0, []) ∧
  (∀ doc, isArray doc = false →
     getModelCount modelName (setModelData modelName doc (run cs (initialized e))).1
     = getModelCount modelName (run cs (initialized e))).
Proof.
  intros [model Hm].
  pose proof (run_well_formed cs _ (initialized_well_formed e)) as Hwf.
  set (g := run cs (initialized e)) in *.
  destruct Hwf as [H1 _]. destruct (H1 _ _ Hm) as [_ [m Hh]].
  assert (find_model (jstringToStdString modelName) g = Some (model, m)) as Hf
    by (by apply find_model_Some).
  split_and!.
  - rewrite setModelData_state, Hf.
    erewrite getModelCount_found by (by apply find_model_update).
    by rewrite count_setJsonData.
  - rewrite clearModel_state, Hf.
    by erewrite getModelCount_found by (by apply find_model_update).
  - intros doc Hdoc. rewrite setModelData_state, Hf.
    erewrite getModelCount_found by (by apply find_model_update).
    rewrite (getModelCount_found _ _ _ _ Hf). by destruct doc.
Qed.
End RegistrySpec.

(** * More concrete instances *)

Section MoreInstances.
Import Qt Jni Engine Scenarios MoreScenarios.

Lemma constructor_witness :
  Forwarder.fresh (Forwarder.new (boot JNI_OK true) (Some 7%nat) false).1.
Proof.
  exact (proj1 (constructor_state_is_fresh (boot JNI_OK true) (Some 7%nat) false
                  (map_Forall_empty _))).
Defined.

Lemma detached_forwarder_fresh : Forwarder.fresh detached_forwarder.
Proof. split_and!; [by vm_compute..|]. apply map_Forall_empty. Qed.

Lemma setData_then_get_witness :
  ListModel.get
    (ListModel.run ([ListModel.Clear] ++ [ListModel.SetData (DocArray people_records)])
       ListModel.create) (Z.of_nat 1) "age"
  = Some (VDouble 3).
Proof.
  refine (setData_then_get_reads_the_payload [ListModel.Clear] people_records 1
            (<["name" := VString "y"]> {["age" := VDouble 3]}) "age" (VDouble 3)
            _ _ _ _).
  - by vm_compute.
  - by vm_compute.
  - by vm_compute.
  - discriminate.
Defined.

Lemma display_role_witness :
  ListModel.data (ListModel.run session ListModel.create) (ModelIndex 0 0 true) 0
  = Some Invalid.
Proof.
  refine (roles_outside_the_table_read_invalid session (ModelIndex 0 0 true) 0 _ _).
  - by vm_compute.
  - left. by vm_compute.
Defined.

Lemma no_records_witness :
  (ListModel.setJsonData (DocArray no_records)
     (ListModel.run session ListModel.create)).1
  = (ListModel.clear (ListModel.run session ListModel.create)).1.
Proof.
  exact (proj1 (payload_without_objects_clears no_records
                  (ListModel.run session ListModel.create) eq_refl)).
Defined.

Lemma pinned_witness :
  ∃ s, Forwarder.run (take 3 registrations) forwarder = Some s ∧
       ∃ obj, globals (Forwarder.vm s) !! 2%nat = Some obj ∧
              Forwarder.made_for s !! 2%nat = Some ("clicked", obj).
Proof.
  destruct (handlers_stay_pinned_without_allocation_failure forwarder
              (take 3 registrations) forwarder_fresh) as (s & Hr & H).
  - repeat constructor.
  - exists s. split; [exact Hr|]. apply H.
    rewrite (proj2 runs_defined) in Hr. injection Hr as <-. by vm_compute.
Defined.


Lemma no_environment_witness :
  ∃ out,
    Forwarder.emitSignal quiet number_text "clicked" []
      (after (take 1 registrations) detached_forwarder)
    = Some (after (take 1 registrations) detached_forwarder, out).
Proof.
  destruct (emit_without_environment_calls_nothing quiet number_text
              (after (take 1 registrations) detached_forwarder)
              "clicked" [] 0%nat) as (out & H & _).
  - by vm_compute.
  - intros [H|[_ H]]; vm_compute in H; discriminate.
  - by exists out.
Defined.



Lemma destructor_witness :
  ∃ s s' out,
    Forwarder.run (take 3 registrations) forwarder = Some s ∧
    ForwarderEnd.destroy s = Some (s', out) ∧
    Forwarder.m_handlers (Forwarder.fwd s') = ∅ ∧
    globals (Forwarder.vm s') !! 0%nat = None ∧
    globals (Forwarder.vm s') !! 2%nat = None ∧
    globals (Forwarder.vm s') !! 3%nat = None.
Proof.
  destruct (proj1 (destructor_releases_every_handler forwarder (take 3 registrations)
                     forwarder_fresh (new_class_pinned _ _ _) eq_refl
                     ltac:(repeat constructor)))
    as (s & s' & Hr & Hd & _ & He & Hh & Hc & _).
  exists s, s'. eexists. split_and!; [exact Hr|exact Hd|exact He| | |].
  - apply Hc. rewrite (proj2 runs_defined) in Hr. injection Hr as <-. by vm_compute.
  - refine (proj2 (Hh "clicked" 2%nat _)).
    rewrite (proj2 runs_defined) in Hr. injection Hr as <-. by vm_compute.
  - refine (proj2 (Hh "moved" 3%nat _)).
    rewrite (proj2 runs_defined) in Hr. injection Hr as <-. by vm_compute.
Defined.

Lemma destructor_leak_witness :
  ∃ s out,
    Forwarder.run (take 1 registrations) detached_forwarder = Some s ∧
    ForwarderEnd.destroy s = Some (s, out) ∧
    Forwarder.live_handle s "clicked" 0.
Proof.
  destruct (destructor_without_environment_releases_nothing detached_forwarder
              (take 1 registrations) detached_forwarder_fresh)
    as (s & Hr & Hd & Hl).
  - repeat constructor.
  - vm_compute. discriminate.
  - exists s. eexists. split_and!; [exact Hr|exact Hd|].
    apply Hl. vm_compute in Hr. injection Hr as <-. by vm_compute.
Defined.

Lemma disabling_witness :
  Watcher.reloads
    (Watcher.console
       (Watcher.processEvents loads (1000 + 100)
          (WatcherMore.withAutoReload false
             (Watcher.onFileChanged present 1000 "Main.qml" running))))
  = 1%nat.
Proof.
  refine (proj1 (disabling_does_not_cancel_a_scheduled_reload present loads
                   1000 "Main.qml" running _ _ _)).
  - by vm_compute.
  - vm_compute. eauto.
  - by vm_compute.
Defined.

Lemma rearm_witness :
  "Other.qml" ∈ Watcher.m_watcher
     (Watcher.watcher (Watcher.onFileChanged present 0 "Other.qml" running)).
Proof.
  destruct (notification_rearms_the_watch present 0 "Other.qml" running)
    as (H & _).
  - by vm_compute.
  - apply H. right. by vm_compute.
Defined.

Lemma reload_roots_witness :
  (rootObjects <$>
     Watcher.m_engine (Watcher.watcher
       (Watcher.fire loads 5 reloading (5, "Main.qml")))) = Some [2%nat].
Proof.
  destruct (successful_reload_replaces_the_roots loads 5 5 "Main.qml" reloading
              two_roots) as (H & _).
  - by vm_compute.
  - by vm_compute.
  - split; vm_compute; repeat constructor.
  - by rewrite H.
Defined.

Lemma masked_failure_witness :
  Watcher.logs_complete
    (Watcher.reloadQml broken 5 "Main.qml" (Watcher.watcher reloading)).2.
Proof.
  refine (proj1 (failed_load_over_old_roots_is_reported_complete broken 5 5
                   "Main.qml" reloading two_roots _ _ _)).
  - by vm_compute.
  - by vm_compute.
  - by vm_compute.
Defined.

Lemma unknown_model_witness :
  (Bridge.setModelData (Some "people") people initialized).1 = initialized.
Proof.
  exact (proj1 (unknown_model_operations_change_nothing initialized
                  (Some "people") people eq_refl)).
Defined.

Lemma new_model_witness :
  Bridge.find_model "people" (Bridge.createModel (Some "people") initialized).1
  = Some (0%nat, ListModel.create).
Proof.
  exact (proj1 (createModel_registers_an_empty_model initialized (Some "people")
                  Engine.create eq_refl eq_refl)).
Defined.

Lemma independent_models_witness :
  Bridge.getModelCount (Some "people")
    (Registry.step (Registry.run two_models (Registry.initialized Engine.create))
       (Registry.ClearModel (Some "cities")))
  = (2, []).
Proof.
  refine (eq_trans (proj2 (models_are_independent Engine.create two_models
                     (Registry.ClearModel (Some "cities")) "people" _)) _).
  - discriminate.
  - by vm_compute.
Defined.

Lemma model_count_witness :
  Bridge.getModelCount (Some "cities")
    (Bridge.setModelData (Some "cities") (DocArray people_records)
       (Registry.run two_models (Registry.initialized Engine.create))).1
  = (2, []).
Proof.
  refine (proj1 (setModelData_then_getModelCount Engine.create two_models
                   (Some "cities") people_records _)).
  vm_compute. eauto.
Defined.

End MoreInstances.
